(** * miasm2.core.graph: the directed graph [DiGraph]

    A shallow embedding of [src/miasm2/core/graph.py] and the proofs of its
    storage, traversal, path enumeration and dominator properties.

    Conventions of the embedding:
    - a Python [set] of nodes is a [gset node], a [dict] from nodes to lists
      is a [gmap node (list node)], a [list] is a [list];
    - a method that mutates [self] is a state transformer on [DiGraph] that
      also returns an [outcome]: the value, or the exception raised.  The
      state returned with an exception is the one reached when it was raised
      (Python does not roll back);
    - [set.pop()] removes an arbitrary element.  Each loop that pops takes an
      oracle [pop : nat -> gset node -> node], asked with the number of the
      iteration and the current set, and every theorem holds for every oracle
      that answers with a member of the set;
    - loops whose termination is not structural take a fuel argument and
      return [OutOfFuel] when it runs out; the theorems give a fuel that is
      enough.
    - the generators [successors_iter] and [predecessors_iter] end with
      [raise StopIteration] on an unknown node, which in the Python 2 this
      module is written for ends the iteration: they yield nothing. *)

From stdpp Require Import gmap list sets fin_sets relations.
From Stdlib Require Import ZArith Lia.

(** ** Outcomes and exceptions *)

Inductive exn : Set :=
| ValueError      (* list.remove(x): x not in list *)
| KeyError        (* d[k]: k not in d *)
| AssertionError. (* assert failed *)

Inductive outcome (A : Type) : Type :=
| Ret (a : A)
| Raise (e : exn)
| OutOfFuel.
Arguments Ret {A} a.
Arguments Raise {A} e.
Arguments OutOfFuel {A}.

Definition obind {A B} (o : outcome A) (k : A → outcome B) : outcome B :=
  match o with
  | Ret a => k a
  | Raise e => Raise e
  | OutOfFuel => OutOfFuel
  end.

Definition omap {A B} (f : A → B) (o : outcome A) : outcome B :=
  obind o (λ a, Ret (f a)).

(** [l.remove(x)]: drops the first element equal to [x]; [None] stands for
    the [ValueError] raised when there is none. *)
Fixpoint list_remove {A} `{EqDecision A} (x : A) (l : list A) : option (list A) :=
  match l with
  | [] => None
  | y :: l' => if decide (x = y) then Some l' else (y ::.) <$> list_remove x l'
  end.

(** A sequence whose consecutive elements are related. *)
Fixpoint chain {A} (R : A → A → Prop) (p : list A) : Prop :=
  match p with
  | a :: (b :: _) as p' => R a b ∧ chain R p'
  | _ => True
  end.

Section DiGraph.
Context {node : Type} `{Countable node}.

(** ** The object state: [__init__] *)

Record DiGraph : Type := mkDiGraph {
  _nodes : gset node;
  _edges : list (node * node);
  (* N -> Nodes N2 with a edge (N -> N2) *)
  _nodes_succ : gmap node (list node);
  (* N -> Nodes N2 with a edge (N2 -> N) *)
  _nodes_pred : gmap node (list node);
}.

Definition init : DiGraph :=
  {| _nodes := ∅; _edges := []; _nodes_succ := ∅; _nodes_pred := ∅ |}.

(** Methods that mutate [self]. *)
Definition M (A : Type) : Type := DiGraph → outcome A * DiGraph.

#[global] Instance M_ret : MRet M := λ A (a : A) g, (Ret a, g).
#[global] Instance M_bind : MBind M := λ A B (k : A → M B) (m : M A) g,
  match m g with
  | (Ret a, g') => k a g'
  | (Raise e, g') => (Raise e, g')
  | (OutOfFuel, g') => (OutOfFuel, g')
  end.
Definition mget : M DiGraph := λ g, (Ret g, g).

(** [for x in l: body(x)] *)
Fixpoint mfor {A} (l : list A) (body : A → M unit) : M unit :=
  match l with
  | [] => mret tt
  | x :: l' => body x ;; mfor l' body
  end.

Definition nodes (g : DiGraph) : gset node := _nodes g.
Definition edges (g : DiGraph) : list (node * node) := _edges g.

(** ** Queries of the adjacency *)

Definition predecessors_iter (g : DiGraph) (n : node) : list node :=
  match _nodes_pred g !! n with
  | None => []
  | Some l => l
  end.

Definition predecessors (g : DiGraph) (n : node) : list node :=
  predecessors_iter g n.

Definition successors_iter (g : DiGraph) (n : node) : list node :=
  match _nodes_succ g !! n with
  | None => []
  | Some l => l
  end.

Definition successors (g : DiGraph) (n : node) : list node :=
  successors_iter g n.

(** ** Mutation *)

Definition add_node (n : node) : M unit := λ g,
  if decide (n ∈ _nodes g) then (Ret tt, g)
  else
    (Ret tt,
     {| _nodes := {[n]} ∪ _nodes g;
        _edges := _edges g;
        _nodes_succ := <[n := []]> (_nodes_succ g);
        _nodes_pred := <[n := []]> (_nodes_pred g) |}).

(** [self._edges.append((src, dst))] *)
Definition edges_append (e : node * node) : M unit := λ g,
  (Ret tt,
   {| _nodes := _nodes g; _edges := _edges g ++ [e];
      _nodes_succ := _nodes_succ g; _nodes_pred := _nodes_pred g |}).

(** [self._nodes_succ[src].append(dst)] *)
Definition succ_append (src dst : node) : M unit := λ g,
  match _nodes_succ g !! src with
  | None => (Raise KeyError, g)
  | Some l =>
      (Ret tt,
       {| _nodes := _nodes g; _edges := _edges g;
          _nodes_succ := <[src := l ++ [dst]]> (_nodes_succ g);
          _nodes_pred := _nodes_pred g |})
  end.

(** [self._nodes_pred[dst].append(src)] *)
Definition pred_append (dst src : node) : M unit := λ g,
  match _nodes_pred g !! dst with
  | None => (Raise KeyError, g)
  | Some l =>
      (Ret tt,
       {| _nodes := _nodes g; _edges := _edges g;
          _nodes_succ := _nodes_succ g;
          _nodes_pred := <[dst := l ++ [src]]> (_nodes_pred g) |})
  end.

Definition add_edge (src dst : node) : M unit :=
  (g ← mget; if decide (src ∈ _nodes g) then mret tt else add_node src) ;;
  (g ← mget; if decide (dst ∈ _nodes g) then mret tt else add_node dst) ;;
  edges_append (src, dst) ;;
  succ_append src dst ;;
  pred_append dst src.

(** Add an edge from [src] to [dst] if it doesn't already exist *)
Definition add_uniq_edge (src dst : node) : M unit :=
  g ← mget;
  match _nodes_succ g !! src with
  | None => add_edge src dst
  | Some l => if decide (dst ∈ l) then mret tt else add_edge src dst
  end.

(** [self._edges.remove((src, dst))] *)
Definition edges_remove (e : node * node) : M unit := λ g,
  match list_remove e (_edges g) with
  | None => (Raise ValueError, g)
  | Some es =>
      (Ret tt,
       {| _nodes := _nodes g; _edges := es;
          _nodes_succ := _nodes_succ g; _nodes_pred := _nodes_pred g |})
  end.

(** [self._nodes_succ[src].remove(dst)] *)
Definition succ_remove (src dst : node) : M unit := λ g,
  match _nodes_succ g !! src with
  | None => (Raise KeyError, g)
  | Some l =>
      match list_remove dst l with
      | None => (Raise ValueError, g)
      | Some l' =>
          (Ret tt,
           {| _nodes := _nodes g; _edges := _edges g;
              _nodes_succ := <[src := l']> (_nodes_succ g);
              _nodes_pred := _nodes_pred g |})
      end
  end.

(** [self._nodes_pred[dst].remove(src)] *)
Definition pred_remove (dst src : node) : M unit := λ g,
  match _nodes_pred g !! dst with
  | None => (Raise KeyError, g)
  | Some l =>
      match list_remove src l with
      | None => (Raise ValueError, g)
      | Some l' =>
          (Ret tt,
           {| _nodes := _nodes g; _edges := _edges g;
              _nodes_succ := _nodes_succ g;
              _nodes_pred := <[dst := l']> (_nodes_pred g) |})
      end
  end.

Definition del_edge (src dst : node) : M unit :=
  edges_remove (src, dst) ;;
  succ_remove src dst ;;
  pred_remove dst src.

(** [self._nodes.remove(node)] under its guard [if node in self._nodes] *)
Definition nodes_discard (n : node) : M unit := λ g,
  if decide (n ∈ _nodes g) then
    (Ret tt,
     {| _nodes := _nodes g ∖ {[n]}; _edges := _edges g;
        _nodes_succ := _nodes_succ g; _nodes_pred := _nodes_pred g |})
  else (Ret tt, g).

(** Delete the [node] of the graph; Also delete every edge to/from this
    [node].  Each of the two lists is taken (a fresh copy) when its loop
    starts. *)
Definition del_node (n : node) : M unit :=
  nodes_discard n ;;
  (g ← mget; mfor (predecessors g n) (λ pred, del_edge pred n)) ;;
  (g ← mget; mfor (successors g n) (λ succ, del_edge n succ)).

(** ** Path enumeration *)

(** [for x in l: acc = body(acc, x)], stopping at the first exception. *)
Fixpoint ofor {A B} (l : list A) (acc : B) (body : B → A → outcome B) : outcome B :=
  match l with
  | [] => Ret acc
  | x :: l' => obind (body acc x) (λ acc', ofor l' acc' body)
  end.

(** [dst in done and done[dst] > cycles_count] *)
Definition over_budget (done : gmap node Z) (dst : node) (cycles_count : Z) : bool :=
  match done !! dst with
  | None => false
  | Some c => bool_decide (cycles_count < c)%Z
  end.

(** [done_n = dict(done); done_n[dst] = done_n.get(dst, 0) + 1] *)
Definition done_incr (done : gmap node Z) (dst : node) : gmap node Z :=
  <[dst := (default 0 (done !! dst) + 1)%Z]> done.

(** [path and path[0] == src] *)
Definition starts_at (src : node) (path : list node) : bool :=
  bool_decide (head path = Some src).

(** [find_path(src, dst, cycles_count, done)]; the caller's [done=None] is
    the empty dictionary. *)
Fixpoint find_path (fuel : nat) (g : DiGraph) (src dst : node)
    (cycles_count : Z) (done : gmap node Z) : outcome (list (list node)) :=
  match fuel with
  | 0 => OutOfFuel
  | S fuel =>
      if over_budget done dst cycles_count then Ret [[]]
      else if decide (src = dst) then Ret [[src]]
      else
        ofor (predecessors g dst) [] (λ out node,
          let done_n := done_incr done dst in
          obind (find_path fuel g src node cycles_count done_n) (λ paths,
            Ret (out ++ ((λ path, path ++ [dst]) <$> filter (λ path, starts_at src path) paths))))
  end.

(** ** Reachability *)

(** The [while todo] loop of [_reachable_nodes]; the result is the list of
    the nodes yielded, in order.  [i] counts the iterations. *)
Fixpoint _reachable_nodes_loop (pop : nat → gset node → node)
    (next_cb : node → list node) (fuel i : nat)
    (todo reachable : gset node) : outcome (list node) :=
  match fuel with
  | 0 => OutOfFuel
  | S fuel =>
      if decide (todo = ∅) then Ret []
      else
        let node := pop i todo in
        let todo := todo ∖ {[node]} in
        if decide (node ∈ reachable) then
          _reachable_nodes_loop pop next_cb fuel (S i) todo reachable
        else
          omap (node ::.)
            (_reachable_nodes_loop pop next_cb fuel (S i)
               (todo ∪ list_to_set (next_cb node)) (reachable ∪ {[node]}))
  end.

(** Generic algorithm to compute every nodes reachable from/to node [head] *)
Definition _reachable_nodes (pop : nat → gset node → node) (fuel : nat)
    (head : node) (next_cb : node → list node) : outcome (list node) :=
  _reachable_nodes_loop pop next_cb fuel 0 {[head]} ∅.

(** Compute every nodes reachable from node [head] *)
Definition reachable_sons (pop : nat → gset node → node) (fuel : nat)
    (g : DiGraph) (head : node) : outcome (list node) :=
  _reachable_nodes pop fuel head (successors_iter g).

(** Compute every parents of node [leaf] *)
Definition reachable_parents (pop : nat → gset node → node) (fuel : nat)
    (g : DiGraph) (leaf : node) : outcome (list node) :=
  _reachable_nodes pop fuel leaf (predecessors_iter g).

(** ** Dominators *)

(** The [for pred in prev_cb(node)] loop: the intersection of the
    dominators of the predecessors inside [nodes]; [None] is Python's
    [None]. *)
Fixpoint inter_preds (nodes : gset node) (dominators : gmap node (gset node))
    (preds : list node) (new_dom : option (gset node)) : outcome (option (gset node)) :=
  match preds with
  | [] => Ret new_dom
  | pred :: preds =>
      if decide (pred ∈ nodes) then
        match dominators !! pred with
        | None => Raise KeyError
        | Some d =>
            let new_dom := match new_dom with None => d | Some s => s end in
            inter_preds nodes dominators preds (Some (new_dom ∩ d))
        end
      else inter_preds nodes dominators preds new_dom
  end.

(** The [while todo] loop of [_compute_generic_dominators]. *)
Fixpoint dominators_loop (pop : nat → gset node → node) (head : node)
    (nodes : gset node) (prev_cb next_cb : node → list node) (fuel i : nat)
    (dominators : gmap node (gset node)) (todo : gset node)
    : outcome (gmap node (gset node)) :=
  match fuel with
  | 0 => OutOfFuel
  | S fuel =>
      if decide (todo = ∅) then Ret dominators
      else
        let node := pop i todo in
        let todo := todo ∖ {[node]} in
        (* Heads state must not be changed *)
        if decide (node = head) then
          dominators_loop pop head nodes prev_cb next_cb fuel (S i) dominators todo
        else
          (* Compute intersection of all predecessors'dominators *)
          obind (inter_preds nodes dominators (prev_cb node) None) (λ new_dom,
            match new_dom with
            | None => Raise AssertionError
            | Some new_dom =>
                let new_dom := new_dom ∪ {[node]} in
                match dominators !! node with
                | None => Raise KeyError
                | Some d =>
                    (* If intersection has changed, add sons to the todo list *)
                    if decide (new_dom = d) then
                      dominators_loop pop head nodes prev_cb next_cb fuel (S i)
                        dominators todo
                    else
                      dominators_loop pop head nodes prev_cb next_cb fuel (S i)
                        (<[node := new_dom]> dominators)
                        (todo ∪ list_to_set (next_cb node))
                end
            end)
  end.

(** Generic algorithm to compute either the dominators or postdominators of
    the graph. *)
Definition _compute_generic_dominators (pop : nat → gset node → node)
    (fuel : nat) (head : node) (reachable_cb : node → outcome (list node))
    (prev_cb next_cb : node → list node) : outcome (gmap node (gset node)) :=
  obind (reachable_cb head) (λ l,
    let nodes : gset node := list_to_set l in
    let dominators := <[head := {[head]}]> (gset_to_gmap nodes nodes) in
    dominators_loop pop head nodes prev_cb next_cb fuel 0 dominators nodes).

(** Compute the dominators of the graph.  [pop_r] serves the set of
    [_reachable_nodes], [pop_d] the one of the fixed point. *)
Definition compute_dominators (pop_r pop_d : nat → gset node → node)
    (fuel : nat) (g : DiGraph) (head : node) : outcome (gmap node (gset node)) :=
  _compute_generic_dominators pop_d fuel head
    (reachable_sons pop_r fuel g) (predecessors_iter g) (successors_iter g).

(** Compute the postdominators of the graph *)
Definition compute_postdominators (pop_r pop_d : nat → gset node → node)
    (fuel : nat) (g : DiGraph) (leaf : node) : outcome (gmap node (gset node)) :=
  _compute_generic_dominators pop_d fuel leaf
    (reachable_parents pop_r fuel g) (successors_iter g) (predecessors_iter g).

(** ** Graphs built through the mutation interface *)

Inductive call : Type :=
| AddNode (n : node)
| DelNode (n : node)
| AddEdge (src dst : node)
| AddUniqEdge (src dst : node)
| DelEdge (src dst : node).

Definition run (c : call) : M unit :=
  match c with
  | AddNode n => add_node n
  | DelNode n => del_node n
  | AddEdge src dst => add_edge src dst
  | AddUniqEdge src dst => add_uniq_edge src dst
  | DelEdge src dst => del_edge src dst
  end.

(** The graphs a client can hold: the empty one, and the state left by any
    call on such a graph, whether it returned or raised. *)
Inductive built : DiGraph → Prop :=
| built_init : built init
| built_call g c : built g → built (run c g).2.

Definition build (cs : list call) : DiGraph :=
  foldl (λ g c, (run c g).2) init cs.

(** ** Notions of the specification *)

(** [(a, b)] is an edge. *)
Definition edge_rel (g : DiGraph) (a b : node) : Prop := (a, b) ∈ edges g.

(** A path from [a] to [b]: it starts at [a], ends at [b]; [[a]] is the
    path from [a] to itself. *)
Definition path_rel (R : node → node → Prop) (a b : node) (p : list node) : Prop :=
  head p = Some a ∧ last p = Some b ∧ chain R p.

(** [d] dominates [n]: every path from the start node [h] to [n] passes
    through [d]. *)
Definition dom_rel (R : node → node → Prop) (h d n : node) : Prop :=
  ∀ p, path_rel R h n p → d ∈ p.

(** The same on the edges of a graph. *)
Definition is_path (g : DiGraph) (p : list node) : Prop := chain (edge_rel g) p.

Definition path_from_to (g : DiGraph) (src dst : node) (p : list node) : Prop :=
  path_rel (edge_rel g) src dst p.

(** [n] is reachable from [h]: there is a path, [h] alone when [n = h]. *)
Definition reachable_from (g : DiGraph) (h n : node) : Prop :=
  ∃ p, path_from_to g h n p.

Definition dominates (g : DiGraph) (h d n : node) : Prop :=
  dom_rel (edge_rel g) h d n.

(** Towards a leaf [l]: [n] reaches [l], and [d] postdominates [n] if every
    path from [n] to [l] passes through [d]. *)
Definition coreachable_from (g : DiGraph) (l n : node) : Prop :=
  ∃ p, path_from_to g n l p.

Definition postdominates (g : DiGraph) (l d n : node) : Prop :=
  ∀ p, path_from_to g n l p → d ∈ p.

(** How many more times [find_path] can go past its budget test at [n]. *)
Definition budget_left (cycles_count : Z) (done : gmap node Z) (n : node) : nat :=
  match done !! n with
  | None => S (Z.to_nat cycles_count)
  | Some c => Z.to_nat (cycles_count + 1 - c)
  end.

(** The recursion of [find_path(src, ., cycles_count, .)]: the call on
    [(dst, done)] makes the call on [(node, done_n)] when it passes the
    budget test and the test [src == dst], and [node] is a predecessor of
    [dst].  A branch is a sequence of calls, each made by the one before. *)
Definition find_path_call (g : DiGraph) (src : node) (cycles_count : Z)
    (fr fr' : node * gmap node Z) : Prop :=
  over_budget fr.2 fr.1 cycles_count = false ∧ src ≠ fr.1 ∧
  fr'.1 ∈ predecessors g fr.1 ∧ fr'.2 = done_incr fr.2 fr.1.

Definition find_path_branch (g : DiGraph) (src dst : node) (cycles_count : Z)
    (frames : list (node * gmap node Z)) : Prop :=
  head frames = Some (dst, ∅) ∧ chain (find_path_call g src cycles_count) frames.

(** How many times [n] occurs in a path. *)
Definition occurrences (n : node) (p : list node) : nat :=
  length (filter (λ m, m = n) p).

(** How many times the path [p] occurs in a list of paths. *)
Definition copies (p : list node) (paths : list (list node)) : nat :=
  length (filter (λ q, q = p) paths).

(** How many times [(a, b)] is in the edge list: one for a plain edge, more
    for parallel edges. *)
Definition edge_count (g : DiGraph) (a b : node) : nat :=
  length (filter (λ e, e = (a, b)) (edges g)).

(** The number of ways to walk along [p], choosing at each step one of the
    parallel edges that join the two nodes. *)
Fixpoint path_weight (g : DiGraph) (p : list node) : nat :=
  match p with
  | a :: (b :: _) as p' => edge_count g a b * path_weight g p'
  | _ => 1
  end.

(** The calls on [n] in a branch. *)
Definition visits (n : node) (frames : list (node * gmap node Z)) : nat :=
  length (filter (λ fr, fr.1 = n) frames).

(** The pairs [(n, d)] with [d] in the set recorded for [n]: their number
    goes down at every update of the fixed point. *)
Definition dom_pairs (dominators : gmap node (gset node)) : gset (node * node) :=
  list_to_set (map_to_list dominators ≫= λ ns, (λ d, (ns.1, d)) <$> elements ns.2).

(** The update rule of the fixed point: [d] is [n], or is in the set of
    every predecessor of [n] inside [nodes]. *)
Definition dom_rule (nodes : gset node) (prev_cb : node → list node)
    (dominators : gmap node (gset node)) (n d : node) : Prop :=
  d = n ∨
  ∀ p sp, p ∈ prev_cb n → p ∈ nodes → dominators !! p = Some sp → d ∈ sp.

(** The invariant of the [while todo] loop of [_compute_generic_dominators]:
    every node of [nodes] has a set, within [nodes]; the set of [head] is
    [{head}]; the sets contain the dominators; applying the update rule to a
    node can only shrink its set; and the rule leaves the set of a node
    outside [todo] as it is. *)
Record dom_inv (R : node → node → Prop) (head : node) (nodes : gset node)
    (prev_cb : node → list node)
    (dominators : gmap node (gset node)) (todo : gset node) : Prop := {
  dom_inv_dom : dom dominators = nodes;
  dom_inv_head : dominators !! head = Some {[head]};
  dom_inv_within : ∀ n s, dominators !! n = Some s → s ⊆ nodes;
  dom_inv_above : ∀ n s d, dominators !! n = Some s → dom_rel R head d n → d ∈ s;
  dom_inv_shrink : ∀ n s d, n ≠ head → dominators !! n = Some s →
    dom_rule nodes prev_cb dominators n d → d ∈ s;
  dom_inv_stable : ∀ n s d, n ≠ head → n ∉ todo → dominators !! n = Some s →
    d ∈ s → dom_rule nodes prev_cb dominators n d;
  dom_inv_todo : todo ⊆ nodes;
}.

(** [g'] is [g] with every edge reversed. *)
Definition reversed (g g' : DiGraph) : Prop :=
  ∀ a b, (a, b) ∈ edges g' ↔ (b, a) ∈ edges g.

(** The relation a neighbour callback stands for. *)
Definition next_rel (next_cb : node → list node) (a b : node) : Prop :=
  b ∈ next_cb a.

(** The nodes that occur in the lists of an adjacency index. *)
Definition range_nodes (m : gmap node (list node)) : gset node :=
  ⋃ (list_to_set <$> (map_to_list m).*2).

(** A valid [set.pop()]: it answers with a member of a non-empty set. *)
Definition pops (pop : nat → gset node → node) : Prop :=
  ∀ i (s : gset node), s ≠ ∅ → pop i s ∈ s.

(** The adjacency indices list the edges, in the order of the edge list. *)
Definition succ_of_edges (es : list (node * node)) (a : node) : list node :=
  snd <$> filter (λ e, e.1 = a) es.
Definition pred_of_edges (es : list (node * node)) (b : node) : list node :=
  fst <$> filter (λ e, e.2 = b) es.

Definition sync (g : DiGraph) : Prop :=
  (∀ a, successors g a = succ_of_edges (edges g) a) ∧
  (∀ b, predecessors g b = pred_of_edges (edges g) b).

Record wf (g : DiGraph) : Prop := {
  wf_sync : sync g;
  wf_keys_succ : ∀ n, n ∈ nodes g → is_Some (_nodes_succ g !! n);
  wf_keys_pred : ∀ n, n ∈ nodes g → is_Some (_nodes_pred g !! n);
  wf_endpoints : ∀ a b, (a, b) ∈ edges g → a ∈ nodes g ∧ b ∈ nodes g;
}.

(** ** Leaves and heads *)

(** [for node in self._nodes] visits the nodes in an order the set decides:
    the loops over [_nodes] take the order [iter] gives.  A valid order
    lists the members of the set, each once. *)
Definition iterates (iter : gset node → list node) : Prop :=
  ∀ s : gset node, NoDup (iter s) ∧ ∀ x, x ∈ iter s ↔ x ∈ s.

(** The loop of [leaves_iter] over the nodes [l] still to visit; the result
    is the list of the nodes yielded, or the [KeyError] of
    [self._nodes_succ[node]]. *)
Fixpoint leaves_loop (g : DiGraph) (l : list node) : outcome (list node) :=
  match l with
  | [] => Ret []
  | node :: l' =>
      match _nodes_succ g !! node with
      | None => Raise KeyError
      | Some [] => omap (node ::.) (leaves_loop g l')
      | Some (_ :: _) => leaves_loop g l'
      end
  end.

Definition leaves_iter (iter : gset node → list node) (g : DiGraph)
    : outcome (list node) :=
  leaves_loop g (iter (_nodes g)).

Definition leaves (iter : gset node → list node) (g : DiGraph)
    : outcome (list node) :=
  leaves_iter iter g.

Fixpoint heads_loop (g : DiGraph) (l : list node) : outcome (list node) :=
  match l with
  | [] => Ret []
  | node :: l' =>
      match _nodes_pred g !! node with
      | None => Raise KeyError
      | Some [] => omap (node ::.) (heads_loop g l')
      | Some (_ :: _) => heads_loop g l'
      end
  end.

Definition heads_iter (iter : gset node → list node) (g : DiGraph)
    : outcome (list node) :=
  heads_loop g (iter (_nodes g)).

Definition heads (iter : gset node → list node) (g : DiGraph)
    : outcome (list node) :=
  heads_iter iter g.

(** The calls other than [add_edge]. *)
Definition keeps_uniq (c : call) : Prop :=
  match c with
  | AddEdge _ _ => False
  | _ => True
  end.

End DiGraph.

Arguments DiGraph node {_ _}.
Arguments call node : clear implicits.

(** ** A concrete instance: nodes are numbers, [pop] takes the least or the
    greatest member *)

Definition pop_min (i : nat) (s : gset nat) : nat :=
  foldr Nat.min (default 0 (head (elements s))) (elements s).
Definition pop_max (i : nat) (s : gset nat) : nat :=
  foldr Nat.max 0 (elements s).

(** Example graphs. *)

(** Two edges leave [0] and two enter [1]. *)
Definition graph_fan : DiGraph nat :=
  build [AddEdge 0 1; AddEdge 0 2; AddEdge 3 1].

(** Parallel edges [0 -> 1], a self-loop at [1], and an edge [1 -> 2]. *)
Definition graph_loop : DiGraph nat :=
  build [AddEdge 0 1; AddEdge 1 1; AddEdge 0 1; AddEdge 1 2].

(** Two parallel edges [0 -> 1]. *)
Definition graph_parallel : DiGraph nat := build [AddEdge 0 1; AddEdge 0 1].

(** The chain [0 -> 1 -> 2 -> 3]. *)
Definition graph_chain : DiGraph nat :=
  build [AddEdge 0 1; AddEdge 1 2; AddEdge 2 3].

(** The diamond [0 -> 1 -> 3], [0 -> 2 -> 3] and its reversal. *)
Definition graph_diamond : DiGraph nat :=
  build [AddEdge 0 1; AddEdge 0 2; AddEdge 1 3; AddEdge 2 3].
Definition graph_diamond_rev : DiGraph nat :=
  build [AddEdge 3 2; AddEdge 3 1; AddEdge 2 0; AddEdge 1 0].

(** * Properties *)

(** ** [list.remove] *)

Section list_remove.
Context {A : Type} `{EqDecision A}.
Implicit Types (x y : A) (l : list A).

Lemma list_remove_None x l : list_remove x l = None ↔ x ∉ l.
Proof.
  induction l as [|y l IH]; simpl.
  - split; [intros _; apply not_elem_of_nil | done].
  - destruct (decide (x = y)) as [->|Hne].
    + split; [done | intros Hn; destruct Hn; left].
    + rewrite fmap_None, IH, not_elem_of_cons. naive_solver.
Qed.

Lemma list_remove_is_Some x l : is_Some (list_remove x l) ↔ x ∈ l.
Proof.
  rewrite <-not_eq_None_Some, list_remove_None.
  destruct (decide (x ∈ l)); naive_solver.
Qed.

Lemma list_remove_Some x l l' :
  list_remove x l = Some l' ↔
  ∃ l1 l2, l = l1 ++ x :: l2 ∧ l' = l1 ++ l2 ∧ x ∉ l1.
Proof.
  revert l'. induction l as [|y l IH]; intros l'; simpl.
  - split; [done | intros (l1 & l2 & Hl & _); by destruct l1].
  - destruct (decide (x = y)) as [->|Hne].
    + split.
      * intros [= <-]. exists [], l. split_and!; [done..|apply not_elem_of_nil].
      * intros (l1 & l2 & Hl & -> & Hn). destruct l1 as [|z l1]; simpl in *.
        { by injection Hl as ->. }
        injection Hl as -> ->. destruct Hn; left.
    + rewrite fmap_Some. split.
      * intros (l0 & (l1 & l2 & -> & -> & Hn)%IH & ->).
        exists (y :: l1), l2. split_and!; [done..|].
        rewrite not_elem_of_cons. done.
      * intros (l1 & l2 & Hl & -> & Hn). destruct l1 as [|z l1]; simpl in *.
        { injection Hl as -> ->. done. }
        injection Hl as -> ->. exists (l1 ++ l2). split; [|done].
        apply IH. exists l1, l2. rewrite not_elem_of_cons in Hn. naive_solver.
Qed.

Lemma list_remove_Permutation x l l' :
  list_remove x l = Some l' → l ≡ₚ x :: l'.
Proof.
  intros (l1 & l2 & -> & -> & _)%list_remove_Some.
  by rewrite Permutation_middle.
Qed.

Lemma list_remove_app_fresh x l : x ∉ l → list_remove x (l ++ [x]) = Some l.
Proof.
  intros Hn. apply list_remove_Some. exists l, [].
  by rewrite app_nil_r.
Qed.

Lemma list_remove_app_Permutation x l l' :
  list_remove x (l ++ [x]) = Some l' → l' ≡ₚ l.
Proof.
  intros Hr%list_remove_Permutation.
  rewrite <-Permutation_cons_append in Hr. by apply Permutation_cons_inv in Hr.
Qed.

Lemma list_remove_elem_of x y l l' :
  list_remove x l = Some l' → y ∈ l' → y ∈ l.
Proof.
  intros (l1 & l2 & -> & -> & _)%list_remove_Some.
  rewrite !elem_of_app, elem_of_cons. naive_solver.
Qed.

End list_remove.

(** ** The adjacency indices follow the edge list *)

Section adjacency.
Context {node : Type} `{Countable node}.
Implicit Types (g : DiGraph node) (a b n src dst : node).
Implicit Types (es : list (node * node)).

Lemma succ_of_edges_app es1 es2 a :
  succ_of_edges (es1 ++ es2) a = succ_of_edges es1 a ++ succ_of_edges es2 a.
Proof. unfold succ_of_edges. by rewrite filter_app, fmap_app. Qed.

Lemma pred_of_edges_app es1 es2 b :
  pred_of_edges (es1 ++ es2) b = pred_of_edges es1 b ++ pred_of_edges es2 b.
Proof. unfold pred_of_edges. by rewrite filter_app, fmap_app. Qed.

Lemma succ_of_edges_cons a' b' es a :
  succ_of_edges ((a', b') :: es) a =
  if decide (a' = a) then b' :: succ_of_edges es a else succ_of_edges es a.
Proof.
  unfold succ_of_edges. rewrite filter_cons. simpl.
  destruct (decide (a' = a)); done.
Qed.

Lemma pred_of_edges_cons a' b' es b :
  pred_of_edges ((a', b') :: es) b =
  if decide (b' = b) then a' :: pred_of_edges es b else pred_of_edges es b.
Proof.
  unfold pred_of_edges. rewrite filter_cons. simpl.
  destruct (decide (b' = b)); done.
Qed.

Lemma elem_of_succ_of_edges es a b : b ∈ succ_of_edges es a ↔ (a, b) ∈ es.
Proof.
  unfold succ_of_edges. rewrite list_elem_of_fmap. split.
  - intros ([a' b'] & -> & [Ha ?]%list_elem_of_filter). simpl in *. by subst.
  - intros He. exists (a, b). split; [done|]. by apply list_elem_of_filter.
Qed.

Lemma elem_of_pred_of_edges es a b : a ∈ pred_of_edges es b ↔ (a, b) ∈ es.
Proof.
  unfold pred_of_edges. rewrite list_elem_of_fmap. split.
  - intros ([a' b'] & -> & [Ha ?]%list_elem_of_filter). simpl in *. by subst.
  - intros He. exists (a, b). split; [done|]. by apply list_elem_of_filter.
Qed.

Lemma succ_of_edges_remove es es' a b :
  list_remove (a, b) es = Some es' →
  list_remove b (succ_of_edges es a) = Some (succ_of_edges es' a) ∧
  (∀ a', a' ≠ a → succ_of_edges es' a' = succ_of_edges es a') ∧
  (∀ b', b' ≠ b → pred_of_edges es' b' = pred_of_edges es b') ∧
  list_remove a (pred_of_edges es b) = Some (pred_of_edges es' b).
Proof.
  intros (l1 & l2 & -> & -> & Hn)%list_remove_Some. split_and!.
  - apply list_remove_Some.
    exists (succ_of_edges l1 a), (succ_of_edges l2 a).
    rewrite !succ_of_edges_app, succ_of_edges_cons, decide_True by done.
    by rewrite elem_of_succ_of_edges.
  - intros a' Hne.
    by rewrite !succ_of_edges_app, succ_of_edges_cons, decide_False.
  - intros b' Hne.
    by rewrite !pred_of_edges_app, pred_of_edges_cons, decide_False.
  - apply list_remove_Some.
    exists (pred_of_edges l1 b), (pred_of_edges l2 b).
    rewrite !pred_of_edges_app, pred_of_edges_cons, decide_True by done.
    by rewrite elem_of_pred_of_edges.
Qed.

Lemma successors_insert ns es s p k l a :
  successors (mkDiGraph ns es (<[k := l]> s) p) a =
  if decide (a = k) then l else successors (mkDiGraph ns es s p) a.
Proof.
  unfold successors, successors_iter. simpl.
  destruct (decide (a = k)) as [->|Hne].
  - by rewrite lookup_insert_eq.
  - by rewrite lookup_insert_ne.
Qed.

Lemma predecessors_insert ns es s p k l a :
  predecessors (mkDiGraph ns es s (<[k := l]> p)) a =
  if decide (a = k) then l else predecessors (mkDiGraph ns es s p) a.
Proof.
  unfold predecessors, predecessors_iter. simpl.
  destruct (decide (a = k)) as [->|Hne].
  - by rewrite lookup_insert_eq.
  - by rewrite lookup_insert_ne.
Qed.

Lemma successors_Some g a l : _nodes_succ g !! a = Some l → successors g a = l.
Proof. unfold successors, successors_iter. by intros ->. Qed.

Lemma predecessors_Some g a l : _nodes_pred g !! a = Some l → predecessors g a = l.
Proof. unfold predecessors, predecessors_iter. by intros ->. Qed.

Lemma successors_elem_lookup g a b :
  b ∈ successors g a → ∃ l, _nodes_succ g !! a = Some l ∧ b ∈ l.
Proof.
  unfold successors, successors_iter.
  destruct (_nodes_succ g !! a) as [l|]; [eauto|]. by intros ?%elem_of_nil.
Qed.

Lemma predecessors_elem_lookup g a b :
  a ∈ predecessors g b → ∃ l, _nodes_pred g !! b = Some l ∧ a ∈ l.
Proof.
  unfold predecessors, predecessors_iter.
  destruct (_nodes_pred g !! b) as [l|]; [eauto|]. by intros ?%elem_of_nil.
Qed.

Lemma sync_successors g a b : sync g → b ∈ successors g a ↔ (a, b) ∈ edges g.
Proof. intros [Hs _]. by rewrite Hs, elem_of_succ_of_edges. Qed.

Lemma sync_predecessors g a b : sync g → a ∈ predecessors g b ↔ (a, b) ∈ edges g.
Proof. intros [_ Hp]. by rewrite Hp, elem_of_pred_of_edges. Qed.

(** *** [del_edge] *)

Lemma del_edge_absent g src dst :
  (src, dst) ∉ edges g → del_edge src dst g = (Raise ValueError, g).
Proof.
  intros Hn%list_remove_None. unfold del_edge, mbind, M_bind, edges_remove.
  unfold edges in Hn. by rewrite Hn.
Qed.

Lemma del_edge_present g src dst es :
  sync g → list_remove (src, dst) (edges g) = Some es →
  ∃ ls lp,
    _nodes_succ g !! src = Some (successors g src) ∧
    _nodes_pred g !! dst = Some (predecessors g dst) ∧
    list_remove dst (successors g src) = Some ls ∧
    list_remove src (predecessors g dst) = Some lp ∧
    del_edge src dst g =
      (Ret tt, mkDiGraph (_nodes g) es (<[src := ls]> (_nodes_succ g))
                 (<[dst := lp]> (_nodes_pred g))).
Proof.
  intros Hsync Hrem.
  destruct (succ_of_edges_remove _ _ _ _ Hrem) as (Hs & _ & _ & Hp).
  destruct Hsync as [Hsucc Hpred].
  rewrite <-Hsucc in Hs. rewrite <-Hpred in Hp.
  assert ((src, dst) ∈ edges g) as Hin.
  { apply list_remove_is_Some. eauto. }
  destruct (successors_elem_lookup g src dst) as (l & Hl & _).
  { rewrite Hsucc. by apply elem_of_succ_of_edges. }
  destruct (predecessors_elem_lookup g src dst) as (l' & Hl' & _).
  { rewrite Hpred. by apply elem_of_pred_of_edges. }
  rewrite (successors_Some _ _ _ Hl) in Hs |- *.
  rewrite (predecessors_Some _ _ _ Hl') in Hp |- *.
  eexists _, _. split_and!; [done..|].
  unfold del_edge, mbind, M_bind, edges_remove, succ_remove, pred_remove.
  unfold edges in Hrem. rewrite Hrem. simpl. rewrite Hl, Hs. simpl.
  by rewrite Hl', Hp.
Qed.

Lemma del_edge_sync g src dst g' :
  sync g → del_edge src dst g = (Ret tt, g') →
  sync g' ∧ list_remove (src, dst) (edges g) = Some (edges g') ∧
  nodes g' = nodes g ∧
  dom (_nodes_succ g') = dom (_nodes_succ g) ∧
  dom (_nodes_pred g') = dom (_nodes_pred g).
Proof.
  intros Hsync Hrun.
  destruct (list_remove (src, dst) (edges g)) as [es|] eqn:Hrem; last first.
  { apply list_remove_None in Hrem. rewrite del_edge_absent in Hrun by done.
    discriminate. }
  destruct (del_edge_present g src dst es Hsync Hrem)
    as (ls & lp & Hks & Hkp & Hls & Hlp & Hrun').
  rewrite Hrun' in Hrun. injection Hrun as <-.
  destruct (succ_of_edges_remove _ _ _ _ Hrem) as (Hs & Hs' & Hp' & Hp).
  destruct Hsync as [Hsucc Hpred].
  rewrite <-Hsucc in Hs. rewrite <-Hpred in Hp.
  split_and!; try done.
  - split.
    + intros a. unfold edges. simpl. destruct g as [ns es0 s p]. simpl in *.
      unfold successors, successors_iter. simpl.
      destruct (decide (a = src)) as [->|Hne].
      * rewrite lookup_insert_eq. congruence.
      * rewrite lookup_insert_ne by done. rewrite Hs' by done. apply Hsucc.
    + intros b. unfold edges. simpl. destruct g as [ns es0 s p]. simpl in *.
      unfold predecessors, predecessors_iter. simpl.
      destruct (decide (b = dst)) as [->|Hne].
      * rewrite lookup_insert_eq. congruence.
      * rewrite lookup_insert_ne by done. rewrite Hp' by done. apply Hpred.
  - simpl. rewrite dom_insert_L.
    assert (src ∈ dom (_nodes_succ g)) by (apply elem_of_dom; eauto).
    set_solver.
  - simpl. rewrite dom_insert_L.
    assert (dst ∈ dom (_nodes_pred g)) by (apply elem_of_dom; eauto).
    set_solver.
Qed.

End adjacency.

(** ** Well-formedness is kept by every call *)

Section mutation.
Context {node : Type} `{Countable node}.
Implicit Types (g : DiGraph node) (a b n src dst : node).
Implicit Types (es : list (node * node)).

Lemma succ_of_edges_nil es a : (∀ b, (a, b) ∉ es) → succ_of_edges es a = [].
Proof.
  intros Hn. destruct (succ_of_edges es a) as [|b l] eqn:E; [done|].
  destruct (Hn b). apply elem_of_succ_of_edges. rewrite E. left.
Qed.

Lemma pred_of_edges_nil es b : (∀ a, (a, b) ∉ es) → pred_of_edges es b = [].
Proof.
  intros Hn. destruct (pred_of_edges es b) as [|a l] eqn:E; [done|].
  destruct (Hn a). apply elem_of_pred_of_edges. rewrite E. left.
Qed.

Lemma wf_init : wf (init (node := node)).
Proof.
  split.
  - split; intros a; reflexivity.
  - intros n Hn. unfold nodes in Hn. simpl in Hn. set_solver.
  - intros n Hn. unfold nodes in Hn. simpl in Hn. set_solver.
  - intros a b Hn. unfold edges in Hn. simpl in Hn. by apply elem_of_nil in Hn.
Qed.

Lemma add_node_present g n : n ∈ nodes g → add_node n g = (Ret tt, g).
Proof. intros Hn. unfold add_node. by rewrite decide_True. Qed.

Lemma add_node_absent g n :
  n ∉ nodes g →
  add_node n g =
    (Ret tt, mkDiGraph ({[n]} ∪ _nodes g) (_edges g)
               (<[n := []]> (_nodes_succ g)) (<[n := []]> (_nodes_pred g))).
Proof. intros Hn. unfold add_node. by rewrite decide_False. Qed.

Lemma add_node_spec g n :
  wf g →
  ∃ g', add_node n g = (Ret tt, g') ∧ wf g' ∧ edges g' = edges g ∧
        nodes g' = {[n]} ∪ nodes g.
Proof.
  intros Hwf. destruct (decide (n ∈ nodes g)) as [Hin|Hnin].
  { exists g. rewrite add_node_present by done. split_and!; [done..|].
    set_solver. }
  rewrite add_node_absent by done. eexists. split; [done|].
  destruct Hwf as [[Hs Hp] Hks Hkp He].
  assert (succ_of_edges (edges g) n = []) as Hsn.
  { apply succ_of_edges_nil. intros b Hb. by apply He in Hb as [? ?]. }
  assert (pred_of_edges (edges g) n = []) as Hpn.
  { apply pred_of_edges_nil. intros a Ha. by apply He in Ha as [? ?]. }
  split_and!; [|done..]. split.
  - split; intros a; unfold edges; simpl.
    + rewrite successors_insert. destruct (decide (a = n)) as [->|?]; [done|].
      destruct g; apply Hs.
    + rewrite predecessors_insert. destruct (decide (a = n)) as [->|?]; [done|].
      destruct g; apply Hp.
  - intros a. unfold nodes. simpl. rewrite lookup_insert.
    destruct (decide (n = a)); [eauto|]. intros Ha. apply Hks. set_solver.
  - intros a. unfold nodes. simpl. rewrite lookup_insert.
    destruct (decide (n = a)); [eauto|]. intros Ha. apply Hkp. set_solver.
  - intros a b Hab. apply He in Hab. unfold nodes in *. simpl. set_solver.
Qed.

Lemma add_edge_spec g src dst :
  wf g →
  ∃ g', add_edge src dst g = (Ret tt, g') ∧ wf g' ∧
        edges g' = edges g ++ [(src, dst)] ∧
        nodes g' = {[src; dst]} ∪ nodes g.
Proof.
  intros Hwf.
  destruct (add_node_spec g src Hwf) as (g1 & Hr1 & Hwf1 & He1 & Hn1).
  destruct (add_node_spec g1 dst Hwf1) as (g2 & Hr2 & Hwf2 & He2 & Hn2).
  assert (add_edge src dst g =
    (edges_append (src, dst) ;; succ_append src dst ;; pred_append dst src) g2)
    as ->.
  { unfold add_edge. unfold mbind, M_bind, mget. simpl.
    assert ((if decide (src ∈ _nodes g) then mret () else add_node src) g
            = (Ret tt, g1)) as ->.
    { destruct (decide (src ∈ _nodes g)) as [Hin|Hnin]; [|done].
      rewrite add_node_present in Hr1 by done. done. }
    assert ((if decide (dst ∈ _nodes g1) then mret () else add_node dst) g1
            = (Ret tt, g2)) as ->.
    { destruct (decide (dst ∈ _nodes g1)) as [Hin|Hnin]; [|done].
      rewrite add_node_present in Hr2 by done. done. }
    done. }
  destruct Hwf2 as [[Hs Hp] Hks Hkp He].
  destruct (Hks src) as [ls Hls]; [rewrite Hn2, Hn1; set_solver|].
  destruct (Hkp dst) as [lp Hlp]; [rewrite Hn2; set_solver|].
  unfold mbind, M_bind, edges_append, succ_append, pred_append. simpl.
  rewrite Hls. simpl. rewrite Hlp. eexists. split; [done|].
  split_and!.
  - split.
    + split; intros a; unfold edges; simpl.
      * rewrite successors_insert, succ_of_edges_app, succ_of_edges_cons.
        specialize (Hs a). unfold successors, successors_iter, edges in *.
        simpl in *. rewrite <-Hs.
        destruct (decide (a = src)) as [->|Hne].
        -- rewrite decide_True by done. by rewrite Hls.
        -- rewrite decide_False by done. by rewrite app_nil_r.
      * rewrite predecessors_insert, pred_of_edges_app, pred_of_edges_cons.
        specialize (Hp a). unfold predecessors, predecessors_iter, edges in *.
        simpl in *. rewrite <-Hp.
        destruct (decide (a = dst)) as [->|Hne].
        -- rewrite decide_True by done. by rewrite Hlp.
        -- rewrite decide_False by done. by rewrite app_nil_r.
    + intros a Ha. unfold nodes in Ha. simpl in *. rewrite lookup_insert.
      destruct (decide (src = a)); [eauto|]. by apply Hks.
    + intros a Ha. unfold nodes in Ha. simpl in *. rewrite lookup_insert.
      destruct (decide (dst = a)); [eauto|]. by apply Hkp.
    + intros a b. unfold edges, nodes. simpl. rewrite elem_of_app.
      intros [Hab|Hab%list_elem_of_singleton].
      * by apply He.
      * injection Hab as -> ->. unfold nodes in Hn1, Hn2.
        rewrite Hn2, Hn1. set_solver.
  - unfold edges in *. simpl. by rewrite He2, He1.
  - unfold nodes in *. simpl. rewrite Hn2, Hn1. set_solver.
Qed.

Lemma add_uniq_edge_spec g src dst :
  wf g →
  ∃ g', add_uniq_edge src dst g = (Ret tt, g') ∧ wf g' ∧
        (g' = g ∨ add_edge src dst g = (Ret tt, g')).
Proof.
  intros Hwf. unfold add_uniq_edge, mbind, M_bind, mget. simpl.
  destruct (add_edge_spec g src dst Hwf) as (g' & Hr & Hwf' & _).
  destruct (_nodes_succ g !! src) as [l|].
  - destruct (decide (dst ∈ l)).
    + exists g. eauto.
    + exists g'. eauto.
  - exists g'. eauto.
Qed.

Lemma del_edge_wf g src dst :
  wf g → wf (del_edge src dst g).2.
Proof.
  intros Hwf.
  destruct (list_remove (src, dst) (edges g)) as [es|] eqn:Hrem; last first.
  { apply list_remove_None in Hrem. by rewrite del_edge_absent. }
  destruct (del_edge_present g src dst es (wf_sync _ Hwf) Hrem)
    as (ls & lp & _ & _ & _ & _ & Hrun).
  destruct (del_edge_sync g src dst _ (wf_sync _ Hwf) Hrun)
    as (Hsync & Hes & Hns & Hds & Hdp).
  rewrite Hrun. simpl in *. destruct Hwf as [_ Hks Hkp He]. split.
  - done.
  - intros n Hn. apply elem_of_dom. simpl. rewrite Hds. apply elem_of_dom.
    by apply Hks.
  - intros n Hn. apply elem_of_dom. simpl. rewrite Hdp. apply elem_of_dom.
    by apply Hkp.
  - intros a b Hab. apply He. eapply list_remove_elem_of; [exact Hrem|done].
Qed.

(** *** The two loops of [del_node] *)

Lemma filter_all {A} (P : A → Prop) `{∀ x, Decision (P x)} (l : list A) :
  (∀ x, x ∈ l → P x) → filter P l = l.
Proof.
  induction l as [|x l IH]; intros HP; [done|].
  rewrite filter_cons_True by (apply HP; left).
  f_equal. apply IH. intros y Hy. apply HP. by right.
Qed.

Lemma filter_remove_other (P : node * node → Prop) `{∀ e, Decision (P e)}
    (e : node * node) es es' :
  list_remove e es = Some es' → ¬ P e → filter P es' = filter P es.
Proof.
  intros (l1 & l2 & -> & -> & _)%list_remove_Some HnP.
  by rewrite !filter_app, filter_cons_False.
Qed.

Lemma del_node_preds_loop n l g :
  sync g → predecessors g n = l →
  ∃ g', mfor l (λ pred, del_edge pred n) g = (Ret tt, g') ∧
        sync g' ∧ nodes g' = nodes g ∧
        dom (_nodes_succ g') = dom (_nodes_succ g) ∧
        dom (_nodes_pred g') = dom (_nodes_pred g) ∧
        edges g' = filter (λ e, e.2 ≠ n) (edges g).
Proof.
  revert g. induction l as [|p l IH]; intros g Hsync Hl.
  - exists g. split_and!; try done.
    symmetry. apply filter_all. intros [a b] Hab. simpl. intros ->.
    apply (sync_predecessors _ _ _ Hsync) in Hab. rewrite Hl in Hab.
    by apply elem_of_nil in Hab.
  - assert ((p, n) ∈ edges g) as Hin.
    { apply (sync_predecessors _ _ _ Hsync). rewrite Hl. left. }
    apply list_remove_is_Some in Hin as [es Hrem].
    destruct (del_edge_present g p n es Hsync Hrem)
      as (ls & lp & _ & _ & _ & Hlp & Hrun).
    destruct (del_edge_sync g p n _ Hsync Hrun) as (Hsync1 & _ & Hn1 & Hds1 & Hdp1).
    rewrite Hl in Hlp. simpl in Hlp. rewrite decide_True in Hlp by done.
    injection Hlp as <-.
    edestruct (IH _ Hsync1) as (g' & Hloop & Hsync' & Hn' & Hds' & Hdp' & He').
    { rewrite predecessors_insert. by rewrite decide_True. }
    exists g'. simpl. unfold mbind, M_bind. rewrite Hrun.
    split_and!; try done; try congruence.
    rewrite He'. unfold edges at 1. simpl.
    eapply filter_remove_other; [exact Hrem|]. simpl. tauto.
Qed.

Lemma del_node_succs_loop n l g :
  sync g → successors g n = l →
  ∃ g', mfor l (λ succ, del_edge n succ) g = (Ret tt, g') ∧
        sync g' ∧ nodes g' = nodes g ∧
        dom (_nodes_succ g') = dom (_nodes_succ g) ∧
        dom (_nodes_pred g') = dom (_nodes_pred g) ∧
        edges g' = filter (λ e, e.1 ≠ n) (edges g).
Proof.
  revert g. induction l as [|s l IH]; intros g Hsync Hl.
  - exists g. split_and!; try done.
    symmetry. apply filter_all. intros [a b] Hab. simpl. intros ->.
    apply (sync_successors _ _ _ Hsync) in Hab. rewrite Hl in Hab.
    by apply elem_of_nil in Hab.
  - assert ((n, s) ∈ edges g) as Hin.
    { apply (sync_successors _ _ _ Hsync). rewrite Hl. left. }
    apply list_remove_is_Some in Hin as [es Hrem].
    destruct (del_edge_present g n s es Hsync Hrem)
      as (ls & lp & _ & _ & Hls & _ & Hrun).
    destruct (del_edge_sync g n s _ Hsync Hrun) as (Hsync1 & _ & Hn1 & Hds1 & Hdp1).
    rewrite Hl in Hls. simpl in Hls. rewrite decide_True in Hls by done.
    injection Hls as <-.
    edestruct (IH _ Hsync1) as (g' & Hloop & Hsync' & Hn' & Hds' & Hdp' & He').
    { unfold successors, successors_iter. simpl. by rewrite lookup_insert_eq. }
    exists g'. simpl. unfold mbind, M_bind. rewrite Hrun.
    split_and!; try done; try congruence.
    rewrite He'. unfold edges at 1. simpl.
    eapply filter_remove_other; [exact Hrem|]. simpl. tauto.
Qed.

End mutation.

(** ** Graphs built by calls are well formed *)

Section built.
Context {node : Type} `{Countable node}.
Implicit Types (g : DiGraph node) (a b n src dst : node).

Lemma del_node_spec g n :
  wf g →
  ∃ g', del_node n g = (Ret tt, g') ∧ wf g' ∧
        nodes g' = nodes g ∖ {[n]} ∧
        edges g' = filter (λ e, e.1 ≠ n) (filter (λ e, e.2 ≠ n) (edges g)).
Proof.
  intros [Hsync Hks Hkp He].
  set (g0 := mkDiGraph (_nodes g ∖ {[n]}) (_edges g) (_nodes_succ g) (_nodes_pred g)).
  assert (nodes_discard n g = (Ret tt, g0)) as Hdisc.
  { unfold nodes_discard. destruct (decide (n ∈ _nodes g)) as [?|Hn]; [done|].
    unfold g0. destruct g as [ns es s p]. simpl in *. do 2 f_equal. set_solver. }
  assert (sync g0) as Hsync0 by exact Hsync.
  destruct (del_node_preds_loop n _ g0 Hsync0 eq_refl)
    as (g1 & Hrun1 & Hsync1 & Hn1 & Hds1 & Hdp1 & He1).
  destruct (del_node_succs_loop n _ g1 Hsync1 eq_refl)
    as (g2 & Hrun2 & Hsync2 & Hn2 & Hds2 & Hdp2 & He2).
  exists g2. split.
  { unfold del_node, mbind, M_bind, mget. rewrite Hdisc. simpl.
    rewrite Hrun1. simpl. by rewrite Hrun2. }
  assert (edges g2 = filter (λ e, e.1 ≠ n) (filter (λ e, e.2 ≠ n) (edges g)))
    as Hedges by (by rewrite He2, He1).
  split_and!; [|by rewrite Hn2, Hn1|done].
  split; [done|..].
  - intros a Ha. apply elem_of_dom. rewrite Hds2, Hds1. apply elem_of_dom.
    apply Hks. rewrite Hn2, Hn1 in Ha. unfold nodes, g0 in *. simpl in Ha.
    set_solver.
  - intros a Ha. apply elem_of_dom. rewrite Hdp2, Hdp1. apply elem_of_dom.
    apply Hkp. rewrite Hn2, Hn1 in Ha. unfold nodes, g0 in *. simpl in Ha.
    set_solver.
  - intros a b. rewrite Hedges, !list_elem_of_filter. simpl.
    intros (Ha & Hb & Hab). apply He in Hab as [? ?].
    rewrite Hn2, Hn1. unfold nodes, g0 in *. simpl. set_solver.
Qed.

Lemma del_node_absent g n : wf g → n ∉ nodes g → del_node n g = (Ret tt, g).
Proof.
  intros [[Hs Hp] _ _ He] Hn.
  assert (predecessors g n = []) as Hpn.
  { rewrite Hp. apply pred_of_edges_nil. intros a Ha. by apply He in Ha as [? ?]. }
  assert (successors g n = []) as Hsn.
  { rewrite Hs. apply succ_of_edges_nil. intros a Ha. by apply He in Ha as [? ?]. }
  unfold del_node, mbind, M_bind, mget, nodes_discard.
  rewrite decide_False by done. simpl. rewrite Hpn. simpl. by rewrite Hsn.
Qed.

Lemma run_wf c g : wf g → wf (run c g).2.
Proof.
  intros Hwf. destruct c as [n|n|src dst|src dst|src dst]; simpl.
  - by destruct (add_node_spec g n Hwf) as (g' & -> & ? & _).
  - by destruct (del_node_spec g n Hwf) as (g' & -> & ? & _).
  - by destruct (add_edge_spec g src dst Hwf) as (g' & -> & ? & _).
  - by destruct (add_uniq_edge_spec g src dst Hwf) as (g' & -> & ? & _).
  - by apply del_edge_wf.
Qed.

Lemma built_wf g : built g → wf g.
Proof. induction 1; [apply wf_init | by apply run_wf]. Qed.

Lemma built_build (cs : list (call node)) : built (build cs).
Proof.
  unfold build. generalize (built_init (node := node)).
  generalize (init (node := node)).
  induction cs as [|c cs IH]; intros g Hg; simpl; [done|].
  apply IH. by constructor.
Qed.

(** *** C10: [add_node] *)

(** C10 (amended).  [add_node(n)] always returns and leaves [n] in the node
    set.  When [n] was not a node before, [successors(n)] and
    [predecessors(n)] are empty afterwards; when it was, the graph is left as
    it is, so [n] keeps the successors and predecessors it had.  In both
    cases a second [add_node(n)] changes nothing. *)
Theorem add_node_registers g n :
  ∃ g', add_node n g = (Ret tt, g') ∧
        n ∈ nodes g' ∧
        (n ∉ nodes g → successors g' n = [] ∧ predecessors g' n = []) ∧
        (n ∈ nodes g → g' = g) ∧
        add_node n g' = (Ret tt, g').
Proof.
  destruct (decide (n ∈ nodes g)) as [Hin|Hnin].
  - exists g. rewrite add_node_present by done. by split_and!.
  - rewrite add_node_absent by done. eexists. split; [done|].
    assert (n ∈ nodes (mkDiGraph ({[n]} ∪ _nodes g) (_edges g)
              (<[n:=[]]> (_nodes_succ g)) (<[n:=[]]> (_nodes_pred g)))) as Hin.
    { unfold nodes. simpl. set_solver. }
    split_and!; [done| |done|by apply add_node_present].
    intros _. unfold successors, successors_iter, predecessors, predecessors_iter.
    simpl. by rewrite !lookup_insert_eq.
Qed.

End built.

(** C10, as stated, fails on a node that already has edges: [add_node] is a
    no-op there, and the adjacency of the node is not empty. *)
Lemma add_node_keeps_adjacency :
  let g := (add_node 0 graph_fan).2 in
  (add_node 0 graph_fan).1 = Ret tt ∧ 0 ∈ nodes g ∧ successors g 0 = [1; 2] ∧
  successors g 0 ≠ [] ∧
  predecessors (add_node 1 graph_fan).2 1 = [0; 3].
Proof. split_and!; [reflexivity|by vm_compute|reflexivity|discriminate|reflexivity]. Qed.

(** ** Edges: insertion and deletion *)

Section edge_calls.
Context {node : Type} `{Countable node}.
Implicit Types (g : DiGraph node) (a b n src dst : node).

Lemma succ_of_edges_Permutation (es es' : list (node * node)) a :
  es ≡ₚ es' → succ_of_edges es a ≡ₚ succ_of_edges es' a.
Proof. intros Hp. unfold succ_of_edges. by rewrite Hp. Qed.

Lemma pred_of_edges_Permutation (es es' : list (node * node)) b :
  es ≡ₚ es' → pred_of_edges es b ≡ₚ pred_of_edges es' b.
Proof. intros Hp. unfold pred_of_edges. by rewrite Hp. Qed.

(** C9.  On a graph built by calls, [del_edge(src, dst)] raises exactly when
    [(src, dst)] is not in the edge list, the exception is [ValueError] and
    the graph is left as it was; otherwise it returns, and it has removed
    the first occurrence of [(src, dst)] from the edge list, the first [dst]
    from [_nodes_succ[src]] and the first [src] from [_nodes_pred[dst]],
    nothing else being changed. *)
Theorem del_edge_strict g src dst :
  built g →
  ((src, dst) ∉ edges g ↔ ∃ e g', del_edge src dst g = (Raise e, g')) ∧
  ((src, dst) ∉ edges g → del_edge src dst g = (Raise ValueError, g)) ∧
  ((src, dst) ∈ edges g →
   ∃ g', del_edge src dst g = (Ret tt, g') ∧ nodes g' = nodes g ∧
     (∃ l1 l2, edges g = l1 ++ (src, dst) :: l2 ∧ ((src, dst) ∉ l1) ∧
               edges g' = l1 ++ l2) ∧
     (∃ l1 l2, _nodes_succ g !! src = Some (l1 ++ dst :: l2) ∧ (dst ∉ l1) ∧
               _nodes_succ g' = <[src := l1 ++ l2]> (_nodes_succ g)) ∧
     (∃ l1 l2, _nodes_pred g !! dst = Some (l1 ++ src :: l2) ∧ (src ∉ l1) ∧
               _nodes_pred g' = <[dst := l1 ++ l2]> (_nodes_pred g))).
Proof.
  intros Hwf%built_wf.
  assert ((src, dst) ∈ edges g →
    ∃ g', del_edge src dst g = (Ret tt, g') ∧ nodes g' = nodes g ∧
     (∃ l1 l2, edges g = l1 ++ (src, dst) :: l2 ∧ ((src, dst) ∉ l1) ∧
               edges g' = l1 ++ l2) ∧
     (∃ l1 l2, _nodes_succ g !! src = Some (l1 ++ dst :: l2) ∧ (dst ∉ l1) ∧
               _nodes_succ g' = <[src := l1 ++ l2]> (_nodes_succ g)) ∧
     (∃ l1 l2, _nodes_pred g !! dst = Some (l1 ++ src :: l2) ∧ (src ∉ l1) ∧
               _nodes_pred g' = <[dst := l1 ++ l2]> (_nodes_pred g))) as Hpresent.
  { intros [es Hrem]%list_remove_is_Some.
    destruct (del_edge_present g src dst es (wf_sync _ Hwf) Hrem)
      as (ls & lp & Hks & Hkp & Hls & Hlp & Hrun).
    eexists. split; [exact Hrun|]. split; [done|].
    apply list_remove_Some in Hrem as (e1 & e2 & He & -> & Hne).
    apply list_remove_Some in Hls as (s1 & s2 & Hs & -> & Hns).
    apply list_remove_Some in Hlp as (p1 & p2 & Hp & -> & Hnp).
    split_and!.
    - exists e1, e2. done.
    - exists s1, s2. rewrite Hks, Hs. done.
    - exists p1, p2. rewrite Hkp, Hp. done. }
  split_and!; [|apply del_edge_absent|done].
  split.
  - intros Hn. exists ValueError, g. by apply del_edge_absent.
  - intros (e & g' & Hrun) Hin.
    destruct (Hpresent Hin) as (g'' & Hrun' & _). congruence.
Qed.

(** C7 (amended).  On a graph built by calls, [add_edge(a, b)] returns and
    leaves [b] in [successors(a)] and [a] in [predecessors(b)]; a
    [del_edge(a, b)] that follows returns as well, and gives back the edge
    list and every successor and predecessor list up to the order of their
    elements.  They come back exactly, in the same order, when [(a, b)] was
    not an edge before the insertion. *)
Theorem add_edge_del_edge g a b :
  built g →
  ∃ g1 g2,
    add_edge a b g = (Ret tt, g1) ∧
    b ∈ successors g1 a ∧ a ∈ predecessors g1 b ∧
    del_edge a b g1 = (Ret tt, g2) ∧
    edges g2 ≡ₚ edges g ∧
    (∀ n, successors g2 n ≡ₚ successors g n) ∧
    (∀ n, predecessors g2 n ≡ₚ predecessors g n) ∧
    ((a, b) ∉ edges g →
     edges g2 = edges g ∧
     (∀ n, successors g2 n = successors g n) ∧
     (∀ n, predecessors g2 n = predecessors g n)).
Proof.
  intros Hwf%built_wf.
  destruct (add_edge_spec g a b Hwf) as (g1 & Hadd & Hwf1 & He1 & _).
  assert ((a, b) ∈ edges g1) as Hin.
  { rewrite He1, elem_of_app, list_elem_of_singleton. by right. }
  destruct (proj2 (list_remove_is_Some _ _) Hin) as [es Hrem].
  destruct (del_edge_present g1 a b es (wf_sync _ Hwf1) Hrem)
    as (ls & lp & _ & _ & _ & _ & Hdel).
  destruct (del_edge_sync g1 a b _ (wf_sync _ Hwf1) Hdel) as ([Hs2 Hp2] & _).
  pose proof (wf_sync _ Hwf) as [Hs Hp]. pose proof (wf_sync _ Hwf1) as Hsync1.
  eexists g1, _. split; [done|].
  split; [by apply (sync_successors _ _ _ Hsync1)|].
  split; [by apply (sync_predecessors _ _ _ Hsync1)|].
  split; [exact Hdel|].
  rewrite He1 in Hrem.
  assert (es ≡ₚ edges g) as Hperm by (by eapply list_remove_app_Permutation).
  split_and!.
  - done.
  - intros n. rewrite Hs2, Hs. by apply succ_of_edges_Permutation.
  - intros n. rewrite Hp2, Hp. by apply pred_of_edges_Permutation.
  - intros Hfresh. rewrite list_remove_app_fresh in Hrem by done.
    injection Hrem as <-. split_and!.
    + done.
    + intros n. by rewrite Hs2, Hs.
    + intros n. by rewrite Hp2, Hp.
Qed.

(** C8.  On a graph built by calls, [del_node(n)] returns; afterwards [n] is
    not a node, no edge has [n] as source or destination, and [n] is in no
    successor or predecessor list.  The edges that remain are those that did
    not touch [n], in their order.  When [n] was not a node the graph is
    left as it was. *)
Theorem del_node_cascades g n :
  built g →
  ∃ g', del_node n g = (Ret tt, g') ∧
        (n ∉ nodes g') ∧
        (∀ a b, (a, b) ∈ edges g' → a ≠ n ∧ b ≠ n) ∧
        (∀ m, (n ∉ successors g' m) ∧ (n ∉ predecessors g' m) ∧
              (n ∉ default [] (_nodes_succ g' !! m)) ∧
              n ∉ default [] (_nodes_pred g' !! m)) ∧
        nodes g' = nodes g ∖ {[n]} ∧
        edges g' = filter (λ e, e.1 ≠ n ∧ e.2 ≠ n) (edges g) ∧
        (n ∉ nodes g → g' = g).
Proof.
  intros Hwf%built_wf.
  destruct (del_node_spec g n Hwf) as (g' & Hrun & Hwf' & Hn' & He').
  exists g'. split; [done|].
  assert (∀ a b, (a, b) ∈ edges g' → a ≠ n ∧ b ≠ n) as Hno.
  { intros a b. rewrite He', !list_elem_of_filter. simpl. tauto. }
  pose proof (wf_sync _ Hwf') as Hsync'.
  assert (∀ m, (n ∉ successors g' m) ∧ n ∉ predecessors g' m) as Hadj.
  { intros m. split.
    - intros Hm%(sync_successors _ _ _ Hsync'). by apply Hno in Hm as [_ ?].
    - intros Hm%(sync_predecessors _ _ _ Hsync'). by apply Hno in Hm as [? _]. }
  split_and!.
  - rewrite Hn'. set_solver.
  - done.
  - intros m. destruct (Hadj m) as [Hsm Hpm]. split_and!; [done..| |].
    + unfold successors, successors_iter in Hsm.
      by destruct (_nodes_succ g' !! m).
    + unfold predecessors, predecessors_iter in Hpm.
      by destruct (_nodes_pred g' !! m).
  - done.
  - rewrite He'. rewrite list_filter_filter. apply list_filter_iff.
    intros [x y]. simpl. tauto.
  - intros Hn. rewrite del_node_absent in Hrun by done. congruence.
Qed.

End edge_calls.

(** C7, as stated, fails when [(a, b)] is already an edge and other entries
    follow it: [del_edge] removes the earliest occurrence, not the one just
    appended, so the three lists come back in another order. *)
Lemma add_edge_del_edge_reorders :
  let g2 := (del_edge 0 1 (add_edge 0 1 graph_fan).2).2 in
  (add_edge 0 1 graph_fan).1 = Ret tt ∧
  (del_edge 0 1 (add_edge 0 1 graph_fan).2).1 = Ret tt ∧
  edges graph_fan = [(0, 1); (0, 2); (3, 1)] ∧
  edges g2 = [(0, 2); (3, 1); (0, 1)] ∧
  successors graph_fan 0 = [1; 2] ∧ successors g2 0 = [2; 1] ∧
  predecessors graph_fan 1 = [0; 3] ∧ predecessors g2 1 = [3; 0] ∧
  edges g2 ≠ edges graph_fan ∧
  successors g2 0 ≠ successors graph_fan 0 ∧
  predecessors g2 1 ≠ predecessors graph_fan 1.
Proof. split_and!; try reflexivity; by vm_compute. Qed.

Lemma del_edge_strict_witness :
  (((0, 1) ∉ edges graph_fan ↔
    ∃ e g', del_edge 0 1 graph_fan = (Raise e, g')) ∧
   ((0, 1) ∉ edges graph_fan →
    del_edge 0 1 graph_fan = (Raise ValueError, graph_fan)) ∧
   ((0, 1) ∈ edges graph_fan →
    ∃ g', del_edge 0 1 graph_fan = (Ret tt, g') ∧ nodes g' = nodes graph_fan ∧
      (∃ l1 l2, edges graph_fan = l1 ++ (0, 1) :: l2 ∧ ((0, 1) ∉ l1) ∧
                edges g' = l1 ++ l2) ∧
      (∃ l1 l2, _nodes_succ graph_fan !! 0 = Some (l1 ++ 1 :: l2) ∧ (1 ∉ l1) ∧
                _nodes_succ g' = <[0 := l1 ++ l2]> (_nodes_succ graph_fan)) ∧
      (∃ l1 l2, _nodes_pred graph_fan !! 1 = Some (l1 ++ 0 :: l2) ∧ (0 ∉ l1) ∧
                _nodes_pred g' = <[1 := l1 ++ l2]> (_nodes_pred graph_fan)))).
Proof. apply (del_edge_strict graph_fan 0 1). apply built_build. Defined.

Lemma add_edge_del_edge_witness :
  ∃ g1 g2,
    add_edge 0 1 graph_fan = (Ret tt, g1) ∧
    1 ∈ successors g1 0 ∧ 0 ∈ predecessors g1 1 ∧
    del_edge 0 1 g1 = (Ret tt, g2) ∧
    edges g2 ≡ₚ edges graph_fan ∧
    (∀ n, successors g2 n ≡ₚ successors graph_fan n) ∧
    (∀ n, predecessors g2 n ≡ₚ predecessors graph_fan n) ∧
    ((0, 1) ∉ edges graph_fan →
     edges g2 = edges graph_fan ∧
     (∀ n, successors g2 n = successors graph_fan n) ∧
     (∀ n, predecessors g2 n = predecessors graph_fan n)).
Proof. apply (add_edge_del_edge graph_fan 0 1). apply built_build. Defined.

Lemma del_node_cascades_witness :
  ∃ g', del_node 1 graph_loop = (Ret tt, g') ∧
        (1 ∉ nodes g') ∧
        (∀ a b, (a, b) ∈ edges g' → a ≠ 1 ∧ b ≠ 1) ∧
        (∀ m, (1 ∉ successors g' m) ∧ (1 ∉ predecessors g' m) ∧
              (1 ∉ default [] (_nodes_succ g' !! m)) ∧
              1 ∉ default [] (_nodes_pred g' !! m)) ∧
        nodes g' = nodes graph_loop ∖ {[1]} ∧
        edges g' = filter (λ e, e.1 ≠ 1 ∧ e.2 ≠ 1) (edges graph_loop) ∧
        (1 ∉ nodes graph_loop → g' = graph_loop).
Proof. apply (del_node_cascades graph_loop 1). apply built_build. Defined.

(** ** Reachability: [_reachable_nodes] *)

Section reachable.
Context {node : Type} `{Countable node}.
Variable pop : nat → gset node → node.
Variable next_cb : node → list node.
Hypothesis pop_member : pops pop.

Lemma _reachable_nodes_loop_fuel fuel fuel' i todo reachable :
  _reachable_nodes_loop pop next_cb fuel i todo reachable ≠ OutOfFuel →
  fuel ≤ fuel' →
  _reachable_nodes_loop pop next_cb fuel' i todo reachable =
  _reachable_nodes_loop pop next_cb fuel i todo reachable.
Proof.
  revert fuel' i todo reachable.
  induction fuel as [|fuel IH]; intros fuel' i todo reachable; [done|].
  intros Hrun Hle. destruct fuel' as [|fuel']; [lia|]. simpl in *.
  destruct (decide (todo = ∅)); [done|].
  destruct (decide (pop i todo ∈ reachable)).
  - apply IH; [done|lia].
  - rewrite IH; [done| |lia].
    by destruct (_reachable_nodes_loop pop next_cb fuel _ _ _).
Qed.

(** A finite set of nodes closed under [next_cb] bounds the loop. *)
Variable U : gset node.
Hypothesis U_closed : ∀ a b, a ∈ U → b ∈ next_cb a → b ∈ U.

Lemma _reachable_nodes_loop_spec fuel i todo reachable :
  todo ⊆ U →
  (∀ a b, a ∈ reachable → b ∈ next_cb a → b ∈ reachable ∪ todo) →
  size (U ∖ reachable) * S (size U) + size todo < fuel →
  ∃ l, _reachable_nodes_loop pop next_cb fuel i todo reachable = Ret l ∧
       NoDup l ∧
       (∀ x, x ∈ l → (x ∉ reachable) ∧ ∃ t, t ∈ todo ∧ rtc (next_rel next_cb) t x) ∧
       todo ⊆ reachable ∪ list_to_set l ∧
       (∀ a b, a ∈ reachable ∪ list_to_set l → b ∈ next_cb a →
               b ∈ reachable ∪ list_to_set l).
Proof.
  revert i todo reachable.
  induction fuel as [|fuel IH]; intros i todo reachable Htodo Hinv Hfuel; [lia|].
  simpl. destruct (decide (todo = ∅)) as [->|Hne].
  { exists []. split_and!; [done|constructor| |set_solver|].
    - by intros x ?%elem_of_nil.
    - intros a b Ha Hb. specialize (Hinv a b). set_solver. }
  pose proof (pop_member i todo Hne) as Hpop.
  set (node0 := pop i todo) in *.
  assert (size (todo ∖ {[node0]}) < size todo) as Hsize.
  { apply subset_size. set_solver. }
  destruct (decide (node0 ∈ reachable)) as [Hin|Hnin].
  - destruct (IH (S i) (todo ∖ {[node0]}) reachable) as (l & Hl & Hnd & Hsound & Hsub & Hcl).
    + set_solver.
    + intros a b Ha Hb. specialize (Hinv a b Ha Hb).
      destruct (decide (b = node0)); set_solver.
    + lia.
    + exists l. split_and!; try done.
      * intros x Hx. destruct (Hsound x Hx) as (? & t & Ht & ?).
        split; [done|]. exists t. split; [set_solver|done].
      * intros t Ht. destruct (decide (t = node0)); set_solver.
  - destruct (IH (S i) (todo ∖ {[node0]} ∪ list_to_set (next_cb node0))
                (reachable ∪ {[node0]})) as (l & Hl & Hnd & Hsound & Hsub & Hcl).
    + intros t [Ht|Ht%elem_of_list_to_set]%elem_of_union; [set_solver|].
      eapply U_closed; [|done]. set_solver.
    + intros a b [Ha|Ha%elem_of_singleton]%elem_of_union Hb.
      * specialize (Hinv a b Ha Hb).
        destruct (decide (b = node0)); set_solver.
      * subst a. apply elem_of_union_r, elem_of_union_r.
        by apply elem_of_list_to_set.
    + assert (size (U ∖ (reachable ∪ {[node0]})) < size (U ∖ reachable)).
      { apply subset_size. set_solver. }
      assert (size (todo ∖ {[node0]} ∪ list_to_set (next_cb node0)) ≤ size U).
      { apply subseteq_size.
        intros t [Ht|Ht%elem_of_list_to_set]%elem_of_union; [set_solver|].
        eapply U_closed; [|done]. set_solver. }
      nia.
    + rewrite Hl. simpl. exists (node0 :: l).
      assert (∀ S : gset node,
        reachable ∪ {[node0]} ∪ S = reachable ∪ ({[node0]} ∪ S)) as Hassoc
        by (intros; set_solver).
      split_and!.
      * done.
      * constructor; [|done]. intros Hx. apply Hsound in Hx as [Hx _]. set_solver.
      * intros x [->|Hx]%elem_of_cons.
        { split; [done|]. by exists node0. }
        destruct (Hsound x Hx) as (Hxr & t & Ht & Hrtc). split; [set_solver|].
        apply elem_of_union in Ht as [Ht|Ht%elem_of_list_to_set].
        -- exists t. split; [set_solver|done].
        -- exists node0. split; [done|]. by eapply rtc_l.
      * rewrite list_to_set_cons, <-Hassoc.
        intros t Ht. destruct (decide (t = node0)); set_solver.
      * rewrite list_to_set_cons, <-Hassoc. done.
Qed.

Lemma _reachable_nodes_spec head :
  head ∈ U →
  ∃ l, (∀ fuel, S (S (size U) * S (size U)) ≤ fuel →
          _reachable_nodes pop fuel head next_cb = Ret l) ∧
       NoDup l ∧ head ∈ l ∧ (∀ x, x ∈ l ↔ rtc (next_rel next_cb) head x).
Proof.
  intros Hhead.
  destruct (_reachable_nodes_loop_spec (S (S (size U) * S (size U))) 0 {[head]} ∅)
    as (l & Hl & Hnd & Hsound & Hsub & Hcl).
  - set_solver.
  - set_solver.
  - rewrite difference_empty_L, size_singleton. nia.
  - exists l. split_and!; try done.
    + intros fuel Hfuel. unfold _reachable_nodes.
      rewrite <-Hl. apply _reachable_nodes_loop_fuel; [by rewrite Hl|done].
    + apply (elem_of_list_to_set (C := gset node)). set_solver.
    + intros x. split.
      * intros Hx. destruct (Hsound x Hx) as (_ & t & ->%elem_of_singleton & ?). done.
      * intros Hrtc.
        assert (head ∈ (list_to_set l : gset node)) as Hh by set_solver.
        apply (elem_of_list_to_set (C := gset node)).
        clear Hl Hsound Hsub Hhead.
        induction Hrtc as [|a b c Hab _ IH]; [done|].
        apply IH. specialize (Hcl a b). set_solver.
Qed.

End reachable.

(** ** Reachability on a graph *)

Section reachable_graph.
Context {node : Type} `{Countable node}.
Implicit Types (g : DiGraph node) (h n : node).

Lemma elem_of_range_nodes (m : gmap node (list node)) n :
  n ∈ range_nodes m ↔ ∃ k l, m !! k = Some l ∧ n ∈ l.
Proof.
  unfold range_nodes. rewrite elem_of_union_list. split.
  - intros (X & HX & Hn). apply list_elem_of_fmap in HX as (l & -> & Hl).
    apply list_elem_of_fmap in Hl as ([k l'] & -> & Hkl).
    apply elem_of_map_to_list in Hkl. exists k, l'. split; [done|].
    by apply elem_of_list_to_set in Hn.
  - intros (k & l & Hkl & Hn). exists (list_to_set l). split.
    + apply list_elem_of_fmap. exists l. split; [done|].
      apply list_elem_of_fmap. exists (k, l). split; [done|].
      by apply elem_of_map_to_list.
    + by apply elem_of_list_to_set.
Qed.

Lemma filter_eq_NoDup (l : list node) h :
  NoDup l → h ∈ l → filter (λ x, x = h) l = [h].
Proof.
  induction 1 as [|x l Hx Hnd IH]; [by intros ?%elem_of_nil|].
  rewrite filter_cons. intros [->|Hin]%elem_of_cons.
  - rewrite decide_True by done. f_equal.
    clear IH Hnd. induction l as [|y l IH]; [done|].
    apply not_elem_of_cons in Hx as [? ?].
    rewrite filter_cons_False by done. by apply IH.
  - rewrite decide_False; [by apply IH|]. intros ->. done.
Qed.

(** C4.  For every graph, cyclic or not, every node [h] and every [pop],
    [reachable_sons(h)] ends: with enough fuel it returns the list of the
    nodes it yields.  No node is yielded twice, [h] is yielded exactly once,
    and the nodes yielded are exactly those that [h] reaches by following
    [successors] any number of times, none included.  The same holds of
    [reachable_parents] and [predecessors]. *)
Theorem reachable_nodes_closure g (pop : nat → gset node → node) h :
  pops pop →
  (∃ l fuel0,
     (∀ fuel, fuel0 ≤ fuel → reachable_sons pop fuel g h = Ret l) ∧
     NoDup l ∧ filter (λ x, x = h) l = [h] ∧
     (∀ x, x ∈ l ↔ rtc (next_rel (successors g)) h x)) ∧
  (∃ l fuel0,
     (∀ fuel, fuel0 ≤ fuel → reachable_parents pop fuel g h = Ret l) ∧
     NoDup l ∧ filter (λ x, x = h) l = [h] ∧
     (∀ x, x ∈ l ↔ rtc (next_rel (predecessors g)) h x)).
Proof.
  intros Hpop. split.
  - destruct (_reachable_nodes_spec pop (successors_iter g) Hpop
                ({[h]} ∪ range_nodes (_nodes_succ g))) with (head := h)
      as (l & Hl & Hnd & Hh & Hcl).
    + intros a b _ Hb. apply elem_of_union_r, elem_of_range_nodes.
      by apply successors_elem_lookup in Hb as (l & ? & ?); eauto.
    + set_solver.
    + exists l. eexists. split_and!; [exact Hl|done| |done].
      by apply filter_eq_NoDup.
  - destruct (_reachable_nodes_spec pop (predecessors_iter g) Hpop
                ({[h]} ∪ range_nodes (_nodes_pred g))) with (head := h)
      as (l & Hl & Hnd & Hh & Hcl).
    + intros a b _ Hb. apply elem_of_union_r, elem_of_range_nodes.
      by apply predecessors_elem_lookup in Hb as (l & ? & ?); eauto.
    + set_solver.
    + exists l. eexists. split_and!; [exact Hl|done| |done].
      by apply filter_eq_NoDup.
Qed.

End reachable_graph.

(** ** The two concrete [pop]s are valid *)

Lemma foldr_min_elem (d : nat) (l : list nat) : foldr Nat.min d l ∈ d :: l.
Proof.
  induction l as [|x l IH]; simpl; [left|].
  destruct (Nat.min_spec x (foldr Nat.min d l)) as [[_ ->]|[_ ->]].
  - right; left.
  - apply elem_of_cons in IH as [->|?]; [left|by do 2 right].
Qed.

Lemma foldr_max_elem (l : list nat) : l ≠ [] → foldr Nat.max 0 l ∈ l.
Proof.
  induction l as [|x l IH]; [done|]. intros _. simpl.
  destruct l as [|y l]; [simpl; rewrite Nat.max_0_r; left|].
  destruct (Nat.max_spec x (foldr Nat.max 0 (y :: l))) as [[_ ->]|[_ ->]].
  - right. by apply IH.
  - left.
Qed.

Lemma pop_min_pops : pops pop_min.
Proof.
  intros i s Hs. unfold pop_min. apply elem_of_elements.
  destruct (elements s) as [|x l] eqn:E.
  { by apply elements_empty_inv, leibniz_equiv in E. }
  simpl head. simpl default.
  pose proof (foldr_min_elem x (x :: l)) as Hin.
  apply elem_of_cons in Hin as [->|?]; [left|done].
Qed.

Lemma pop_max_pops : pops pop_max.
Proof.
  intros i s Hs. unfold pop_max. apply elem_of_elements.
  apply foldr_max_elem. intros E.
  by apply elements_empty_inv, leibniz_equiv in E.
Qed.

Lemma reachable_nodes_closure_witness :
  (∃ l fuel0,
     (∀ fuel, fuel0 ≤ fuel → reachable_sons pop_min fuel graph_loop 0 = Ret l) ∧
     NoDup l ∧ filter (λ x, x = 0) l = [0] ∧
     (∀ x, x ∈ l ↔ rtc (next_rel (successors graph_loop)) 0 x)) ∧
  (∃ l fuel0,
     (∀ fuel, fuel0 ≤ fuel → reachable_parents pop_min fuel graph_loop 0 = Ret l) ∧
     NoDup l ∧ filter (λ x, x = 0) l = [0] ∧
     (∀ x, x ∈ l ↔ rtc (next_rel (predecessors graph_loop)) 0 x)).
Proof. apply (reachable_nodes_closure graph_loop pop_min 0), pop_min_pops. Defined.

(** ** Paths *)

Section chain.
Context {A : Type}.
Implicit Types (R : A → A → Prop) (p : list A) (a b n : A).

Lemma chain_cons R a p :
  chain R (a :: p) ↔ (∀ b, head p = Some b → R a b) ∧ chain R p.
Proof.
  destruct p as [|b p]; simpl.
  - split; [by intros _; split|done].
  - split.
    + intros [? ?]. split; [by intros ? [= <-]|done].
    + intros [Hh ?]. split; [by apply Hh|done].
Qed.

Lemma chain_snoc R p n :
  chain R (p ++ [n]) ↔ chain R p ∧ (∀ m, last p = Some m → R m n).
Proof.
  induction p as [|a p IH].
  - simpl. split; [by intros _; split|done].
  - rewrite <-app_comm_cons, !chain_cons, IH. destruct p as [|b p].
    + simpl. split.
      * intros [Hh _]. split_and!; [done..|]. intros m [= <-]. by apply Hh.
      * intros (_ & Hl). split_and!; [|done..]. intros b [= <-]. by apply Hl.
    + rewrite last_cons_cons. simpl. naive_solver.
Qed.

Lemma chain_app_l R p1 p2 : chain R (p1 ++ p2) → chain R p1.
Proof.
  revert p1. induction p2 as [|x p2 IH] using rev_ind; intros p1.
  - by rewrite app_nil_r.
  - rewrite app_assoc, chain_snoc. intros [? _]. by apply IH.
Qed.

Lemma chain_iff R R' p :
  (∀ a b, R a b ↔ R' a b) → chain R p ↔ chain R' p.
Proof.
  intros HR. induction p as [|a p IH]; [done|].
  rewrite !chain_cons, IH. by setoid_rewrite HR.
Qed.

Lemma chain_reverse R p : chain R (reverse p) ↔ chain (flip R) p.
Proof.
  induction p as [|a p IH]; [done|].
  rewrite reverse_cons, chain_snoc, chain_cons, IH, last_reverse. naive_solver.
Qed.

End chain.

Section paths.
Context {node : Type} `{Countable node}.
Implicit Types (R : node → node → Prop) (p : list node) (a b n h : node).

Lemma path_rel_refl R a : path_rel R a a [a].
Proof. by split_and!. Qed.

Lemma path_rel_snoc R a b c p :
  path_rel R a b p → R b c → path_rel R a c (p ++ [c]).
Proof.
  intros (Hh & Hl & Hc) Hbc. split_and!.
  - destruct p; [done|]. done.
  - by rewrite last_snoc.
  - apply chain_snoc. split; [done|]. intros m Hm. congruence.
Qed.

Lemma path_rel_cons R a b c p :
  R a b → path_rel R b c p → path_rel R a c (a :: p).
Proof.
  intros Hab (Hh & Hl & Hc). split_and!; [done| |].
  - destruct p; [done|]. by rewrite last_cons_cons.
  - apply chain_cons. split; [|done]. intros b'. rewrite Hh. by intros [= <-].
Qed.

Lemma rtc_path_rel R a b : rtc R a b ↔ ∃ p, path_rel R a b p.
Proof.
  split.
  - induction 1 as [a|a b c Hab _ [p Hp]].
    + exists [a]. apply path_rel_refl.
    + exists (a :: p). by eapply path_rel_cons.
  - intros [p Hp]. revert a Hp. induction p as [|x p IH]; intros a (Hh & Hl & Hc).
    + done.
    + injection Hh as ->. apply chain_cons in Hc as [Hab Hc].
      destruct p as [|y p].
      * injection Hl as ->. done.
      * eapply rtc_l; [by apply Hab|]. apply IH. split_and!; [done| |done].
        by rewrite last_cons_cons in Hl.
Qed.

Lemma path_rel_prefix R a b p x :
  path_rel R a b p → x ∈ p → ∃ p1 p2, p = p1 ++ p2 ∧ path_rel R a x p1.
Proof.
  intros (Hh & Hl & Hc) (p1 & p2 & ->)%list_elem_of_split.
  exists (p1 ++ [x]), p2. split; [by rewrite <-app_assoc|].
  split_and!.
  - destruct p1; simpl in *; done.
  - by rewrite last_snoc.
  - apply (chain_app_l R _ p2). by rewrite <-app_assoc.
Qed.

Lemma path_rel_elem_rtc R a b p x : path_rel R a b p → x ∈ p → rtc R a x.
Proof.
  intros Hp Hx. destruct (path_rel_prefix R a b p x Hp Hx) as (p1 & _ & _ & Hp1).
  apply rtc_path_rel. eauto.
Qed.

Lemma path_rel_iff R R' a b p :
  (∀ x y, R x y ↔ R' x y) → path_rel R a b p ↔ path_rel R' a b p.
Proof. intros HR. unfold path_rel. by rewrite (chain_iff R R' p HR). Qed.

Lemma path_rel_reverse R a b p :
  path_rel R a b (reverse p) ↔ path_rel (flip R) b a p.
Proof.
  unfold path_rel. rewrite chain_reverse, head_reverse, last_reverse.
  tauto.
Qed.

Lemma dom_rel_iff R R' h d n :
  (∀ x y, R x y ↔ R' x y) → dom_rel R h d n ↔ dom_rel R' h d n.
Proof.
  intros HR. unfold dom_rel.
  split; intros Hd p Hp; apply Hd; by apply (path_rel_iff R R' _ _ _ HR).
Qed.

End paths.

(** ** The fixed point of [_compute_generic_dominators] *)

Section dominators.
Context {node : Type} `{Countable node}.
Variable pop : nat → gset node → node.
Variable head : node.
Variable nodes : gset node.
Variables prev_cb next_cb : node → list node.
Hypothesis pop_member : pops pop.
Hypothesis head_in : head ∈ nodes.
Hypothesis next_closed : ∀ a b, a ∈ nodes → b ∈ next_cb a → b ∈ nodes.
Hypothesis prev_next : ∀ a b, b ∈ next_cb a ↔ a ∈ prev_cb b.
Hypothesis nodes_reached : ∀ n, n ∈ nodes → rtc (next_rel next_cb) head n.

Implicit Types (dominators : gmap node (gset node)) (todo : gset node).

Lemma rtc_in_nodes n : rtc (next_rel next_cb) head n → n ∈ nodes.
Proof.
  revert n. apply rtc_ind_r; [done|].
  intros m n _ Hmn Hm. by eapply next_closed.
Qed.

(** What the assertion of the loop checks. *)
Lemma pred_in_nodes n : n ∈ nodes → n ≠ head → ∃ p, p ∈ prev_cb n ∧ p ∈ nodes.
Proof.
  intros Hn Hne. apply nodes_reached in Hn.
  apply rtc_inv_r in Hn as [->|(m & Hm & Hmn)]; [done|].
  exists m. split; [by apply prev_next|by apply rtc_in_nodes].
Qed.

Lemma elem_of_dom_pairs dominators n d :
  (n, d) ∈ dom_pairs dominators ↔ ∃ s, dominators !! n = Some s ∧ d ∈ s.
Proof.
  unfold dom_pairs. rewrite elem_of_list_to_set, list_elem_of_bind. split.
  - intros ([n' s] & Hd & Hns). apply list_elem_of_fmap in Hd as (d' & [= -> ->] & Hd').
    apply elem_of_map_to_list in Hns. exists s. split; [done|].
    by apply elem_of_elements.
  - intros (s & Hs & Hd). exists (n, s). split.
    + apply list_elem_of_fmap. exists d. split; [done|]. by apply elem_of_elements.
    + by apply elem_of_map_to_list.
Qed.

Lemma dom_pairs_update dominators n old new :
  dominators !! n = Some old → new ⊆ old → new ≠ old →
  size (dom_pairs (<[n := new]> dominators)) < size (dom_pairs dominators).
Proof.
  intros Hold Hsub Hne. apply subset_size. split.
  - intros [m d] (s & Hs & Hd)%elem_of_dom_pairs. apply elem_of_dom_pairs.
    destruct (decide (m = n)) as [->|Hm].
    + rewrite lookup_insert_eq in Hs. injection Hs as <-. exists old. split; [done|].
      by apply Hsub.
    + rewrite lookup_insert_ne in Hs by done. eauto.
  - intros Hsub'. apply Hne. apply set_eq. intros d. split; [by apply Hsub|].
    intros Hd. specialize (Hsub' (n, d)).
    rewrite !elem_of_dom_pairs in Hsub'.
    destruct Hsub' as (s & Hs & Hd'); [eauto|].
    rewrite lookup_insert_eq in Hs. by injection Hs as <-.
Qed.

Lemma inter_preds_Some dominators preds s :
  (∀ p, p ∈ preds → p ∈ nodes → is_Some (dominators !! p)) →
  ∃ s', inter_preds nodes dominators preds (Some s) = Ret (Some s') ∧
        ∀ d, d ∈ s' ↔
             d ∈ s ∧
             ∀ p sp, p ∈ preds → p ∈ nodes → dominators !! p = Some sp → d ∈ sp.
Proof.
  revert s. induction preds as [|p preds IH]; intros s Hdom; simpl.
  - exists s. split; [done|]. intros d. split; [|tauto].
    intros Hd. split; [done|]. by intros p sp ?%elem_of_nil.
  - destruct (decide (p ∈ nodes)) as [Hp|Hp].
    + destruct (Hdom p) as [sp Hsp]; [left|done|]. rewrite Hsp.
      destruct (IH (s ∩ sp)) as (s' & Hrun & Hs').
      { intros q Hq. apply Hdom. by right. }
      exists s'. split; [done|]. intros d. rewrite Hs', elem_of_intersection.
      split.
      * intros [[Hd Hdp] Hrest]. split; [done|].
        intros q sq [->|Hq]%elem_of_cons Hqn Hsq; [congruence|].
        by eapply Hrest.
      * intros [Hd Hall]. split_and!; [done|by eapply Hall; [left|..]|].
        intros q sq Hq. apply Hall. by right.
    + destruct (IH s) as (s' & Hrun & Hs').
      { intros q Hq. apply Hdom. by right. }
      exists s'. split; [done|]. intros d. rewrite Hs'. split.
      * intros [Hd Hrest]. split; [done|].
        intros q sq [->|Hq]%elem_of_cons Hqn Hsq; [done|]. by eapply Hrest.
      * intros [Hd Hall]. split; [done|]. intros q sq Hq. apply Hall. by right.
Qed.

Lemma inter_preds_None dominators preds :
  (∀ p, p ∈ preds → p ∈ nodes → is_Some (dominators !! p)) →
  (∃ p, p ∈ preds ∧ p ∈ nodes) →
  ∃ s', inter_preds nodes dominators preds None = Ret (Some s') ∧
        ∀ d, d ∈ s' ↔
             ∀ p sp, p ∈ preds → p ∈ nodes → dominators !! p = Some sp → d ∈ sp.
Proof.
  induction preds as [|p preds IH]; intros Hdom (q & Hq & Hqn); simpl.
  - by apply elem_of_nil in Hq.
  - destruct (decide (p ∈ nodes)) as [Hp|Hp].
    + destruct (Hdom p) as [sp Hsp]; [left|done|]. rewrite Hsp.
      destruct (inter_preds_Some dominators preds (sp ∩ sp)) as (s' & Hrun & Hs').
      { intros r Hr. apply Hdom. by right. }
      exists s'. split; [done|]. intros d. rewrite Hs', elem_of_intersection.
      split.
      * intros [[Hd _] Hrest] r sr [->|Hr]%elem_of_cons Hrn Hsr; [congruence|].
        by eapply Hrest.
      * intros Hall. split_and!; [by eapply Hall; [left|..]..|].
        intros r sr Hr. apply Hall. by right.
    + apply elem_of_cons in Hq as [->|Hq]; [done|].
      destruct IH as (s' & Hrun & Hs').
      { intros r Hr. apply Hdom. by right. }
      { eauto. }
      exists s'. split; [done|]. intros d. rewrite Hs'. split.
      * intros Hrest r sr [->|Hr]%elem_of_cons Hrn Hsr; [done|]. by eapply Hrest.
      * intros Hall r sr Hr. apply Hall. by right.
Qed.

Lemma dominators_loop_fuel fuel fuel' i dominators todo :
  dominators_loop pop head nodes prev_cb next_cb fuel i dominators todo ≠ OutOfFuel →
  fuel ≤ fuel' →
  dominators_loop pop head nodes prev_cb next_cb fuel' i dominators todo =
  dominators_loop pop head nodes prev_cb next_cb fuel i dominators todo.
Proof.
  revert fuel' i dominators todo.
  induction fuel as [|fuel IH]; intros fuel' i dominators todo; [done|].
  intros Hrun Hle. destruct fuel' as [|fuel']; [lia|]. simpl in *.
  destruct (decide (todo = ∅)); [done|].
  destruct (decide (pop i todo = head)); [apply IH; [done|lia]|].
  destruct (inter_preds nodes dominators (prev_cb (pop i todo)) None)
    as [[new_dom|]| |]; simpl in *; try done.
  destruct (dominators !! pop i todo); [|done].
  destruct (decide (new_dom ∪ {[pop i todo]} = g)); apply IH; done || lia.
Qed.

Lemma dom_inv_init :
  dom_inv (next_rel next_cb) head nodes prev_cb
    (<[head := {[head]}]> (gset_to_gmap nodes nodes)) nodes.
Proof.
  assert (∀ n s, <[head := {[head]}]> (gset_to_gmap nodes nodes) !! n = Some s →
                 n ∈ nodes ∧ s ⊆ nodes ∧ (n ≠ head → s = nodes)) as Hlook.
  { intros n s. rewrite lookup_insert. destruct (decide (head = n)) as [<-|Hne].
    - intros [= <-]. split_and!; [done|set_solver|done].
    - intros [? <-]%lookup_gset_to_gmap_Some. done. }
  split.
  - rewrite dom_insert_L, dom_gset_to_gmap. set_solver.
  - by rewrite lookup_insert_eq.
  - intros n s Hs. by apply Hlook in Hs as (_ & ? & _).
  - intros n s d Hs Hd. destruct (decide (n = head)) as [->|Hne].
    + rewrite lookup_insert_eq in Hs. injection Hs as <-.
      specialize (Hd [head] (path_rel_refl _ _)). set_solver.
    + apply Hlook in Hs as (Hn & _ & ->); [|done].
      pose proof (nodes_reached n Hn) as [p Hp]%rtc_path_rel.
      apply rtc_in_nodes. eapply path_rel_elem_rtc; [exact Hp|by apply Hd].
  - intros n s d Hne Hs Hrule. apply Hlook in Hs as (Hn & _ & ->); [|done].
    destruct Hrule as [->|Hall]; [done|].
    destruct (pred_in_nodes n Hn Hne) as (p & Hp & Hpn).
    assert (is_Some (<[head := {[head]}]> (gset_to_gmap nodes nodes) !! p))
      as [sp Hsp].
    { apply elem_of_dom. rewrite dom_insert_L, dom_gset_to_gmap. set_solver. }
    pose proof (Hall p sp Hp Hpn Hsp) as Hd.
    apply Hlook in Hsp as (_ & Hsub & _). by apply Hsub.
  - intros n s d _ Hn Hs. by apply Hlook in Hs as (? & _).
  - done.
Qed.

Lemma dominators_loop_spec fuel i dominators todo :
  dom_inv (next_rel next_cb) head nodes prev_cb dominators todo →
  size (dom_pairs dominators) * S (size nodes) + size todo < fuel →
  ∃ d, dominators_loop pop head nodes prev_cb next_cb fuel i dominators todo = Ret d ∧
       dom_inv (next_rel next_cb) head nodes prev_cb d ∅.
Proof.
  revert i dominators todo.
  induction fuel as [|fuel IH]; intros i dominators todo Hinv Hfuel; [lia|].
  simpl. destruct (decide (todo = ∅)) as [->|Hne]; [by exists dominators|].
  pose proof (pop_member i todo Hne) as Hpop.
  set (node0 := pop i todo) in *.
  assert (size (todo ∖ {[node0]}) < size todo) as Hsize.
  { apply subset_size. set_solver. }
  destruct Hinv as [Hdom Hhead Hwithin Habove Hshrink Hstable Htodo].
  assert (node0 ∈ nodes) as Hn0 by set_solver.
  destruct (decide (node0 = head)) as [Heq|Hnh].
  { apply IH; [|lia]. split; try done; [|set_solver].
    intros n s d Hn Hnt. apply Hstable; [done|]. set_solver. }
  destruct (inter_preds_None dominators (prev_cb node0)) as (s' & -> & Hs').
  { intros p _ Hp. apply elem_of_dom. by rewrite Hdom. }
  { by apply pred_in_nodes. }
  simpl.
  assert (is_Some (dominators !! node0)) as [old Hold].
  { apply elem_of_dom. by rewrite Hdom. }
  rewrite Hold.
  assert (∀ d, d ∈ s' ∪ {[node0]} ↔ dom_rule nodes prev_cb dominators node0 d)
    as Hnew.
  { intros d. unfold dom_rule. rewrite elem_of_union, elem_of_singleton, Hs'.
    tauto. }
  assert (s' ∪ {[node0]} ⊆ old) as Hsub.
  { intros d Hd. eapply Hshrink; [done..|]. by apply Hnew. }
  destruct (decide (s' ∪ {[node0]} = old)) as [Hsame|Hdiff].
  { apply IH; [|lia]. split; try done; [|set_solver].
    intros n s d Hn Hnt Hs Hd. destruct (decide (n = node0)) as [->|Hnn].
    - apply Hnew. congruence.
    - eapply Hstable; [done| |done..]. set_solver. }
  assert (list_to_set (next_cb node0) ⊆ nodes) as Hnext.
  { intros b Hb%elem_of_list_to_set. by eapply next_closed. }
  assert (∀ n d, dom_rule nodes prev_cb (<[node0 := s' ∪ {[node0]}]> dominators) n d →
                 dom_rule nodes prev_cb dominators n d) as Hmono.
  { intros n d [->|Hall]; [by left|]. right. intros p sp Hp Hpn Hsp.
    destruct (decide (p = node0)) as [->|Hpne].
    - assert (sp = old) as -> by congruence. apply Hsub.
      eapply Hall; [done..|]. by rewrite lookup_insert_eq.
    - eapply Hall; [done..|]. by rewrite lookup_insert_ne. }
  apply IH.
  - split.
    + rewrite dom_insert_L, Hdom. set_solver.
    + by rewrite lookup_insert_ne.
    + intros n s. rewrite lookup_insert. destruct (decide (node0 = n)) as [<-|?].
      * intros [= <-]. etrans; [exact Hsub|]. by eapply Hwithin.
      * apply Hwithin.
    + intros n s d. rewrite lookup_insert. destruct (decide (node0 = n)) as [<-|?].
      * intros [= <-] Hd. apply Hnew.
        destruct (decide (d = node0)) as [->|Hdn]; [by left|]. right.
        intros p sp Hp Hpn Hsp. eapply Habove; [done|].
        intros q Hq. pose proof (Hd (q ++ [node0])) as Hin.
        rewrite elem_of_app, list_elem_of_singleton in Hin.
        destruct Hin as [?|?]; [|done..].
        eapply path_rel_snoc; [done|]. by apply prev_next.
      * apply Habove.
    + intros n s d Hn. rewrite lookup_insert.
      destruct (decide (node0 = n)) as [<-|?].
      * intros [= <-] Hrule. apply Hnew. by apply Hmono.
      * intros Hs Hrule. eapply Hshrink; [done..|]. by apply Hmono.
    + intros n s d Hn Hnt. rewrite lookup_insert.
      destruct (decide (node0 = n)) as [<-|Hnn].
      * intros [= <-] Hd. apply Hnew in Hd as [->|Hall]; [by left|]. right.
        intros p sp Hp Hpn. rewrite lookup_insert.
        destruct (decide (node0 = p)) as [<-|?].
        -- exfalso. apply Hnt. apply elem_of_union_r, elem_of_list_to_set.
           by apply prev_next.
        -- by apply Hall.
      * intros Hs Hd.
        assert (n ∉ todo) as Hnt' by set_solver.
        destruct (Hstable n s d Hn Hnt' Hs Hd) as [->|Hall]; [by left|]. right.
        intros p sp Hp Hpn. rewrite lookup_insert.
        destruct (decide (node0 = p)) as [<-|?].
        -- exfalso. apply Hnt. apply elem_of_union_r, elem_of_list_to_set.
           by apply prev_next.
        -- by apply Hall.
    + set_solver.
  - pose proof (dom_pairs_update dominators node0 old _ Hold Hsub Hdiff).
    assert (size (todo ∖ {[node0]} ∪ list_to_set (next_cb node0)) ≤ size nodes).
    { apply subseteq_size. set_solver. }
    nia.
Qed.

Lemma dom_inv_final d n s x :
  dom_inv (next_rel next_cb) head nodes prev_cb d ∅ →
  d !! n = Some s → x ∈ s ↔ dom_rel (next_rel next_cb) head x n.
Proof.
  intros [Hdom Hhead Hwithin Habove Hshrink Hstable Htodo] Hs.
  split; [|by apply Habove].
  intros Hx p. revert n s x Hs Hx.
  induction p as [|m p IH] using rev_ind; intros n s x Hs Hx (Hh & Hl & Hc).
  { done. }
  rewrite last_snoc in Hl. injection Hl as ->.
  destruct (decide (n = head)) as [->|Hne].
  { assert (s = {[head]}) as -> by congruence.
    apply elem_of_singleton in Hx as ->.
    apply elem_of_app. right. left. }
  destruct (Hstable n s x Hne (not_elem_of_empty n) Hs Hx) as [->|Hall].
  { apply elem_of_app. right. left. }
  apply chain_snoc in Hc as [Hc Hlast].
  destruct (last p) as [m|] eqn:Hm; last first.
  { apply last_None in Hm as ->. by injection Hh as ->. }
  assert (path_rel (next_rel next_cb) head m p) as Hp.
  { split_and!; [|done..]. destruct p; [done|]. done. }
  assert (m ∈ nodes) as Hmn.
  { apply rtc_in_nodes, rtc_path_rel. eauto. }
  assert (is_Some (d !! m)) as [sm Hsm].
  { apply elem_of_dom. by rewrite Hdom. }
  apply elem_of_app. left. eapply IH; [exact Hsm| |done].
  eapply Hall; [|done..]. apply prev_next. by apply Hlast.
Qed.

(** The loop started as [_compute_generic_dominators] starts it. *)
Lemma dominators_loop_correct :
  ∃ d fuel0,
    (∀ fuel, fuel0 ≤ fuel →
       dominators_loop pop head nodes prev_cb next_cb fuel 0
         (<[head := {[head]}]> (gset_to_gmap nodes nodes)) nodes = Ret d) ∧
    dom d = nodes ∧
    (∀ n s x, d !! n = Some s → x ∈ s ↔ dom_rel (next_rel next_cb) head x n).
Proof.
  set (d0 := <[head := {[head]}]> (gset_to_gmap nodes nodes)).
  set (fuel0 := S (size (dom_pairs d0) * S (size nodes) + size nodes)).
  destruct (dominators_loop_spec fuel0 0 d0 nodes dom_inv_init)
    as (d & Hrun & Hinv); [unfold fuel0; lia|].
  exists d, fuel0. split_and!.
  - intros fuel Hfuel. rewrite <-Hrun.
    apply dominators_loop_fuel; [by rewrite Hrun|done].
  - by destruct Hinv.
  - intros n s x Hs. by eapply dom_inv_final.
Qed.

End dominators.

(** ** Dominators and postdominators of a graph *)

Section dominators_graph.
Context {node : Type} `{Countable node}.
Implicit Types (g : DiGraph node) (n h start : node).
Implicit Types (pop : nat → gset node → node).

Lemma _compute_generic_dominators_fuel pop_r pop_d fuel fuel' start
    (prev_cb next_cb : node → list node) :
  _compute_generic_dominators pop_d fuel start
    (λ h, _reachable_nodes pop_r fuel h next_cb) prev_cb next_cb ≠ OutOfFuel →
  fuel ≤ fuel' →
  _compute_generic_dominators pop_d fuel' start
    (λ h, _reachable_nodes pop_r fuel' h next_cb) prev_cb next_cb =
  _compute_generic_dominators pop_d fuel start
    (λ h, _reachable_nodes pop_r fuel h next_cb) prev_cb next_cb.
Proof.
  unfold _compute_generic_dominators, _reachable_nodes. intros Hrun Hle.
  rewrite (_reachable_nodes_loop_fuel pop_r next_cb fuel fuel'); [|by
    destruct (_reachable_nodes_loop pop_r next_cb fuel 0 {[start]} ∅)|done].
  destruct (_reachable_nodes_loop pop_r next_cb fuel 0 {[start]} ∅) as [l| |];
    simpl in *; try done.
  by apply dominators_loop_fuel.
Qed.

(** The generic algorithm on callbacks that are converse to each other and
    range over a finite set [U]. *)
Lemma _compute_generic_dominators_spec pop_r pop_d start
    (prev_cb next_cb : node → list node) (U : gset node) :
  pops pop_r → pops pop_d →
  start ∈ U → (∀ a b, a ∈ U → b ∈ next_cb a → b ∈ U) →
  (∀ a b, b ∈ next_cb a ↔ a ∈ prev_cb b) →
  ∃ d fuel0,
    (∀ fuel, fuel0 ≤ fuel →
       _compute_generic_dominators pop_d fuel start
         (λ h, _reachable_nodes pop_r fuel h next_cb) prev_cb next_cb = Ret d) ∧
    (∀ n, n ∈ dom d ↔ rtc (next_rel next_cb) start n) ∧
    (∀ n s x, d !! n = Some s → x ∈ s ↔ dom_rel (next_rel next_cb) start x n).
Proof.
  intros Hpop_r Hpop_d HU Hclosed Hconv.
  destruct (_reachable_nodes_spec pop_r next_cb Hpop_r U Hclosed start HU)
    as (l & Hl & _ & Hstart & Hreach).
  destruct (dominators_loop_correct pop_d start (list_to_set l) prev_cb next_cb)
    as (d & fuel0 & Hd & Hdom & Hchar); try done.
  - by apply elem_of_list_to_set.
  - intros a b Ha%elem_of_list_to_set Hb. apply elem_of_list_to_set.
    apply Hreach. eapply rtc_r; [by apply Hreach|done].
  - intros n Hn%elem_of_list_to_set. by apply Hreach.
  - exists d, (fuel0 `max` S (S (size U) * S (size U))). split_and!.
    + intros fuel Hfuel. unfold _compute_generic_dominators.
      rewrite Hl by lia. simpl. apply Hd. lia.
    + intros n. rewrite Hdom, elem_of_list_to_set. apply Hreach.
    + done.
Qed.

Lemma sync_next_successors g a b :
  sync g → next_rel (successors_iter g) a b ↔ edge_rel g a b.
Proof. intros Hsync. by apply (sync_successors g a b). Qed.

Lemma sync_next_predecessors g a b :
  sync g → next_rel (predecessors_iter g) a b ↔ edge_rel g b a.
Proof. intros Hsync. by apply (sync_predecessors g b a). Qed.

Lemma successors_in_range g a b :
  b ∈ successors_iter g a → b ∈ range_nodes (_nodes_succ g).
Proof.
  intros (l & ? & ?)%successors_elem_lookup. apply elem_of_range_nodes. eauto.
Qed.

Lemma predecessors_in_range g a b :
  b ∈ predecessors_iter g a → b ∈ range_nodes (_nodes_pred g).
Proof.
  intros (l & ? & ?)%predecessors_elem_lookup. apply elem_of_range_nodes. eauto.
Qed.

Lemma rtc_iff (R R' : node → node → Prop) a b :
  (∀ x y, R x y ↔ R' x y) → rtc R a b ↔ rtc R' a b.
Proof.
  intros HR. rewrite !rtc_path_rel.
  split; intros [p Hp]; exists p; by apply (path_rel_iff R R' _ _ _ HR).
Qed.

Lemma reachable_from_rtc g h n :
  sync g → reachable_from g h n ↔ rtc (next_rel (successors_iter g)) h n.
Proof.
  intros Hsync. unfold reachable_from, path_from_to. rewrite <-rtc_path_rel.
  apply rtc_iff. intros x y. symmetry. by apply sync_next_successors.
Qed.

Lemma coreachable_from_rtc g l n :
  sync g → coreachable_from g l n ↔ rtc (next_rel (predecessors_iter g)) l n.
Proof.
  intros Hsync. unfold coreachable_from, path_from_to.
  rewrite (rtc_iff _ (flip (edge_rel g)))
    by (intros x y; by apply sync_next_predecessors).
  rewrite rtc_path_rel. split; intros [p Hp]; exists (reverse p).
  - apply (proj2 (path_rel_reverse (flip (edge_rel g)) l n p)). exact Hp.
  - apply (proj2 (path_rel_reverse (edge_rel g) n l p)). exact Hp.
Qed.

Lemma dominates_dom_rel g h d n :
  sync g → dominates g h d n ↔ dom_rel (next_rel (successors_iter g)) h d n.
Proof.
  intros Hsync. apply dom_rel_iff. intros x y. symmetry.
  by apply sync_next_successors.
Qed.

Lemma postdominates_dom_rel g l d n :
  sync g → postdominates g l d n ↔ dom_rel (next_rel (predecessors_iter g)) l d n.
Proof.
  intros Hsync.
  rewrite (dom_rel_iff _ (flip (edge_rel g)))
    by (intros x y; by apply sync_next_predecessors).
  unfold postdominates, dom_rel, path_from_to. split; intros Hd p Hp.
  - apply elem_of_reverse. apply Hd.
    apply (proj2 (path_rel_reverse (edge_rel g) n l p)). exact Hp.
  - apply elem_of_reverse. apply Hd.
    apply (proj2 (path_rel_reverse (flip (edge_rel g)) l n p)). exact Hp.
Qed.

Lemma compute_dominators_spec g pop_r pop_d start :
  sync g → pops pop_r → pops pop_d →
  ∃ d fuel0,
    (∀ fuel, fuel0 ≤ fuel → compute_dominators pop_r pop_d fuel g start = Ret d) ∧
    (∀ n, n ∈ dom d ↔ rtc (next_rel (successors_iter g)) start n) ∧
    (∀ n s x, d !! n = Some s →
              x ∈ s ↔ dom_rel (next_rel (successors_iter g)) start x n).
Proof.
  intros Hsync Hpop_r Hpop_d.
  apply (_compute_generic_dominators_spec pop_r pop_d start
           (predecessors_iter g) (successors_iter g)
           ({[start]} ∪ range_nodes (_nodes_succ g))); try done.
  - set_solver.
  - intros a b _ Hb. apply elem_of_union_r. by eapply successors_in_range.
  - intros a b. rewrite (sync_successors g a b Hsync).
    by rewrite (sync_predecessors g a b Hsync).
Qed.

Lemma compute_postdominators_spec g pop_r pop_d start :
  sync g → pops pop_r → pops pop_d →
  ∃ d fuel0,
    (∀ fuel, fuel0 ≤ fuel → compute_postdominators pop_r pop_d fuel g start = Ret d) ∧
    (∀ n, n ∈ dom d ↔ rtc (next_rel (predecessors_iter g)) start n) ∧
    (∀ n s x, d !! n = Some s →
              x ∈ s ↔ dom_rel (next_rel (predecessors_iter g)) start x n).
Proof.
  intros Hsync Hpop_r Hpop_d.
  apply (_compute_generic_dominators_spec pop_r pop_d start
           (successors_iter g) (predecessors_iter g)
           ({[start]} ∪ range_nodes (_nodes_pred g))); try done.
  - set_solver.
  - intros a b _ Hb. apply elem_of_union_r. by eapply predecessors_in_range.
  - intros a b. rewrite (sync_successors g b a Hsync).
    by rewrite (sync_predecessors g b a Hsync).
Qed.

(** C1.  On a graph built by calls, for every node [head] and every [pop],
    [compute_dominators(head)] returns (with enough fuel) a mapping whose
    keys are exactly the nodes reachable from [head], and whose value at a
    key [n] is exactly the set of the nodes [d] that every path from [head]
    to [n] passes through; [n] and [head] are always in that set. *)
Theorem compute_dominators_correct g pop_r pop_d head :
  built g → pops pop_r → pops pop_d →
  ∃ doms fuel0,
    (∀ fuel, fuel0 ≤ fuel →
       compute_dominators pop_r pop_d fuel g head = Ret doms) ∧
    (∀ n, n ∈ dom doms ↔ reachable_from g head n) ∧
    (∀ n s, doms !! n = Some s →
       (∀ d, d ∈ s ↔ dominates g head d n) ∧ n ∈ s ∧ head ∈ s).
Proof.
  intros Hsync%built_wf%wf_sync Hpop_r Hpop_d.
  destruct (compute_dominators_spec g pop_r pop_d head Hsync Hpop_r Hpop_d)
    as (doms & fuel0 & Hrun & Hdom & Hchar).
  exists doms, fuel0. split_and!; [done| |].
  - intros n. by rewrite Hdom, reachable_from_rtc.
  - intros n s Hs.
    assert (∀ d, d ∈ s ↔ dominates g head d n) as Hs'.
    { intros d. by rewrite (Hchar n s d Hs), dominates_dom_rel. }
    split_and!; [done|..]; apply Hs'; intros p (Hh & Hl & _).
    + destruct p as [|x p] using rev_ind; [done|].
      rewrite last_snoc in Hl. injection Hl as ->. set_solver.
    + destruct p as [|x p]; [done|]. injection Hh as ->. left.
Qed.

(** C2.  On a graph [g] built by calls, and any graph [g'] built by calls
    whose edges are those of [g] reversed, [compute_postdominators(leaf)] on
    [g] and [compute_dominators(leaf)] on [g'] return the same mapping,
    whatever the [pop]s of the two runs. *)
Theorem compute_postdominators_mirror g g' pop_r pop_d pop_r' pop_d' leaf :
  built g → built g' → reversed g g' →
  pops pop_r → pops pop_d → pops pop_r' → pops pop_d' →
  ∃ doms fuel0,
    ∀ fuel, fuel0 ≤ fuel →
      compute_postdominators pop_r pop_d fuel g leaf = Ret doms ∧
      compute_dominators pop_r' pop_d' fuel g' leaf = Ret doms.
Proof.
  intros Hsync%built_wf%wf_sync Hsync'%built_wf%wf_sync Hrev ? ? ? ?.
  destruct (compute_postdominators_spec g pop_r pop_d leaf)
    as (d1 & fuel1 & Hrun1 & Hdom1 & Hchar1); try done.
  destruct (compute_dominators_spec g' pop_r' pop_d' leaf)
    as (d2 & fuel2 & Hrun2 & Hdom2 & Hchar2); try done.
  assert (∀ x y, next_rel (predecessors_iter g) x y ↔
                 next_rel (successors_iter g') x y) as HR.
  { intros x y. rewrite sync_next_predecessors, sync_next_successors by done.
    symmetry. apply Hrev. }
  assert (d1 = d2) as <-.
  { apply map_eq. intros n.
    destruct (d1 !! n) as [s1|] eqn:E1, (d2 !! n) as [s2|] eqn:E2.
    - f_equal. apply set_eq. intros x.
      rewrite (Hchar1 n s1 x E1), (Hchar2 n s2 x E2). by apply dom_rel_iff.
    - apply not_elem_of_dom in E2. destruct E2. apply Hdom2.
      apply (rtc_iff _ _ _ _ HR), Hdom1, elem_of_dom. eauto.
    - apply not_elem_of_dom in E1. destruct E1. apply Hdom1.
      apply (rtc_iff _ _ _ _ HR), Hdom2, elem_of_dom. eauto.
    - done. }
  exists d1, (fuel1 `max` fuel2). intros fuel Hfuel.
  split; [apply Hrun1|apply Hrun2]; lia.
Qed.

(** C3.  On a graph built by calls, whatever the start node, the [pop]s and
    the fuel, neither [compute_dominators] nor [compute_postdominators]
    raises: the assertion does not fail (and no key is missing).  Indeed a
    node reachable from the start node, other than it, has a predecessor
    that is reachable too; and a node that reaches the leaf, other than it,
    has a successor that reaches the leaf. *)
Theorem dominators_assertion_holds g pop_r pop_d start :
  built g → pops pop_r → pops pop_d →
  (∀ fuel e, compute_dominators pop_r pop_d fuel g start ≠ Raise e) ∧
  (∀ fuel e, compute_postdominators pop_r pop_d fuel g start ≠ Raise e) ∧
  (∀ n, reachable_from g start n → n ≠ start →
        ∃ p, p ∈ predecessors g n ∧ reachable_from g start p) ∧
  (∀ n, coreachable_from g start n → n ≠ start →
        ∃ s, s ∈ successors g n ∧ coreachable_from g start s).
Proof.
  intros Hsync%built_wf%wf_sync Hpop_r Hpop_d. split_and!.
  - intros fuel e Hraise.
    destruct (compute_dominators_spec g pop_r pop_d start Hsync Hpop_r Hpop_d)
      as (d & fuel0 & Hrun & _).
    specialize (Hrun (fuel `max` fuel0) ltac:(lia)).
    unfold compute_dominators, reachable_sons in *.
    rewrite (_compute_generic_dominators_fuel pop_r pop_d fuel) in Hrun;
      [congruence|by rewrite Hraise|lia].
  - intros fuel e Hraise.
    destruct (compute_postdominators_spec g pop_r pop_d start Hsync Hpop_r Hpop_d)
      as (d & fuel0 & Hrun & _).
    specialize (Hrun (fuel `max` fuel0) ltac:(lia)).
    unfold compute_postdominators, reachable_parents in *.
    rewrite (_compute_generic_dominators_fuel pop_r pop_d fuel) in Hrun;
      [congruence|by rewrite Hraise|lia].
  - intros n Hn Hne. apply reachable_from_rtc in Hn; [|done].
    apply rtc_inv_r in Hn as [->|(m & Hm & Hmn)]; [done|].
    exists m. split.
    + apply (sync_predecessors g m n Hsync). by apply (sync_successors g m n Hsync).
    + by apply reachable_from_rtc.
  - intros n Hn Hne. apply coreachable_from_rtc in Hn; [|done].
    apply rtc_inv_r in Hn as [->|(m & Hm & Hmn)]; [done|].
    exists m. split.
    + apply (sync_successors g n m Hsync). by apply (sync_predecessors g n m Hsync).
    + by apply coreachable_from_rtc.
Qed.

End dominators_graph.

(** The chain of the specification: each node is dominated by the nodes
    before it and by itself. *)
Example compute_dominators_chain :
  compute_dominators pop_max pop_min 40 graph_chain 0
  = Ret (list_to_map [(0, {[0]}); (1, {[0; 1]}); (2, {[0; 1; 2]});
                      (3, {[0; 1; 2; 3]})]).
Proof. by vm_compute. Qed.

(** The diamond of the specification: neither [1] nor [2] dominates [3]. *)
Example compute_dominators_diamond :
  omap (λ d, elements <$> d !! 3) (compute_dominators pop_min pop_max 40 graph_diamond 0)
  = Ret (Some [3; 0]).
Proof. by vm_compute. Qed.

Lemma graph_diamond_reversed : reversed graph_diamond graph_diamond_rev.
Proof.
  intros a b.
  change (edges graph_diamond_rev) with [(3, 2); (3, 1); (2, 0); (1, 0)].
  change (edges graph_diamond) with [(0, 1); (0, 2); (1, 3); (2, 3)].
  rewrite !elem_of_cons, !elem_of_nil. naive_solver.
Qed.

Lemma compute_dominators_correct_witness :
  ∃ doms fuel0,
    (∀ fuel, fuel0 ≤ fuel →
       compute_dominators pop_min pop_max fuel graph_diamond 0 = Ret doms) ∧
    (∀ n, n ∈ dom doms ↔ reachable_from graph_diamond 0 n) ∧
    (∀ n s, doms !! n = Some s →
       (∀ d, d ∈ s ↔ dominates graph_diamond 0 d n) ∧ n ∈ s ∧ 0 ∈ s).
Proof.
  apply (compute_dominators_correct graph_diamond pop_min pop_max 0).
  - apply built_build.
  - apply pop_min_pops.
  - apply pop_max_pops.
Defined.

Lemma compute_postdominators_mirror_witness :
  ∃ doms fuel0,
    ∀ fuel, fuel0 ≤ fuel →
      compute_postdominators pop_min pop_max fuel graph_diamond 3 = Ret doms ∧
      compute_dominators pop_max pop_min fuel graph_diamond_rev 3 = Ret doms.
Proof.
  apply (compute_postdominators_mirror graph_diamond graph_diamond_rev
           pop_min pop_max pop_max pop_min 3).
  - apply built_build.
  - apply built_build.
  - apply graph_diamond_reversed.
  - apply pop_min_pops.
  - apply pop_max_pops.
  - apply pop_max_pops.
  - apply pop_min_pops.
Defined.

Lemma dominators_assertion_holds_witness :
  (∀ fuel e, compute_dominators pop_min pop_max fuel graph_loop 0 ≠ Raise e) ∧
  (∀ fuel e, compute_postdominators pop_min pop_max fuel graph_loop 0 ≠ Raise e) ∧
  (∀ n, reachable_from graph_loop 0 n → n ≠ 0 →
        ∃ p, p ∈ predecessors graph_loop n ∧ reachable_from graph_loop 0 p) ∧
  (∀ n, coreachable_from graph_loop 0 n → n ≠ 0 →
        ∃ s, s ∈ successors graph_loop n ∧ coreachable_from graph_loop 0 s).
Proof.
  apply (dominators_assertion_holds graph_loop pop_min pop_max 0).
  - apply built_build.
  - apply pop_min_pops.
  - apply pop_max_pops.
Defined.

(** ** Path enumeration: [find_path] *)

Section ofor.
Context {A B : Type}.
Implicit Types (l : list A) (acc : B) (body : B → A → outcome B).

Lemma ofor_fuel l acc body body' :
  ofor l acc body ≠ OutOfFuel →
  (∀ acc x, x ∈ l → body acc x ≠ OutOfFuel → body' acc x = body acc x) →
  ofor l acc body' = ofor l acc body.
Proof.
  revert acc. induction l as [|x l IH]; intros acc Hrun Hbody; [done|].
  simpl in *. rewrite Hbody; [|left|by destruct (body acc x)].
  destruct (body acc x) as [acc'| |]; simpl in *; try done.
  apply IH; [done|]. intros acc0 y Hy. apply Hbody. by right.
Qed.

Lemma ofor_total l acc body :
  (∀ acc x, x ∈ l → ∃ acc', body acc x = Ret acc') →
  ∃ r, ofor l acc body = Ret r.
Proof.
  revert acc. induction l as [|x l IH]; intros acc Hbody; simpl; [eauto|].
  destruct (Hbody acc x) as [acc' ->]; [left|]. simpl.
  apply IH. intros acc0 y Hy. apply Hbody. by right.
Qed.

(** An invariant of the loop, told the elements already handled. *)
Lemma ofor_invariant (P : list A → B → Prop) l acc body r :
  P [] acc →
  (∀ l1 x l2 acc acc', l = l1 ++ x :: l2 → P l1 acc → body acc x = Ret acc' →
                        P (l1 ++ [x]) acc') →
  ofor l acc body = Ret r → P l r.
Proof.
  intros Hinit Hstep.
  assert (∀ l2 l1 acc, l = l1 ++ l2 → P l1 acc → ofor l2 acc body = Ret r → P l r)
    as Hgen.
  { induction l2 as [|x l2 IH]; intros l1 acc0 Hl HP Hrun.
    - simpl in Hrun. injection Hrun as <-. rewrite app_nil_r in Hl. by subst.
    - simpl in Hrun. destruct (body acc0 x) as [acc'| |] eqn:Hb; try done.
      simpl in Hrun. apply (IH (l1 ++ [x]) acc').
      + by rewrite <-app_assoc.
      + by eapply Hstep.
      + done. }
  by apply (Hgen l [] acc).
Qed.

End ofor.

Section find_path.
Context {node : Type} `{Countable node}.
Implicit Types (g : DiGraph node) (src dst n : node) (dn : gmap node Z).
Implicit Types (cycles_count : Z) (p : list node) (paths : list (list node)).

Lemma find_path_fuel fuel fuel' g src dst cycles_count dn :
  find_path fuel g src dst cycles_count dn ≠ OutOfFuel → fuel ≤ fuel' →
  find_path fuel' g src dst cycles_count dn =
  find_path fuel g src dst cycles_count dn.
Proof.
  revert fuel' dst dn.
  induction fuel as [|fuel IH]; intros fuel' dst dn; [done|].
  intros Hrun Hle. destruct fuel' as [|fuel']; [lia|]. simpl in *.
  destruct (over_budget dn dst cycles_count); [done|].
  destruct (decide (src = dst)); [done|].
  apply ofor_fuel; [done|]. intros out node0 _ Hbody.
  rewrite IH; [done| |lia].
  by destruct (find_path fuel g src node0 cycles_count (done_incr dn dst)).
Qed.

Lemma sum_list_fmap_le {X} (f f' : X → nat) (l : list X) :
  (∀ x, f' x ≤ f x) → sum_list (f' <$> l) ≤ sum_list (f <$> l).
Proof.
  intros Hle. induction l as [|x l IH]; csimpl; [done|].
  specialize (Hle x). lia.
Qed.

Lemma sum_list_fmap_lt {X} (f f' : X → nat) (l : list X) x0 :
  (∀ x, f' x ≤ f x) → x0 ∈ l → f' x0 < f x0 →
  sum_list (f' <$> l) < sum_list (f <$> l).
Proof.
  intros Hle Hx0 Hlt.
  induction l as [|x l IH]; [by apply elem_of_nil in Hx0|].
  pose proof (sum_list_fmap_le f f' l Hle) as Hweak.
  csimpl. apply elem_of_cons in Hx0 as [<-|Hx0].
  - lia.
  - specialize (IH Hx0). specialize (Hle x). lia.
Qed.

Lemma budget_left_incr cycles_count dn dst n :
  over_budget dn dst cycles_count = false →
  budget_left cycles_count (done_incr dn dst) n ≤ budget_left cycles_count dn n ∧
  (n = dst →
   budget_left cycles_count (done_incr dn dst) n < budget_left cycles_count dn n).
Proof.
  unfold over_budget, budget_left, done_incr. intros Hover.
  destruct (decide (n = dst)) as [->|Hne].
  - rewrite lookup_insert_eq. destruct (dn !! dst) as [c|]; simpl.
    + apply bool_decide_eq_false in Hover. lia.
    + lia.
  - rewrite lookup_insert_ne by done. split; [done|]. done.
Qed.

(** [find_path] returns: the budget left over the nodes of a set closed
    under [predecessors] bounds the depth of the recursion. *)
Lemma find_path_total g src cycles_count (U : gset node) fuel dst dn :
  (∀ a b, a ∈ U → b ∈ predecessors g a → b ∈ U) → dst ∈ U →
  sum_list (budget_left cycles_count dn <$> elements U) < fuel →
  ∃ paths, find_path fuel g src dst cycles_count dn = Ret paths.
Proof.
  intros Hclosed. revert dst dn.
  induction fuel as [|fuel IH]; intros dst dn Hdst Hfuel; [lia|].
  simpl. destruct (over_budget dn dst cycles_count) eqn:Hover; [eauto|].
  destruct (decide (src = dst)); [eauto|].
  apply ofor_total. intros out node0 Hnode0.
  destruct (IH node0 (done_incr dn dst)) as [paths ->]; [by eapply Hclosed| |].
  - assert (sum_list (budget_left cycles_count (done_incr dn dst) <$> elements U)
            < sum_list (budget_left cycles_count dn <$> elements U)); [|lia].
    apply (sum_list_fmap_lt _ _ _ dst).
    + intros x. by apply budget_left_incr.
    + by apply elem_of_elements.
    + by apply budget_left_incr.
  - simpl. eauto.
Qed.

Lemma find_path_returns g src dst cycles_count dn :
  ∃ paths fuel0, ∀ fuel, fuel0 ≤ fuel →
    find_path fuel g src dst cycles_count dn = Ret paths.
Proof.
  set (U := {[dst]} ∪ range_nodes (_nodes_pred g)).
  set (fuel0 := S (sum_list (budget_left cycles_count dn <$> elements U))).
  destruct (find_path_total g src cycles_count U fuel0 dst dn) as [paths Hrun].
  - intros a b _ Hb. apply elem_of_union_r.
    apply predecessors_elem_lookup in Hb as (l & ? & ?).
    apply elem_of_range_nodes. eauto.
  - set_solver.
  - unfold fuel0. lia.
  - exists paths, fuel0. intros fuel Hfuel. rewrite <-Hrun.
    apply find_path_fuel; [by rewrite Hrun|done].
Qed.

End find_path.

Section find_path_paths.
Context {node : Type} `{Countable node}.
Implicit Types (g : DiGraph node) (src dst n : node) (dn : gmap node Z).
Implicit Types (cycles_count : Z) (p q : list node) (paths : list (list node)).

Lemma starts_at_head src p : starts_at src p → head p = Some src.
Proof. unfold starts_at. apply bool_decide_unpack. Qed.

(** What one round of the loop over the predecessors adds. *)
Lemma find_path_body_Ret fuel g src dst cycles_count dn out node0 out' :
  obind (find_path fuel g src node0 cycles_count (done_incr dn dst))
    (λ paths, Ret (out ++ ((λ path, path ++ [dst]) <$>
                           filter (λ path, starts_at src path) paths))) = Ret out' →
  ∃ paths, find_path fuel g src node0 cycles_count (done_incr dn dst) = Ret paths ∧
           out' = out ++ ((λ path, path ++ [dst]) <$>
                          filter (λ path, starts_at src path) paths).
Proof.
  destruct (find_path fuel g src node0 cycles_count (done_incr dn dst))
    as [paths| |]; simpl; [|done..].
  intros [= <-]. eauto.
Qed.

(** A returned sequence is the pruning marker [[]], returned by a call that
    is over its budget, or a path from [src] to [dst]. *)
Lemma find_path_sound fuel g src dst cycles_count dn paths p :
  sync g → find_path fuel g src dst cycles_count dn = Ret paths → p ∈ paths →
  (p = [] ∧ over_budget dn dst cycles_count = true) ∨ path_from_to g src dst p.
Proof.
  intros Hsync. revert dst dn paths p.
  induction fuel as [|fuel IH]; intros dst dn paths p; [done|]. simpl.
  destruct (over_budget dn dst cycles_count) eqn:Hover.
  { intros [= <-] ->%list_elem_of_singleton. by left. }
  destruct (decide (src = dst)) as [<-|Hne].
  { intros [= <-] ->%list_elem_of_singleton. right. apply path_rel_refl. }
  intros Hrun Hp. right. revert p Hp.
  eapply (ofor_invariant (λ _ out, ∀ p, p ∈ out → path_from_to g src dst p));
    [by intros ? ?%elem_of_nil| |exact Hrun].
  intros l1 x l2 out out' Hl Hout (paths0 & Hrun0 & ->)%find_path_body_Ret p.
  intros [Hp|Hp]%elem_of_app; [by apply Hout|].
  apply list_elem_of_fmap in Hp as (q & -> & [Hq Hin]%list_elem_of_filter).
  apply starts_at_head in Hq.
  destruct (IH _ _ _ _ Hrun0 Hin) as [[-> _]|Hpath]; [done|].
  eapply path_rel_snoc; [exact Hpath|].
  apply (sync_predecessors g x dst Hsync). rewrite Hl.
  apply elem_of_app. right. left.
Qed.

Lemma NoDup_pred_of_edges (es : list (node * node)) b :
  NoDup es → NoDup (pred_of_edges es b).
Proof.
  induction 1 as [|[a' b'] es Hn Hnd IH]; [constructor|].
  rewrite pred_of_edges_cons. destruct (decide (b' = b)) as [->|?]; [|done].
  constructor; [|done]. by rewrite elem_of_pred_of_edges.
Qed.

(** Without parallel edges no path is returned twice. *)
Lemma find_path_NoDup fuel g src dst cycles_count dn paths :
  sync g → NoDup (edges g) →
  find_path fuel g src dst cycles_count dn = Ret paths → NoDup paths.
Proof.
  intros Hsync Hnd. revert dst dn paths.
  induction fuel as [|fuel IH]; intros dst dn paths; [done|]. simpl.
  destruct (over_budget dn dst cycles_count) eqn:Hover.
  { intros [= <-]. apply NoDup_singleton. }
  destruct (decide (src = dst)) as [<-|Hne].
  { intros [= <-]. apply NoDup_singleton. }
  intros Hrun.
  assert (NoDup (predecessors g dst)) as Hpreds.
  { destruct Hsync as [_ ->]. by apply NoDup_pred_of_edges. }
  cut (NoDup paths ∧
       ∀ p, p ∈ paths → ∃ q x, p = q ++ [dst] ∧ x ∈ predecessors g dst ∧
                               last q = Some x); [tauto|].
  eapply (ofor_invariant
           (λ l1 out, NoDup out ∧
              ∀ p, p ∈ out → ∃ q x, p = q ++ [dst] ∧ x ∈ l1 ∧ last q = Some x));
    [split; [constructor|by intros ? ?%elem_of_nil]| |exact Hrun].
  intros l1 x l2 out out' Hl [Hout Hlast] (paths0 & Hrun0 & ->)%find_path_body_Ret.
  assert (∀ q, q ∈ filter (λ path, starts_at src path) paths0 → last q = Some x)
    as Hnew.
  { intros q [Hq Hin]%list_elem_of_filter. apply starts_at_head in Hq.
    destruct (find_path_sound _ _ _ _ _ _ _ _ Hsync Hrun0 Hin)
      as [[-> _]|(_ & ? & _)]; done. }
  split.
  - apply NoDup_app. split_and!.
    + done.
    + intros p Hp (q & -> & Hq)%list_elem_of_fmap.
      destruct (Hlast _ Hp) as (q' & x' & Heq & Hx' & Hq').
      apply app_inj_tail in Heq as [-> _]. rewrite (Hnew _ Hq) in Hq'.
      injection Hq' as <-. rewrite Hl in Hpreds.
      apply NoDup_app in Hpreds as (_ & Hdisj & _).
      apply (Hdisj x Hx'). left.
    + apply NoDup_fmap_2; [|by apply NoDup_filter, (IH _ _ _ Hrun0)].
      intros q1 q2 Heq. by apply app_inj_tail in Heq as [-> _].
  - intros p [Hp|(q & -> & Hq)%list_elem_of_fmap]%elem_of_app.
    + destruct (Hlast _ Hp) as (q & x' & -> & Hx' & Hq).
      exists q, x'. split_and!; [done| |done]. apply elem_of_app. by left.
    + exists q, x. split_and!; [done| |by apply Hnew].
      apply elem_of_app. right. left.
Qed.

(** With a budget of [0] a returned path visits no node twice, and no node
    counted in [done]. *)
Lemma find_path_simple fuel g src dst dn paths p :
  (∀ n c, dn !! n = Some c → (0 < c)%Z) →
  find_path fuel g src dst 0 dn = Ret paths → p ∈ paths →
  NoDup p ∧ ∀ n, n ∈ p → dn !! n = None.
Proof.
  revert dst dn paths p.
  induction fuel as [|fuel IH]; intros dst dn paths p Hpos; [done|]. simpl.
  destruct (over_budget dn dst 0) eqn:Hover.
  { intros [= <-] ->%list_elem_of_singleton.
    split; [constructor|by intros ? ?%elem_of_nil]. }
  assert (dn !! dst = None) as Hdst.
  { unfold over_budget in Hover. destruct (dn !! dst) as [c|] eqn:E; [|done].
    apply bool_decide_eq_false in Hover. apply Hpos in E. lia. }
  destruct (decide (src = dst)) as [<-|Hne].
  { intros [= <-] ->%list_elem_of_singleton.
    split; [apply NoDup_singleton|]. by intros n ->%list_elem_of_singleton. }
  intros Hrun Hp. revert p Hp.
  eapply (ofor_invariant
           (λ _ out, ∀ p, p ∈ out → NoDup p ∧ ∀ n, n ∈ p → dn !! n = None));
    [by intros ? ?%elem_of_nil| |exact Hrun].
  intros l1 x l2 out out' Hl Hout (paths0 & Hrun0 & ->)%find_path_body_Ret p.
  intros [Hp|Hp]%elem_of_app; [by apply Hout|].
  apply list_elem_of_fmap in Hp as (q & -> & [_ Hin]%list_elem_of_filter).
  destruct (IH x (done_incr dn dst) paths0 q) as [Hnd Hnone]; [|done|done|].
  { intros n c. unfold done_incr. rewrite lookup_insert.
    destruct (decide (dst = n)) as [<-|?]; [|by apply Hpos].
    rewrite Hdst. simpl. intros [= <-]. lia. }
  assert (dst ∉ q) as Hdq.
  { intros Hd%Hnone. unfold done_incr in Hd. by rewrite lookup_insert_eq in Hd. }
  split.
  - apply NoDup_app. split_and!; [done| |apply NoDup_singleton].
    intros n Hn ->%list_elem_of_singleton. done.
  - intros n [Hn| ->%list_elem_of_singleton]%elem_of_app; [|done].
    specialize (Hnone n Hn). unfold done_incr in Hnone.
    rewrite lookup_insert_ne in Hnone; [done|]. by intros <-.
Qed.

End find_path_paths.

Section find_path_budget.
Context {node : Type} `{Countable node}.
Implicit Types (g : DiGraph node) (src dst n : node) (dn : gmap node Z).
Implicit Types (cycles_count : Z) (p q : list node) (paths : list (list node)).
Implicit Types (frames : list (node * gmap node Z)).

Lemma visits_snoc n frames (fr : node * gmap node Z) :
  visits n (frames ++ [fr]) = visits n frames + (if decide (fr.1 = n) then 1 else 0).
Proof.
  unfold visits. rewrite filter_app, length_app, filter_cons, filter_nil.
  by destruct (decide (fr.1 = n)).
Qed.

Lemma occurrences_snoc n p m :
  occurrences n (p ++ [m]) = occurrences n p + (if decide (m = n) then 1 else 0).
Proof.
  unfold occurrences. rewrite filter_app, length_app, filter_cons, filter_nil.
  by destruct (decide (m = n)).
Qed.

(** Along a branch, [done] counts the earlier calls on each node, and no
    node has had more calls than the budget allows to go through. *)
Lemma find_path_branch_done g src dst cycles_count frames fr :
  find_path_branch g src dst cycles_count (frames ++ [fr]) →
  (∀ n, match fr.2 !! n with
        | None => visits n frames = 0
        | Some c => c = Z.of_nat (visits n frames) ∧ 0 < visits n frames
        end) ∧
  (∀ n, visits n frames ≤ S (Z.to_nat cycles_count)).
Proof.
  revert fr. induction frames as [|fr0 frames IH] using rev_ind; intros fr [Hh Hc].
  - simpl in Hh. injection Hh as ->. simpl. split; intros n.
    + by rewrite lookup_empty.
    + unfold visits. simpl. lia.
  - apply chain_snoc in Hc as [Hc Hcall].
    destruct (IH fr0) as [Hdone Hbound].
    { split; [|done]. rewrite <-Hh. by destruct frames. }
    destruct (Hcall fr0) as (Hover & _ & _ & Hfr); [by rewrite last_snoc|].
    assert (∀ n, visits n (frames ++ [fr0]) =
                 visits n frames + (if decide (fr0.1 = n) then 1 else 0)) as Hv
      by (intros; apply visits_snoc).
    unfold over_budget in Hover. split; intros n; rewrite Hv.
    + rewrite Hfr. unfold done_incr. rewrite lookup_insert.
      specialize (Hdone n). destruct (decide (fr0.1 = n)) as [<-|Hne].
      * destruct (fr0.2 !! fr0.1) as [c|]; simpl; lia.
      * destruct (fr0.2 !! n); lia.
    + specialize (Hdone n). specialize (Hbound n).
      destruct (decide (fr0.1 = n)) as [<-|Hne]; [|lia].
      destruct (fr0.2 !! fr0.1) as [c|]; [|lia].
      apply bool_decide_eq_false in Hover. lia.
Qed.

Lemma find_path_branch_visits g src dst cycles_count frames n :
  find_path_branch g src dst cycles_count frames →
  visits n frames ≤ Z.to_nat cycles_count + 2.
Proof.
  destruct frames as [|fr frames _] using rev_ind; [by intros [? _]|].
  intros [_ Hbound]%find_path_branch_done. rewrite visits_snoc.
  specialize (Hbound n). destruct (decide (fr.1 = n)); lia.
Qed.

(** A call over its budget returns the marker at once. *)
Lemma find_path_pruned fuel g src dst cycles_count dn :
  over_budget dn dst cycles_count = true →
  find_path (S fuel) g src dst cycles_count dn = Ret [[]].
Proof. intros Hover. simpl. by rewrite Hover. Qed.

(** Every path within the budget is returned. *)
Lemma find_path_complete fuel g src dst cycles_count dn paths p :
  sync g → (0 ≤ cycles_count)%Z →
  find_path fuel g src dst cycles_count dn = Ret paths →
  path_from_to g src dst p → src ∉ tail p →
  (∀ n, n ∈ p →
        (default 0 (dn !! n) + Z.of_nat (occurrences n p) ≤ cycles_count + 1)%Z) →
  p ∈ paths.
Proof.
  intros Hsync Hcc. revert dst dn paths p.
  induction fuel as [|fuel IH]; intros dst dn paths p; [done|]. simpl.
  intros Hrun (Hh & Hl & Hc) Htail Hbudget.
  destruct p as [|m q _] using rev_ind; [done|].
  rewrite last_snoc in Hl. injection Hl as ->.
  assert (over_budget dn dst cycles_count = false) as Hover.
  { unfold over_budget. destruct (dn !! dst) as [c|] eqn:E; [|done].
    apply bool_decide_eq_false. specialize (Hbudget dst).
    rewrite E, occurrences_snoc, decide_True in Hbudget by done. simpl in Hbudget.
    assert (dst ∈ q ++ [dst]) by (apply elem_of_app; right; left).
    specialize (Hbudget ltac:(done)). lia. }
  rewrite Hover in Hrun. destruct (decide (src = dst)) as [<-|Hne].
  { injection Hrun as <-. destruct q as [|a q]; [left|].
    destruct Htail. simpl. apply elem_of_app. right. left. }
  destruct (last q) as [x|] eqn:Hx; last first.
  { apply last_None in Hx as ->. by injection Hh as ->. }
  apply chain_snoc in Hc as [Hc Hedge]. specialize (Hedge x Hx).
  assert (x ∈ predecessors g dst) as Hpred
    by by apply (sync_predecessors g x dst Hsync).
  assert (head q = Some src) as Hhq by (by destruct q).
  cut (∃ paths0,
         find_path fuel g src x cycles_count (done_incr dn dst) = Ret paths0 ∧
         ∀ q, q ∈ paths0 → starts_at src q → q ++ [dst] ∈ paths).
  { intros (paths0 & Hrun0 & Hin). apply Hin; [|by apply bool_decide_pack].
    apply (IH x (done_incr dn dst)); [done|by split_and!| |].
    - intros Hs. apply Htail. destruct q; [done|]. simpl in *.
      apply elem_of_app. by left.
    - intros n Hn. specialize (Hbudget n). rewrite occurrences_snoc in Hbudget.
      unfold done_incr. rewrite lookup_insert.
      assert (n ∈ q ++ [dst]) as Hn' by (apply elem_of_app; by left).
      specialize (Hbudget Hn').
      destruct (decide (dst = n)) as [<-|?]; simpl; lia. }
  clear Hx Hedge. revert x Hpred.
  eapply (ofor_invariant
           (λ l1 out, ∀ x, x ∈ l1 → ∃ paths0,
              find_path fuel g src x cycles_count (done_incr dn dst) = Ret paths0 ∧
              ∀ q, q ∈ paths0 → starts_at src q → q ++ [dst] ∈ out));
    [by intros ? ?%elem_of_nil| |exact Hrun].
  intros l1 y l2 out out' Hl Hout (paths0 & Hrun0 & ->)%find_path_body_Ret x.
  intros [Hx|Hx%list_elem_of_singleton]%elem_of_app; [|subst x].
  - destruct (Hout x Hx) as (paths1 & Hrun1 & Hin). exists paths1. split; [done|].
    intros q0 Hq0 Hs. apply elem_of_app. left. by apply Hin.
  - exists paths0. split; [done|]. intros q0 Hq0 Hs. apply elem_of_app. right.
    apply list_elem_of_fmap. exists q0. split; [done|].
    by apply list_elem_of_filter.
Qed.

(** C6.  On every graph in which a node [n] has a self-loop,
    [find_path(src, dst, cycles_count=0)] returns.  Along any branch of its
    recursion there are at most two calls on [n], the visit and one revisit:
    a call on a node already counted in [done] returns the marker without
    recursing.  No returned path holds a node twice. *)
Theorem find_path_self_loop g src dst n :
  n ∈ predecessors g n →
  (∃ paths fuel0,
     (∀ fuel, fuel0 ≤ fuel → find_path fuel g src dst 0 ∅ = Ret paths) ∧
     ∀ p, p ∈ paths → NoDup p) ∧
  (∀ frames, find_path_branch g src dst 0 frames → visits n frames ≤ 2) ∧
  (∀ fuel dn c, dn !! n = Some c → (0 < c)%Z →
                find_path (S fuel) g src n 0 dn = Ret [[]]).
Proof.
  intros _. split_and!.
  - destruct (find_path_returns g src dst 0 ∅) as (paths & fuel0 & Hrun).
    exists paths, fuel0. split; [done|]. intros p Hp.
    eapply (find_path_simple fuel0 g src dst ∅); [|by apply Hrun|done].
    intros m c. by rewrite lookup_empty.
  - intros frames Hbranch.
    by apply (find_path_branch_visits g src dst 0 frames n).
  - intros fuel dn c Hc Hpos. apply find_path_pruned.
    unfold over_budget. rewrite Hc. by apply bool_decide_eq_true.
Qed.

End find_path_budget.

(** C5, as stated, fails on parallel edges: the same path is returned once
    for each of them. *)
Lemma find_path_repeats :
  find_path 3 graph_parallel 0 1 0 ∅ = Ret [[0; 1]; [0; 1]] ∧
  ¬ NoDup [[0; 1]; [0; 1]].
Proof.
  split; [by vm_compute|]. intros Hnd. apply NoDup_cons in Hnd as [Hn _].
  apply Hn. left.
Qed.

Lemma find_path_self_loop_witness :
  (∃ paths fuel0,
     (∀ fuel, fuel0 ≤ fuel → find_path fuel graph_loop 0 2 0 ∅ = Ret paths) ∧
     ∀ p, p ∈ paths → NoDup p) ∧
  (∀ frames, find_path_branch graph_loop 0 2 0 frames → visits 1 frames ≤ 2) ∧
  (∀ fuel dn c, dn !! 1 = Some c → (0 < c)%Z →
                find_path (S fuel) graph_loop 0 1 0 dn = Ret [[]]).
Proof.
  apply (find_path_self_loop graph_loop 0 2 1).
  apply (bool_decide_unpack _). by vm_compute.
Defined.

(** * Further properties of the storage *)

Section storage.
Context {node : Type} `{Countable node}.
Implicit Types (g : DiGraph node) (a b n src dst : node).

(** X1.  On a graph built by calls the two indices list the edges, in the order
    of the edge list; both ends of an edge are nodes; a node has an entry in
    both indices; and a value that is not a node has no successor and no
    predecessor. *)
Theorem built_invariants g :
  built g →
  (∀ a, successors g a = succ_of_edges (edges g) a) ∧
  (∀ b, predecessors g b = pred_of_edges (edges g) b) ∧
  (∀ a b, (a, b) ∈ edges g → a ∈ nodes g ∧ b ∈ nodes g) ∧
  (∀ n, n ∈ nodes g →
        is_Some (_nodes_succ g !! n) ∧ is_Some (_nodes_pred g !! n)) ∧
  (∀ n, n ∉ nodes g → successors g n = [] ∧ predecessors g n = []).
Proof.
  intros [[Hs Hp] Hks Hkp He]%built_wf. split_and!; [done..| |].
  - intros n Hn. split; [by apply Hks|by apply Hkp].
  - intros n Hn. rewrite Hs, Hp. split.
    + apply succ_of_edges_nil. intros b Hb. by apply He in Hb as [? ?].
    + apply pred_of_edges_nil. intros a Ha. by apply He in Ha as [? ?].
Qed.

(** X2.  On a graph built by calls [add_edge(src, dst)] returns; it appends the
    edge to the edge list even when it is there already, [dst] to the
    successors of [src] and [src] to the predecessors of [dst], makes both
    nodes, and leaves the other lists as they are. *)
Theorem add_edge_appends g src dst :
  built g →
  ∃ g', add_edge src dst g = (Ret tt, g') ∧
        edges g' = edges g ++ [(src, dst)] ∧
        nodes g' = {[src; dst]} ∪ nodes g ∧
        (∀ a, successors g' a =
              if decide (a = src) then successors g a ++ [dst] else successors g a) ∧
        (∀ b, predecessors g' b =
              if decide (b = dst) then predecessors g b ++ [src]
              else predecessors g b).
Proof.
  intros Hwf%built_wf.
  destruct (add_edge_spec g src dst Hwf) as (g' & Hrun & Hwf' & He & Hn).
  exists g'. split_and!; [done..| |].
  - intros a. rewrite (proj1 (wf_sync _ Hwf')), (proj1 (wf_sync _ Hwf)), He.
    rewrite succ_of_edges_app, succ_of_edges_cons.
    destruct (decide (a = src)) as [->|?].
    + by rewrite decide_True.
    + rewrite decide_False by done. by rewrite app_nil_r.
  - intros b. rewrite (proj2 (wf_sync _ Hwf')), (proj2 (wf_sync _ Hwf)), He.
    rewrite pred_of_edges_app, pred_of_edges_cons.
    destruct (decide (b = dst)) as [->|?].
    + by rewrite decide_True.
    + rewrite decide_False by done. by rewrite app_nil_r.
Qed.

Lemma add_uniq_edge_cases g src dst :
  wf g →
  ((src, dst) ∈ edges g → add_uniq_edge src dst g = (Ret tt, g)) ∧
  ((src, dst) ∉ edges g → add_uniq_edge src dst g = add_edge src dst g).
Proof.
  intros Hwf. pose proof (sync_successors g src dst (wf_sync _ Hwf)) as Hs.
  unfold successors, successors_iter in Hs.
  unfold add_uniq_edge, mbind, M_bind, mget. simpl.
  destruct (_nodes_succ g !! src) as [l|].
  - destruct (decide (dst ∈ l)); split; try done; tauto.
  - split; [|done]. intros Hin%Hs. by apply elem_of_nil in Hin.
Qed.

(** X3.  On a graph built by calls [add_uniq_edge(src, dst)] returns.  It leaves
    the graph as it is when the edge is there, and is [add_edge] otherwise;
    afterwards the edge is there, and a second [add_uniq_edge(src, dst)]
    changes nothing: an edge absent before is in the edge list once. *)
Theorem add_uniq_edge_once g src dst :
  built g →
  ∃ g', add_uniq_edge src dst g = (Ret tt, g') ∧
        ((src, dst) ∈ edges g → g' = g) ∧
        ((src, dst) ∉ edges g →
         add_edge src dst g = (Ret tt, g') ∧ edges g' = edges g ++ [(src, dst)]) ∧
        (src, dst) ∈ edges g' ∧
        add_uniq_edge src dst g' = (Ret tt, g').
Proof.
  intros Hwf%built_wf. destruct (add_uniq_edge_cases g src dst Hwf) as [Hin Hout].
  destruct (decide ((src, dst) ∈ edges g)) as [He|He].
  - exists g. rewrite Hin by done. by split_and!.
  - destruct (add_edge_spec g src dst Hwf) as (g' & Hrun & Hwf' & He' & _).
    assert ((src, dst) ∈ edges g') as Hin'.
    { rewrite He', elem_of_app, list_elem_of_singleton. by right. }
    exists g'. rewrite Hout by done. split_and!; try done.
    by apply (add_uniq_edge_cases g' src dst Hwf').
Qed.

Lemma run_keeps_uniq (c : call node) g :
  keeps_uniq c → wf g → NoDup (edges g) → NoDup (edges (run c g).2).
Proof.
  intros Hc Hwf Hnd. destruct c as [n|n|src dst|src dst|src dst]; simpl.
  - destruct (add_node_spec g n Hwf) as (g' & Hr & _ & He & _).
    rewrite Hr. simpl. by rewrite He.
  - destruct (del_node_spec g n Hwf) as (g' & Hr & _ & _ & He).
    rewrite Hr. simpl. rewrite He. by do 2 apply NoDup_filter.
  - done.
  - destruct (add_uniq_edge_cases g src dst Hwf) as [Hin Hout].
    destruct (decide ((src, dst) ∈ edges g)) as [He|He].
    + by rewrite Hin.
    + rewrite Hout by done.
      destruct (add_edge_spec g src dst Hwf) as (g' & Hr & _ & He' & _).
      rewrite Hr. simpl. rewrite He'.
      apply NoDup_app. split_and!; [done| |apply NoDup_singleton].
      by intros e ? ->%list_elem_of_singleton.
  - destruct (list_remove (src, dst) (edges g)) as [es|] eqn:Hrem.
    + destruct (del_edge_present g src dst es (wf_sync _ Hwf) Hrem)
        as (ls & lp & _ & _ & _ & _ & ->). simpl. unfold edges. simpl.
      apply list_remove_Some in Hrem as (l1 & l2 & Hl & -> & _).
      rewrite Hl in Hnd. apply NoDup_app in Hnd as (? & Hdisj & [_ ?]%NoDup_cons).
      apply NoDup_app. split_and!; [done| |done].
      intros e He1 He2. apply (Hdisj e He1). by right.
    + apply list_remove_None in Hrem. by rewrite del_edge_absent.
Qed.

(** X4.  A graph built without [add_edge] (edges come from [add_uniq_edge] only)
    has no parallel edges: no edge is twice in the edge list, and no node is
    twice in a successor or predecessor list. *)
Theorem uniq_calls_no_parallel (cs : list (call node)) :
  Forall keeps_uniq cs →
  NoDup (edges (build cs)) ∧
  ∀ n, NoDup (successors (build cs) n) ∧ NoDup (predecessors (build cs) n).
Proof.
  intros Hcs.
  assert (wf (build cs) ∧ NoDup (edges (build cs))) as [Hwf Hnd].
  { unfold build.
    assert (wf (init (node := node)) ∧ NoDup (edges (init (node := node))))
      as Hinit by (split; [apply wf_init|constructor]).
    revert Hinit. generalize (init (node := node)).
    induction Hcs as [|c cs Hc _ IH]; intros g [Hwf Hnd]; [done|]. simpl.
    apply IH. split; [by apply run_wf|by apply run_keeps_uniq]. }
  split; [done|]. intros n. destruct (wf_sync _ Hwf) as [-> ->]. split.
  - clear Hwf. induction Hnd as [|[a b] es Hn Hnd IH]; [constructor|].
    rewrite succ_of_edges_cons. destruct (decide (a = n)) as [->|?]; [|done].
    constructor; [|done]. by rewrite elem_of_succ_of_edges.
  - by apply NoDup_pred_of_edges.
Qed.

Lemma del_node_keys g n :
  wf g →
  ∃ g', del_node n g = (Ret tt, g') ∧
        dom (_nodes_succ g') = dom (_nodes_succ g) ∧
        dom (_nodes_pred g') = dom (_nodes_pred g).
Proof.
  intros [Hsync _ _ _].
  set (g0 := mkDiGraph (_nodes g ∖ {[n]}) (_edges g) (_nodes_succ g) (_nodes_pred g)).
  assert (nodes_discard n g = (Ret tt, g0)) as Hdisc.
  { unfold nodes_discard. destruct (decide (n ∈ _nodes g)) as [?|Hn]; [done|].
    unfold g0. destruct g as [ns es s p]. simpl in *. do 2 f_equal. set_solver. }
  assert (sync g0) as Hsync0 by exact Hsync.
  destruct (del_node_preds_loop n _ g0 Hsync0 eq_refl)
    as (g1 & Hrun1 & Hsync1 & _ & Hds1 & Hdp1 & _).
  destruct (del_node_succs_loop n _ g1 Hsync1 eq_refl)
    as (g2 & Hrun2 & _ & _ & Hds2 & Hdp2 & _).
  exists g2. split_and!.
  - unfold del_node, mbind, M_bind, mget. rewrite Hdisc. simpl.
    rewrite Hrun1. simpl. by rewrite Hrun2.
  - by rewrite Hds2, Hds1.
  - by rewrite Hdp2, Hdp1.
Qed.

(** X5.  On a graph built by calls [del_node(n)] removes no key from the two
    indices: a node that is deleted keeps its entries, which are then the
    empty list. *)
Theorem del_node_keeps_keys g n :
  built g →
  ∃ g', del_node n g = (Ret tt, g') ∧
        dom (_nodes_succ g') = dom (_nodes_succ g) ∧
        dom (_nodes_pred g') = dom (_nodes_pred g) ∧
        (n ∈ nodes g →
         _nodes_succ g' !! n = Some [] ∧ _nodes_pred g' !! n = Some []).
Proof.
  intros Hwf%built_wf.
  destruct (del_node_keys g n Hwf) as (g' & Hrun & Hds & Hdp).
  destruct (del_node_spec g n Hwf) as (g'' & Hrun' & Hwf' & Hn' & He').
  assert (g'' = g') as -> by congruence.
  exists g'. split_and!; [done..|]. intros Hn.
  destruct (wf_keys_succ _ Hwf n Hn) as [ls Hls].
  destruct (wf_keys_pred _ Hwf n Hn) as [lp Hlp].
  assert (is_Some (_nodes_succ g' !! n)) as [ls' Hls'].
  { apply elem_of_dom. rewrite Hds. apply elem_of_dom. eauto. }
  assert (is_Some (_nodes_pred g' !! n)) as [lp' Hlp'].
  { apply elem_of_dom. rewrite Hdp. apply elem_of_dom. eauto. }
  assert (∀ a b, (a, b) ∈ edges g' → a ≠ n ∧ b ≠ n) as Hno.
  { intros a b. rewrite He', !list_elem_of_filter. simpl. tauto. }
  destruct (wf_sync _ Hwf') as [Hs Hp].
  specialize (Hs n). specialize (Hp n).
  rewrite (successors_Some _ _ _ Hls') in Hs.
  rewrite (predecessors_Some _ _ _ Hlp') in Hp.
  rewrite Hls', Hlp', Hs, Hp. split; f_equal.
  - apply succ_of_edges_nil. intros b Hb. by apply Hno in Hb as [? _].
  - apply pred_of_edges_nil. intros a Ha. by apply Hno in Ha as [_ ?].
Qed.

(** X6.  On a graph built by calls, [add_node(n)] of a value that is not a node
    followed by [del_node(n)] gives back the node set, the edge list and
    every successor and predecessor list. *)
Theorem add_node_del_node g n :
  built g → n ∉ nodes g →
  ∃ g1 g2, add_node n g = (Ret tt, g1) ∧ del_node n g1 = (Ret tt, g2) ∧
           nodes g2 = nodes g ∧ edges g2 = edges g ∧
           ∀ m, successors g2 m = successors g m ∧
                predecessors g2 m = predecessors g m.
Proof.
  intros Hwf%built_wf Hn.
  destruct (add_node_spec g n Hwf) as (g1 & Hrun1 & Hwf1 & He1 & Hn1).
  destruct (del_node_spec g1 n Hwf1) as (g2 & Hrun2 & Hwf2 & Hn2 & He2).
  assert (edges g2 = edges g) as Hedges.
  { rewrite He2, He1.
    rewrite (filter_all (λ e : node * node, e.2 ≠ n)).
    - apply filter_all. intros [a b] Hab. simpl. intros ->.
      by apply (wf_endpoints _ Hwf) in Hab as [? _].
    - intros [a b] Hab. simpl. intros ->.
      by apply (wf_endpoints _ Hwf) in Hab as [_ ?]. }
  exists g1, g2. split_and!; [done..| |done|].
  - rewrite Hn2, Hn1. set_solver.
  - intros m. destruct (wf_sync _ Hwf2) as [-> ->].
    destruct (wf_sync _ Hwf) as [-> ->]. by rewrite Hedges.
Qed.

End storage.

(** ** Leaves and heads *)

Section leaves_heads.
Context {node : Type} `{Countable node}.
Implicit Types (g : DiGraph node) (a b n : node) (l : list node).

Lemma leaves_loop_filter g l :
  wf g → (∀ n, n ∈ l → n ∈ nodes g) →
  leaves_loop g l = Ret (filter (λ n, successors g n = []) l).
Proof.
  intros Hwf. induction l as [|n l IH]; intros Hl; [done|]. simpl.
  destruct (wf_keys_succ _ Hwf n) as [s Hs]; [apply Hl; left|].
  rewrite IH by (intros m Hm; apply Hl; by right).
  rewrite filter_cons, (successors_Some _ _ _ Hs), Hs.
  by destruct s as [|b s].
Qed.

Lemma heads_loop_filter g l :
  wf g → (∀ n, n ∈ l → n ∈ nodes g) →
  heads_loop g l = Ret (filter (λ n, predecessors g n = []) l).
Proof.
  intros Hwf. induction l as [|n l IH]; intros Hl; [done|]. simpl.
  destruct (wf_keys_pred _ Hwf n) as [s Hs]; [apply Hl; left|].
  rewrite IH by (intros m Hm; apply Hl; by right).
  rewrite filter_cons, (predecessors_Some _ _ _ Hs), Hs.
  by destruct s as [|b s].
Qed.

(** X8.  On a graph built by calls, whatever the order in which the node set is
    visited, [leaves()] returns and raises no [KeyError]; it yields, in that
    order and each once, the nodes that no edge leaves. *)
Theorem leaves_no_successor g (iter : gset node → list node) :
  built g → iterates iter →
  ∃ l, leaves iter g = Ret l ∧
       l = filter (λ n, successors g n = []) (iter (nodes g)) ∧
       NoDup l ∧
       ∀ n, n ∈ l ↔ n ∈ nodes g ∧ ∀ b, (n, b) ∉ edges g.
Proof.
  intros Hwf%built_wf Hiter. destruct (Hiter (nodes g)) as [Hnd Hin].
  eexists. split_and!; [|done| |].
  - unfold leaves, leaves_iter. apply leaves_loop_filter; [done|].
    intros n. apply Hin.
  - by apply NoDup_filter.
  - intros n. rewrite list_elem_of_filter, Hin, (proj1 (wf_sync _ Hwf)). split.
    + intros [Hs Hn]. split; [done|]. intros b Hb%elem_of_succ_of_edges.
      rewrite Hs in Hb. by apply elem_of_nil in Hb.
    + intros [Hn Hno]. split; [|done]. by apply succ_of_edges_nil.
Qed.

(** X9.  On a graph built by calls, whatever the order in which the node set is
    visited, [heads()] returns and raises no [KeyError]; it yields, in that
    order and each once, the nodes that no edge enters. *)
Theorem heads_no_predecessor g (iter : gset node → list node) :
  built g → iterates iter →
  ∃ l, heads iter g = Ret l ∧
       l = filter (λ n, predecessors g n = []) (iter (nodes g)) ∧
       NoDup l ∧
       ∀ n, n ∈ l ↔ n ∈ nodes g ∧ ∀ a, (a, n) ∉ edges g.
Proof.
  intros Hwf%built_wf Hiter. destruct (Hiter (nodes g)) as [Hnd Hin].
  eexists. split_and!; [|done| |].
  - unfold heads, heads_iter. apply heads_loop_filter; [done|].
    intros n. apply Hin.
  - by apply NoDup_filter.
  - intros n. rewrite list_elem_of_filter, Hin, (proj2 (wf_sync _ Hwf)). split.
    + intros [Hs Hn]. split; [done|]. intros a Ha%elem_of_pred_of_edges.
      rewrite Hs in Ha. by apply elem_of_nil in Ha.
    + intros [Hn Hno]. split; [|done]. by apply pred_of_edges_nil.
Qed.

(** The order of [elements] is a valid order of iteration. *)
Lemma elements_iterates : iterates (elements : gset node → list node).
Proof.
  intros s. split; [apply NoDup_elements|]. intros x. apply elem_of_elements.
Qed.

End leaves_heads.

(** ** The budget of [find_path] *)

Section find_path_more.
Context {node : Type} `{Countable node}.
Implicit Types (g : DiGraph node) (src dst n : node) (dn : gmap node Z).
Implicit Types (cycles_count : Z) (p q : list node) (paths : list (list node)).

Lemma ofor_ext {A B} (l : list A) (acc : B) (body body' : B → A → outcome B) :
  (∀ acc x, x ∈ l → body acc x = body' acc x) →
  ofor l acc body = ofor l acc body'.
Proof.
  revert acc. induction l as [|x l IH]; intros acc Hbody; [done|]. simpl.
  rewrite Hbody by left. destruct (body' acc x); simpl; [|done..].
  apply IH. intros acc0 y Hy. apply Hbody. by right.
Qed.

Lemma occurrences_not_in n p : n ∉ p → occurrences n p = 0.
Proof.
  intros Hn. unfold occurrences.
  destruct (filter (λ m, m = n) p) as [|m l] eqn:E; [done|].
  assert (m ∈ filter (λ m, m = n) p) as [-> Hm]%list_elem_of_filter
    by (rewrite E; left).
  done.
Qed.

(** A returned path does not come back to [src] and, with what [done]
    already counts, stays within the budget at every node. *)
Lemma find_path_within_budget fuel g src dst cycles_count dn paths p :
  (0 ≤ cycles_count)%Z →
  find_path fuel g src dst cycles_count dn = Ret paths → p ∈ paths → p ≠ [] →
  (src ∉ tail p) ∧
  ∀ n, n ∈ p →
       (default 0 (dn !! n) + Z.of_nat (occurrences n p) ≤ cycles_count + 1)%Z.
Proof.
  intros Hcc. revert dst dn paths p.
  induction fuel as [|fuel IH]; intros dst dn paths p; [done|]. simpl.
  destruct (over_budget dn dst cycles_count) eqn:Hover.
  { intros [= <-] Hp%list_elem_of_singleton. by subst p. }
  assert (default 0 (dn !! dst) ≤ cycles_count)%Z as Hd.
  { unfold over_budget in Hover. destruct (dn !! dst) as [c|]; simpl; [|done].
    apply bool_decide_eq_false in Hover. lia. }
  destruct (decide (src = dst)) as [<-|Hne].
  { intros [= <-] Hp%list_elem_of_singleton _. subst p.
    split; [apply not_elem_of_nil|].
    intros n Hn%list_elem_of_singleton. subst n. unfold occurrences.
    rewrite filter_cons, decide_True by done. simpl. lia. }
  intros Hrun Hp _. revert p Hp.
  eapply (ofor_invariant
           (λ _ out, ∀ p, p ∈ out →
              (src ∉ tail p) ∧
              ∀ n, n ∈ p →
                (default 0 (dn !! n) + Z.of_nat (occurrences n p)
                 ≤ cycles_count + 1)%Z));
    [by intros ? ?%elem_of_nil| |exact Hrun].
  intros l1 x l2 out out' Hl Hout (paths0 & Hrun0 & ->)%find_path_body_Ret p.
  intros [Hp|Hp]%elem_of_app; [by apply Hout|].
  apply list_elem_of_fmap in Hp as (q & -> & [Hq Hin]%list_elem_of_filter).
  apply starts_at_head in Hq.
  destruct (IH x (done_incr dn dst) paths0 q Hrun0 Hin) as [Htail Hbudget].
  { by destruct q. }
  split.
  - destruct q as [|a q]; [done|]. simpl in *.
    intros [?|?%list_elem_of_singleton]%elem_of_app; [done|]. by subst.
  - intros n Hn. rewrite occurrences_snoc.
    destruct (decide (n ∈ q)) as [Hnq|Hnq].
    + specialize (Hbudget n Hnq). unfold done_incr in Hbudget.
      rewrite lookup_insert in Hbudget.
      destruct (decide (dst = n)) as [<-|?]; simpl in *; lia.
    + apply elem_of_app in Hn as [?|Hn%list_elem_of_singleton]; [done|].
      subst n. rewrite occurrences_not_in, decide_True by done. lia.
Qed.

(** X10.  On a graph built by calls and for a budget that is not negative,
    [find_path(src, dst, cycles_count)] returns exactly the paths from [src]
    to [dst] that do not come back to [src] and hold no node more than
    [cycles_count + 1] times. *)
Theorem find_path_membership g src dst cycles_count :
  built g → (0 ≤ cycles_count)%Z →
  ∃ paths fuel0,
    (∀ fuel, fuel0 ≤ fuel → find_path fuel g src dst cycles_count ∅ = Ret paths) ∧
    ∀ p, p ∈ paths ↔
         path_from_to g src dst p ∧ (src ∉ tail p) ∧
         ∀ n, (Z.of_nat (occurrences n p) ≤ cycles_count + 1)%Z.
Proof.
  intros Hsync%built_wf%wf_sync Hcc.
  destruct (find_path_returns g src dst cycles_count ∅) as (paths & fuel0 & Hrun).
  pose proof (Hrun fuel0 (le_n _)) as Hrun0.
  exists paths, fuel0. split; [done|]. intros p. split.
  - intros Hp.
    destruct (find_path_sound _ _ _ _ _ _ _ _ Hsync Hrun0 Hp) as [[_ Ho]|Hpath];
      [done|].
    assert (p ≠ []) as Hne by (by destruct Hpath as [? _]; destruct p).
    destruct (find_path_within_budget _ _ _ _ _ _ _ _ Hcc Hrun0 Hp Hne)
      as [Htail Hbudget].
    split_and!; [done..|]. intros n. destruct (decide (n ∈ p)) as [Hn|Hn].
    + specialize (Hbudget n Hn). by rewrite lookup_empty in Hbudget.
    + rewrite occurrences_not_in by done. lia.
  - intros (Hpath & Htail & Hocc).
    eapply find_path_complete; [done..|].
    intros n _. rewrite lookup_empty. simpl. apply Hocc.
Qed.

Lemma find_path_budget_le_0 fuel g src dst cycles_count dn :
  (cycles_count ≤ 0)%Z → (∀ n c, dn !! n = Some c → (0 < c)%Z) →
  find_path fuel g src dst cycles_count dn = find_path fuel g src dst 0 dn.
Proof.
  intros Hcc. revert dst dn.
  induction fuel as [|fuel IH]; intros dst dn Hpos; [done|]. simpl.
  assert (over_budget dn dst cycles_count = over_budget dn dst 0) as ->.
  { unfold over_budget. destruct (dn !! dst) as [c|] eqn:E; [|done].
    apply Hpos in E. rewrite !bool_decide_eq_true_2; [done|lia..]. }
  destruct (over_budget dn dst 0) eqn:Hover; [done|].
  destruct (decide (src = dst)) as [|Hne]; [done|].
  apply ofor_ext. intros out x _. rewrite IH; [done|].
  intros n c. unfold done_incr. rewrite lookup_insert.
  destruct (decide (dst = n)) as [<-|?]; [|by apply Hpos].
  intros [= <-].
  unfold over_budget in Hover. destruct (dn !! dst) as [c|] eqn:E; simpl; [|lia].
  apply Hpos in E. lia.
Qed.

Lemma find_path_budget_le_0_empty fuel g src dst cycles_count :
  (cycles_count ≤ 0)%Z →
  find_path fuel g src dst cycles_count ∅ = find_path fuel g src dst 0 ∅.
Proof.
  intros Hcc. apply find_path_budget_le_0; [done|].
  intros n c. by rewrite lookup_empty.
Qed.

(** X11.  A negative budget is a budget of [0]: on every graph, for every fuel,
    [find_path] returns the same for [cycles_count <= 0] as for
    [cycles_count = 0]. *)
Theorem find_path_negative_budget fuel g src dst cycles_count :
  (cycles_count ≤ 0)%Z →
  find_path fuel g src dst cycles_count ∅ = find_path fuel g src dst 0 ∅.
Proof. apply find_path_budget_le_0_empty. Qed.

(** X12.  On a graph built by calls a larger budget loses no path: what
    [find_path] returns for [cycles_count] it returns for every larger
    budget. *)
Theorem find_path_budget_monotone g src dst cycles_count cycles_count' :
  built g → (cycles_count ≤ cycles_count')%Z →
  ∃ paths paths' fuel0,
    (∀ fuel, fuel0 ≤ fuel →
       find_path fuel g src dst cycles_count ∅ = Ret paths ∧
       find_path fuel g src dst cycles_count' ∅ = Ret paths') ∧
    ∀ p, p ∈ paths → p ∈ paths'.
Proof.
  intros Hsync%built_wf%wf_sync Hle.
  destruct (find_path_returns g src dst cycles_count ∅) as (paths & fuel1 & Hrun).
  destruct (find_path_returns g src dst cycles_count' ∅)
    as (paths' & fuel2 & Hrun').
  exists paths, paths', (fuel1 `max` fuel2). split.
  { intros fuel Hfuel. split; [apply Hrun|apply Hrun']; lia. }
  pose proof (Hrun (fuel1 `max` fuel2) ltac:(lia)) as Hr.
  pose proof (Hrun' (fuel1 `max` fuel2) ltac:(lia)) as Hr'.
  destruct (decide (cycles_count' ≤ 0)%Z) as [Hneg|Hpos].
  { rewrite find_path_budget_le_0_empty in Hr, Hr' by lia.
    intros p. congruence. }
  intros p Hp.
  destruct (find_path_sound _ _ _ _ _ _ _ _ Hsync Hr Hp) as [[_ Ho]|Hpath];
    [done|].
  assert (p ≠ []) as Hne by (by destruct Hpath as [? _]; destruct p).
  assert (∃ c, (0 ≤ c ≤ cycles_count')%Z ∧
               find_path (fuel1 `max` fuel2) g src dst c ∅ = Ret paths)
    as (c & Hc & Hrc).
  { destruct (decide (cycles_count ≤ 0)%Z).
    - exists 0%Z. split; [lia|].
      by rewrite <-(find_path_budget_le_0_empty _ _ _ _ cycles_count).
    - exists cycles_count. split; [lia|done]. }
  destruct (find_path_within_budget _ _ _ _ _ _ _ _ (proj1 Hc) Hrc Hp Hne)
    as [Htail Hbudget].
  apply (find_path_complete (fuel1 `max` fuel2) g src dst cycles_count' ∅ paths' p);
    [done|lia|done..|].
  intros n Hn. specialize (Hbudget n Hn). rewrite lookup_empty in *.
  simpl in *. lia.
Qed.

End find_path_more.

(** ** More on reachability *)

Section reachable_more.
Context {node : Type} `{Countable node}.
Implicit Types (g : DiGraph node) (h n x : node).
Implicit Types (pop : nat → gset node → node).

Lemma reachable_sons_spec g pop h :
  pops pop →
  ∃ l fuel0,
    (∀ fuel, fuel0 ≤ fuel → reachable_sons pop fuel g h = Ret l) ∧
    NoDup l ∧ h ∈ l ∧
    ∀ x, x ∈ l ↔ rtc (next_rel (successors_iter g)) h x.
Proof.
  intros Hpop.
  destruct (_reachable_nodes_spec pop (successors_iter g) Hpop
              ({[h]} ∪ range_nodes (_nodes_succ g))) with (head := h)
    as (l & Hl & Hnd & Hh & Hcl).
  - intros a b _ Hb. apply elem_of_union_r. by eapply successors_in_range.
  - set_solver.
  - exists l. eexists. split_and!; [exact Hl|done..].
Qed.

Lemma reachable_parents_spec g pop h :
  pops pop →
  ∃ l fuel0,
    (∀ fuel, fuel0 ≤ fuel → reachable_parents pop fuel g h = Ret l) ∧
    NoDup l ∧ h ∈ l ∧
    ∀ x, x ∈ l ↔ rtc (next_rel (predecessors_iter g)) h x.
Proof.
  intros Hpop.
  destruct (_reachable_nodes_spec pop (predecessors_iter g) Hpop
              ({[h]} ∪ range_nodes (_nodes_pred g))) with (head := h)
    as (l & Hl & Hnd & Hh & Hcl).
  - intros a b _ Hb. apply elem_of_union_r. by eapply predecessors_in_range.
  - set_solver.
  - exists l. eexists. split_and!; [exact Hl|done..].
Qed.

Lemma _reachable_nodes_first pop fuel h (next_cb : node → list node) l :
  pops pop → _reachable_nodes pop fuel h next_cb = Ret l →
  ∃ l', l = h :: l'.
Proof.
  intros Hpop. unfold _reachable_nodes. destruct fuel as [|fuel]; [done|]. simpl.
  rewrite decide_False by set_solver.
  assert (pop 0 {[h]} = h) as ->.
  { pose proof (Hpop 0 {[h]}) as Hin. set_solver. }
  rewrite decide_False by set_solver.
  destruct (_reachable_nodes_loop pop next_cb fuel 1 _ _) as [l'| |]; [|done..].
  simpl. intros [= <-]. eauto.
Qed.

(** X14.  On every graph and for every [pop], the first node that
    [reachable_sons(h)] yields is [h], which is not yielded again; and [h]
    is all it yields when [h] has no successor, as when [h] is not a node
    of the graph.  The same holds of [reachable_parents] and the
    predecessors. *)
Theorem reachable_head_first g pop h :
  pops pop →
  (∃ l' fuel0,
     (∀ fuel, fuel0 ≤ fuel → reachable_sons pop fuel g h = Ret (h :: l')) ∧
     (h ∉ l') ∧ (successors g h = [] → l' = [])) ∧
  (∃ l' fuel0,
     (∀ fuel, fuel0 ≤ fuel → reachable_parents pop fuel g h = Ret (h :: l')) ∧
     (h ∉ l') ∧ (predecessors g h = [] → l' = [])).
Proof.
  intros Hpop. split.
  - destruct (reachable_sons_spec g pop h Hpop) as (l & fuel0 & Hrun & Hnd & _ & Hcl).
    destruct (_reachable_nodes_first pop fuel0 h (successors_iter g) l Hpop)
      as [l' ->]; [by apply Hrun|].
    apply NoDup_cons in Hnd as [Hh Hnd].
    exists l', fuel0. split_and!; [done..|]. intros Hs.
    destruct l' as [|x l']; [done|]. exfalso.
    assert (rtc (next_rel (successors_iter g)) h x) as Hx
      by (apply Hcl; right; left).
    apply rtc_inv in Hx as [->|(y & Hy & _)].
    + apply Hh. left.
    + unfold next_rel in Hy. unfold successors in Hs. rewrite Hs in Hy.
      by apply elem_of_nil in Hy.
  - destruct (reachable_parents_spec g pop h Hpop)
      as (l & fuel0 & Hrun & Hnd & _ & Hcl).
    destruct (_reachable_nodes_first pop fuel0 h (predecessors_iter g) l Hpop)
      as [l' ->]; [by apply Hrun|].
    apply NoDup_cons in Hnd as [Hh Hnd].
    exists l', fuel0. split_and!; [done..|]. intros Hs.
    destruct l' as [|x l']; [done|]. exfalso.
    assert (rtc (next_rel (predecessors_iter g)) h x) as Hx
      by (apply Hcl; right; left).
    apply rtc_inv in Hx as [->|(y & Hy & _)].
    + apply Hh. left.
    + unfold next_rel in Hy. unfold predecessors in Hs. rewrite Hs in Hy.
      by apply elem_of_nil in Hy.
Qed.

(** X15.  On a graph built by calls, [reachable_sons(h)] yields [x] exactly when a
    path of edges leads from [h] to [x], which is exactly when
    [reachable_parents(x)] yields [h]; and what it yields besides [h] are
    nodes of the graph. *)
Theorem reachable_sons_parents_dual g pop pop' h x :
  built g → pops pop → pops pop' →
  ∃ sons parents fuel0,
    (∀ fuel, fuel0 ≤ fuel →
       reachable_sons pop fuel g h = Ret sons ∧
       reachable_parents pop' fuel g x = Ret parents) ∧
    (x ∈ sons ↔ reachable_from g h x) ∧
    (x ∈ sons ↔ h ∈ parents) ∧
    (∀ n, n ∈ sons → n = h ∨ n ∈ nodes g).
Proof.
  intros Hwf%built_wf Hpop Hpop'. pose proof (wf_sync _ Hwf) as Hsync.
  destruct (reachable_sons_spec g pop h Hpop) as (ls & fuel1 & Hrun1 & _ & _ & Hcl1).
  destruct (reachable_parents_spec g pop' x Hpop')
    as (lp & fuel2 & Hrun2 & _ & _ & Hcl2).
  exists ls, lp, (fuel1 `max` fuel2). split_and!.
  - intros fuel Hfuel. split; [apply Hrun1|apply Hrun2]; lia.
  - by rewrite Hcl1, reachable_from_rtc.
  - rewrite Hcl1, Hcl2, <-reachable_from_rtc, <-coreachable_from_rtc by done.
    done.
  - intros n Hn%Hcl1. apply rtc_inv_r in Hn as [->|(m & _ & Hmn)]; [by left|].
    right. apply (sync_next_successors g m n Hsync) in Hmn.
    by apply (wf_endpoints _ Hwf) in Hmn as [_ ?].
Qed.

End reachable_more.

(** ** More on dominators *)

Section dominators_more.
Context {node : Type} `{Countable node}.
Implicit Types (g : DiGraph node) (n d h head leaf : node).
Implicit Types (pop : nat → gset node → node).

(** X16.  On a graph built by calls, for every node [leaf] and every [pop],
    [compute_postdominators(leaf)] returns a mapping whose keys are exactly
    the nodes from which [leaf] is reachable, and whose value at a key [n]
    is exactly the set of the nodes that every path from [n] to [leaf]
    passes through. *)
Theorem compute_postdominators_correct g pop_r pop_d leaf :
  built g → pops pop_r → pops pop_d →
  ∃ doms fuel0,
    (∀ fuel, fuel0 ≤ fuel →
       compute_postdominators pop_r pop_d fuel g leaf = Ret doms) ∧
    (∀ n, n ∈ dom doms ↔ coreachable_from g leaf n) ∧
    (∀ n s, doms !! n = Some s → ∀ d, d ∈ s ↔ postdominates g leaf d n).
Proof.
  intros Hsync%built_wf%wf_sync Hpop_r Hpop_d.
  destruct (compute_postdominators_spec g pop_r pop_d leaf Hsync Hpop_r Hpop_d)
    as (doms & fuel0 & Hrun & Hdom & Hchar).
  exists doms, fuel0. split_and!; [done| |].
  - intros n. by rewrite Hdom, coreachable_from_rtc.
  - intros n s Hs d. by rewrite (Hchar n s d Hs), postdominates_dom_rel.
Qed.

Lemma dom_spec_unique (R : node → node → Prop) h (d1 d2 : gmap node (gset node)) :
  (∀ n, n ∈ dom d1 ↔ rtc R h n) →
  (∀ n s x, d1 !! n = Some s → x ∈ s ↔ dom_rel R h x n) →
  (∀ n, n ∈ dom d2 ↔ rtc R h n) →
  (∀ n s x, d2 !! n = Some s → x ∈ s ↔ dom_rel R h x n) →
  d1 = d2.
Proof.
  intros Hdom1 Hchar1 Hdom2 Hchar2. apply map_eq. intros n.
  destruct (d1 !! n) as [s1|] eqn:E1, (d2 !! n) as [s2|] eqn:E2.
  - f_equal. apply set_eq. intros x.
    by rewrite (Hchar1 n s1 x E1), (Hchar2 n s2 x E2).
  - apply not_elem_of_dom in E2. destruct E2. apply Hdom2, Hdom1, elem_of_dom. eauto.
  - apply not_elem_of_dom in E1. destruct E1. apply Hdom1, Hdom2, elem_of_dom. eauto.
  - done.
Qed.

(** X17.  On a graph built by calls the order in which [set.pop()] hands out the
    nodes does not show in the result: two runs of [compute_dominators] on
    the same node return the same mapping, and so do two runs of
    [compute_postdominators]. *)
Theorem dominators_pop_independent g pop_r pop_d pop_r' pop_d' h :
  built g → pops pop_r → pops pop_d → pops pop_r' → pops pop_d' →
  (∃ doms fuel0, ∀ fuel, fuel0 ≤ fuel →
     compute_dominators pop_r pop_d fuel g h = Ret doms ∧
     compute_dominators pop_r' pop_d' fuel g h = Ret doms) ∧
  (∃ doms fuel0, ∀ fuel, fuel0 ≤ fuel →
     compute_postdominators pop_r pop_d fuel g h = Ret doms ∧
     compute_postdominators pop_r' pop_d' fuel g h = Ret doms).
Proof.
  intros Hsync%built_wf%wf_sync ? ? ? ?. split.
  - destruct (compute_dominators_spec g pop_r pop_d h)
      as (d1 & fuel1 & Hrun1 & Hdom1 & Hchar1); try done.
    destruct (compute_dominators_spec g pop_r' pop_d' h)
      as (d2 & fuel2 & Hrun2 & Hdom2 & Hchar2); try done.
    assert (d1 = d2) as <- by by eapply dom_spec_unique.
    exists d1, (fuel1 `max` fuel2). intros fuel Hfuel.
    split; [apply Hrun1|apply Hrun2]; lia.
  - destruct (compute_postdominators_spec g pop_r pop_d h)
      as (d1 & fuel1 & Hrun1 & Hdom1 & Hchar1); try done.
    destruct (compute_postdominators_spec g pop_r' pop_d' h)
      as (d2 & fuel2 & Hrun2 & Hdom2 & Hchar2); try done.
    assert (d1 = d2) as <- by by eapply dom_spec_unique.
    exists d1, (fuel1 `max` fuel2). intros fuel Hfuel.
    split; [apply Hrun1|apply Hrun2]; lia.
Qed.

(** X18.  On a graph built by calls, in the mapping [compute_dominators(head)]
    returns the set of [head] is [{head}], also when [head] lies on a cycle;
    and the sets are nested: a node [d] in the set of [n] is a key itself,
    and its set is included in the set of [n]. *)
Theorem dominators_nested g pop_r pop_d head :
  built g → pops pop_r → pops pop_d →
  ∃ doms fuel0,
    (∀ fuel, fuel0 ≤ fuel →
       compute_dominators pop_r pop_d fuel g head = Ret doms) ∧
    doms !! head = Some {[head]} ∧
    ∀ n s d, doms !! n = Some s → d ∈ s →
             ∃ sd, doms !! d = Some sd ∧ sd ⊆ s.
Proof.
  intros Hsync%built_wf%wf_sync Hpop_r Hpop_d.
  destruct (compute_dominators_spec g pop_r pop_d head Hsync Hpop_r Hpop_d)
    as (doms & fuel0 & Hrun & Hdom & Hchar).
  exists doms, fuel0. split_and!; [done| |].
  - assert (is_Some (doms !! head)) as [s Hs] by (by apply elem_of_dom, Hdom).
    rewrite Hs. f_equal. apply set_eq. intros x.
    rewrite (Hchar head s x Hs), elem_of_singleton. split.
    + intros Hx. specialize (Hx [head] (path_rel_refl _ _)).
      by apply list_elem_of_singleton in Hx.
    + intros -> p (Hh & _). destruct p as [|a p]; [done|].
      injection Hh as ->. left.
  - intros n s d Hs Hd.
    assert (rtc (next_rel (successors_iter g)) head n) as [p Hp]%rtc_path_rel
      by (apply Hdom, elem_of_dom; eauto).
    pose proof (proj1 (Hchar n s d Hs) Hd) as Hdn.
    assert (is_Some (doms !! d)) as [sd Hsd].
    { apply elem_of_dom, Hdom. eapply path_rel_elem_rtc; [exact Hp|by apply Hdn]. }
    exists sd. split; [done|]. intros e He.
    apply (Hchar n s e Hs). intros q Hq.
    destruct (path_rel_prefix _ _ _ _ d Hq (Hdn q Hq)) as (q1 & q2 & -> & Hq1).
    apply elem_of_app. left. by apply (proj1 (Hchar d sd e Hsd) He).
Qed.

(** X19.  On a graph built by calls, when [head] has no successor, as when it is
    not a node of the graph, [compute_dominators(head)] returns the mapping
    with the single entry [head -> {head}]. *)
Theorem compute_dominators_no_successor g pop_r pop_d head :
  built g → pops pop_r → pops pop_d → successors g head = [] →
  ∃ fuel0, ∀ fuel, fuel0 ≤ fuel →
    compute_dominators pop_r pop_d fuel g head = Ret {[head := {[head]}]}.
Proof.
  intros Hsync%built_wf%wf_sync Hpop_r Hpop_d Hs.
  destruct (compute_dominators_spec g pop_r pop_d head Hsync Hpop_r Hpop_d)
    as (doms & fuel0 & Hrun & Hdom & Hchar).
  exists fuel0. intros fuel Hfuel. rewrite (Hrun fuel Hfuel). f_equal.
  assert (∀ n, rtc (next_rel (successors_iter g)) head n → n = head) as Honly.
  { intros n [->|(y & Hy & _)]%rtc_inv; [done|].
    unfold next_rel in Hy. unfold successors in Hs. rewrite Hs in Hy.
    by apply elem_of_nil in Hy. }
  apply map_eq. intros n. destruct (decide (n = head)) as [->|Hne].
  - rewrite lookup_singleton_eq.
    assert (is_Some (doms !! head)) as [s Hs'] by (by apply elem_of_dom, Hdom).
    rewrite Hs'. f_equal. apply set_eq. intros x.
    rewrite (Hchar head s x Hs'), elem_of_singleton. split.
    + intros Hx. specialize (Hx [head] (path_rel_refl _ _)).
      by apply list_elem_of_singleton in Hx.
    + intros -> p (Hh & _). destruct p as [|a p]; [done|].
      injection Hh as ->. left.
  - rewrite lookup_singleton_ne by done. apply not_elem_of_dom.
    intros Hn%Hdom%Honly. done.
Qed.

End dominators_more.

(** ** The assertion of [_compute_generic_dominators] *)

Section assertion.
Context {node : Type} `{Countable node}.
Variable pop : nat → gset node → node.
Variable head bad : node.
Variable nodes : gset node.
Variables prev_cb next_cb : node → list node.
Hypothesis pop_member : pops pop.
Hypothesis head_in : head ∈ nodes.
Hypothesis next_closed : ∀ a b, a ∈ nodes → b ∈ next_cb a → b ∈ nodes.
Hypothesis bad_in : bad ∈ nodes.
Hypothesis bad_not_head : bad ≠ head.
Hypothesis bad_alone : ∀ p, p ∈ prev_cb bad → p ∉ nodes.

Implicit Types (dominators : gmap node (gset node)) (todo : gset node).

Lemma inter_preds_alone dominators preds :
  (∀ p, p ∈ preds → p ∉ nodes) →
  inter_preds nodes dominators preds None = Ret None.
Proof.
  induction preds as [|p preds IH]; intros Hp; [done|]. simpl.
  rewrite decide_False by (apply Hp; left).
  apply IH. intros q Hq. apply Hp. by right.
Qed.

Lemma dominators_loop_asserts fuel i dominators todo :
  dom dominators = nodes →
  (∀ n s, dominators !! n = Some s → s ⊆ nodes) →
  (∀ n s d, n ≠ head → dominators !! n = Some s →
            (∃ p, p ∈ prev_cb n ∧ p ∈ nodes) →
            dom_rule nodes prev_cb dominators n d → d ∈ s) →
  todo ⊆ nodes → bad ∈ todo →
  size (dom_pairs dominators) * S (size nodes) + size todo < fuel →
  dominators_loop pop head nodes prev_cb next_cb fuel i dominators todo
  = Raise AssertionError.
Proof.
  revert i dominators todo.
  induction fuel as [|fuel IH];
    intros i dominators todo Hdom Hwithin Hshrink Htodo Hbad Hfuel; [lia|].
  simpl. rewrite decide_False by set_solver.
  assert (todo ≠ ∅) as Hne by set_solver.
  pose proof (pop_member i todo Hne) as Hpop.
  set (node0 := pop i todo) in *.
  assert (size (todo ∖ {[node0]}) < size todo) as Hsize.
  { apply subset_size. set_solver. }
  assert (node0 ∈ nodes) as Hn0 by set_solver.
  destruct (decide (node0 = head)) as [Heq|Hnh].
  { apply IH; try done; [set_solver|set_solver|lia]. }
  destruct (decide (Exists (λ p, p ∈ nodes) (prev_cb node0)))
    as [Hpred%Exists_exists|Hnopred]; last first.
  { rewrite inter_preds_alone; [done|]. intros p Hp Hpn.
    apply Hnopred, Exists_exists. eauto. }
  assert (node0 ≠ bad) as Hnb.
  { intros ->. destruct Hpred as (p & Hp & Hpn). by apply (bad_alone p). }
  destruct (inter_preds_None head nodes head_in dominators (prev_cb node0))
    as (s' & -> & Hs').
  { intros p _ Hp. apply elem_of_dom. by rewrite Hdom. }
  { done. }
  simpl.
  assert (is_Some (dominators !! node0)) as [old Hold].
  { apply elem_of_dom. by rewrite Hdom. }
  rewrite Hold.
  assert (∀ d, d ∈ s' ∪ {[node0]} ↔ dom_rule nodes prev_cb dominators node0 d)
    as Hnew.
  { intros d. unfold dom_rule. rewrite elem_of_union, elem_of_singleton, Hs'.
    tauto. }
  assert (s' ∪ {[node0]} ⊆ old) as Hsub.
  { intros d Hd. eapply Hshrink; [done..|]. by apply Hnew. }
  destruct (decide (s' ∪ {[node0]} = old)) as [Hsame|Hdiff].
  { apply IH; try done; [set_solver|set_solver|lia]. }
  assert (list_to_set (next_cb node0) ⊆ nodes) as Hnext.
  { intros b Hb%elem_of_list_to_set. by eapply next_closed. }
  apply IH.
  - rewrite dom_insert_L, Hdom. set_solver.
  - intros n s. rewrite lookup_insert. destruct (decide (node0 = n)) as [<-|?].
    + intros [= <-]. etrans; [exact Hsub|]. by eapply Hwithin.
    + apply Hwithin.
  - assert (∀ n d,
      dom_rule nodes prev_cb (<[node0 := s' ∪ {[node0]}]> dominators) n d →
      dom_rule nodes prev_cb dominators n d) as Hmono.
    { intros n d [->|Hall]; [by left|]. right. intros p sp Hp Hpn Hsp.
      destruct (decide (p = node0)) as [->|Hpne].
      - assert (sp = old) as -> by congruence. apply Hsub.
        eapply Hall; [done..|]. by rewrite lookup_insert_eq.
      - eapply Hall; [done..|]. by rewrite lookup_insert_ne. }
    intros n s d Hn. rewrite lookup_insert.
    destruct (decide (node0 = n)) as [<-|?].
    + intros [= <-] _ Hrule. apply Hnew. by apply Hmono.
    + intros Hs Hp Hrule. eapply Hshrink; [done..|]. by apply Hmono.
  - set_solver.
  - set_solver.
  - pose proof (dom_pairs_update dominators node0 old _ Hold Hsub Hdiff).
    assert (size (todo ∖ {[node0]} ∪ list_to_set (next_cb node0)) ≤ size nodes).
    { apply subseteq_size. set_solver. }
    nia.
Qed.

Lemma dominators_loop_asserts_init :
  ∃ fuel0, ∀ fuel, fuel0 ≤ fuel →
    dominators_loop pop head nodes prev_cb next_cb fuel 0
      (<[head := {[head]}]> (gset_to_gmap nodes nodes)) nodes
    = Raise AssertionError.
Proof.
  set (d0 := <[head := {[head]}]> (gset_to_gmap nodes nodes)).
  assert (∀ n s, d0 !! n = Some s → s ⊆ nodes ∧ (n ≠ head → s = nodes)) as Hlook.
  { intros n s. unfold d0. rewrite lookup_insert.
    destruct (decide (head = n)) as [<-|Hne].
    - intros [= <-]. split; [set_solver|done].
    - intros [? <-]%lookup_gset_to_gmap_Some. done. }
  assert (dom d0 = nodes) as Hdom.
  { unfold d0. rewrite dom_insert_L, dom_gset_to_gmap. set_solver. }
  exists (S (size (dom_pairs d0) * S (size nodes) + size nodes)).
  intros fuel Hfuel. apply dominators_loop_asserts; try done.
  - intros n s Hs. by apply Hlook in Hs as [? _].
  - intros n s d Hne Hs (p & Hp & Hpn) Hrule.
    destruct (Hlook n s Hs) as [_ Heq]. rewrite (Heq Hne).
    destruct Hrule as [->|Hall].
    + apply elem_of_dom_2 in Hs. by rewrite Hdom in Hs.
    + assert (is_Some (d0 !! p)) as [sp Hsp] by (apply elem_of_dom; by rewrite Hdom).
      pose proof (Hall p sp Hp Hpn Hsp) as Hd.
      apply Hlook in Hsp as [Hsub _]. by apply Hsub.
Qed.

End assertion.

Section assertion_generic.
Context {node : Type} `{Countable node}.

(** X21.  [_compute_generic_dominators] called with callbacks that do not fit: if
    [reachable_cb(head)] yields a node [bad] other than [head] none of whose
    [prev_cb] neighbours is yielded, then (the [next_cb] neighbours of
    yielded nodes being yielded) the assertion fails, for every [pop]: the
    call raises [AssertionError] and returns no mapping. *)
Theorem generic_dominators_asserts (pop : nat → gset node → node)
    (head bad : node) (reachable_cb : node → outcome (list node))
    (prev_cb next_cb : node → list node) (l : list node) :
  pops pop → reachable_cb head = Ret l →
  head ∈ l → (∀ a b, a ∈ l → b ∈ next_cb a → b ∈ l) →
  bad ∈ l → bad ≠ head → (∀ p, p ∈ prev_cb bad → p ∉ l) →
  ∃ fuel0, ∀ fuel, fuel0 ≤ fuel →
    _compute_generic_dominators pop fuel head reachable_cb prev_cb next_cb
    = Raise AssertionError.
Proof.
  intros Hpop Hl Hhead Hnext Hbad Hne Halone.
  destruct (dominators_loop_asserts_init pop head bad (list_to_set l)
              prev_cb next_cb) as [fuel0 Hrun]; try done.
  - by apply elem_of_list_to_set.
  - intros a b Ha%elem_of_list_to_set Hb. apply elem_of_list_to_set. eauto.
  - by apply elem_of_list_to_set.
  - intros p Hp Hpl%elem_of_list_to_set. by apply (Halone p).
  - exists fuel0. intros fuel Hfuel. unfold _compute_generic_dominators.
    rewrite Hl. simpl. by apply Hrun.
Qed.

End assertion_generic.

(** ** Instances of the further properties *)

Lemma built_invariants_witness :
  (∀ a, successors graph_loop a = succ_of_edges (edges graph_loop) a) ∧
  (∀ b, predecessors graph_loop b = pred_of_edges (edges graph_loop) b) ∧
  (∀ a b, (a, b) ∈ edges graph_loop → a ∈ nodes graph_loop ∧ b ∈ nodes graph_loop) ∧
  (∀ n, n ∈ nodes graph_loop →
        is_Some (_nodes_succ graph_loop !! n) ∧ is_Some (_nodes_pred graph_loop !! n)) ∧
  (∀ n, n ∉ nodes graph_loop →
        successors graph_loop n = [] ∧ predecessors graph_loop n = []).
Proof. apply (built_invariants graph_loop), built_build. Defined.

Lemma add_edge_appends_witness :
  ∃ g', add_edge 0 1 graph_parallel = (Ret tt, g') ∧
        edges g' = edges graph_parallel ++ [(0, 1)] ∧
        nodes g' = {[0; 1]} ∪ nodes graph_parallel ∧
        (∀ a, successors g' a =
              if decide (a = 0) then successors graph_parallel a ++ [1]
              else successors graph_parallel a) ∧
        (∀ b, predecessors g' b =
              if decide (b = 1) then predecessors graph_parallel b ++ [0]
              else predecessors graph_parallel b).
Proof. apply (add_edge_appends graph_parallel 0 1), built_build. Defined.

Lemma add_uniq_edge_once_witness :
  ∃ g', add_uniq_edge 1 2 graph_fan = (Ret tt, g') ∧
        ((1, 2) ∈ edges graph_fan → g' = graph_fan) ∧
        ((1, 2) ∉ edges graph_fan →
         add_edge 1 2 graph_fan = (Ret tt, g') ∧
         edges g' = edges graph_fan ++ [(1, 2)]) ∧
        (1, 2) ∈ edges g' ∧
        add_uniq_edge 1 2 g' = (Ret tt, g').
Proof. apply (add_uniq_edge_once graph_fan 1 2), built_build. Defined.

Lemma uniq_calls_no_parallel_witness :
  NoDup (edges (build [AddUniqEdge 0 1; AddUniqEdge 0 1; AddNode 2;
                       AddUniqEdge 1 2; DelEdge 0 1; DelNode 2])) ∧
  ∀ n, NoDup (successors (build [AddUniqEdge 0 1; AddUniqEdge 0 1; AddNode 2;
                                 AddUniqEdge 1 2; DelEdge 0 1; DelNode 2]) n) ∧
       NoDup (predecessors (build [AddUniqEdge 0 1; AddUniqEdge 0 1; AddNode 2;
                                   AddUniqEdge 1 2; DelEdge 0 1; DelNode 2]) n).
Proof.
  apply (uniq_calls_no_parallel
           [AddUniqEdge 0 1; AddUniqEdge 0 1; AddNode 2;
            AddUniqEdge 1 2; DelEdge 0 1; DelNode 2]).
  repeat constructor.
Defined.

Lemma del_node_keeps_keys_witness :
  ∃ g', del_node 1 graph_loop = (Ret tt, g') ∧
        dom (_nodes_succ g') = dom (_nodes_succ graph_loop) ∧
        dom (_nodes_pred g') = dom (_nodes_pred graph_loop) ∧
        (1 ∈ nodes graph_loop →
         _nodes_succ g' !! 1 = Some [] ∧ _nodes_pred g' !! 1 = Some []).
Proof. apply (del_node_keeps_keys graph_loop 1), built_build. Defined.

Lemma add_node_del_node_witness :
  ∃ g1 g2, add_node 7 graph_fan = (Ret tt, g1) ∧ del_node 7 g1 = (Ret tt, g2) ∧
           nodes g2 = nodes graph_fan ∧ edges g2 = edges graph_fan ∧
           ∀ m, successors g2 m = successors graph_fan m ∧
                predecessors g2 m = predecessors graph_fan m.
Proof.
  apply (add_node_del_node graph_fan 7); [apply built_build|].
  apply (bool_decide_unpack _). by vm_compute.
Defined.

Lemma leaves_no_successor_witness :
  ∃ l, leaves elements graph_diamond = Ret l ∧
       l = filter (λ n, successors graph_diamond n = [])
             (elements (nodes graph_diamond)) ∧
       NoDup l ∧
       ∀ n, n ∈ l ↔ n ∈ nodes graph_diamond ∧ ∀ b, (n, b) ∉ edges graph_diamond.
Proof.
  apply (leaves_no_successor graph_diamond elements);
    [apply built_build|apply elements_iterates].
Defined.

Lemma heads_no_predecessor_witness :
  ∃ l, heads elements graph_diamond = Ret l ∧
       l = filter (λ n, predecessors graph_diamond n = [])
             (elements (nodes graph_diamond)) ∧
       NoDup l ∧
       ∀ n, n ∈ l ↔ n ∈ nodes graph_diamond ∧ ∀ a, (a, n) ∉ edges graph_diamond.
Proof.
  apply (heads_no_predecessor graph_diamond elements);
    [apply built_build|apply elements_iterates].
Defined.

Lemma find_path_membership_witness :
  ∃ paths fuel0,
    (∀ fuel, fuel0 ≤ fuel → find_path fuel graph_loop 0 2 1 ∅ = Ret paths) ∧
    ∀ p, p ∈ paths ↔
         path_from_to graph_loop 0 2 p ∧ (0 ∉ tail p) ∧
         ∀ n, (Z.of_nat (occurrences n p) ≤ 1 + 1)%Z.
Proof. apply (find_path_membership graph_loop 0 2 1); [apply built_build|lia]. Defined.

Lemma find_path_negative_budget_witness :
  find_path 10 graph_loop 0 2 (-3) ∅ = find_path 10 graph_loop 0 2 0 ∅.
Proof. apply (find_path_negative_budget 10 graph_loop 0 2 (-3)). lia. Defined.

Lemma find_path_budget_monotone_witness :
  ∃ paths paths' fuel0,
    (∀ fuel, fuel0 ≤ fuel →
       find_path fuel graph_loop 0 2 0 ∅ = Ret paths ∧
       find_path fuel graph_loop 0 2 2 ∅ = Ret paths') ∧
    ∀ p, p ∈ paths → p ∈ paths'.
Proof.
  apply (find_path_budget_monotone graph_loop 0 2 0 2); [apply built_build|lia].
Defined.

Lemma reachable_head_first_witness :
  (∃ l' fuel0,
     (∀ fuel, fuel0 ≤ fuel → reachable_sons pop_max fuel graph_loop 1 = Ret (1 :: l')) ∧
     (1 ∉ l') ∧ (successors graph_loop 1 = [] → l' = [])) ∧
  (∃ l' fuel0,
     (∀ fuel, fuel0 ≤ fuel → reachable_parents pop_max fuel graph_loop 1 = Ret (1 :: l')) ∧
     (1 ∉ l') ∧ (predecessors graph_loop 1 = [] → l' = [])).
Proof. apply (reachable_head_first graph_loop pop_max 1), pop_max_pops. Defined.

Lemma reachable_sons_parents_dual_witness :
  ∃ sons parents fuel0,
    (∀ fuel, fuel0 ≤ fuel →
       reachable_sons pop_min fuel graph_diamond 0 = Ret sons ∧
       reachable_parents pop_max fuel graph_diamond 3 = Ret parents) ∧
    (3 ∈ sons ↔ reachable_from graph_diamond 0 3) ∧
    (3 ∈ sons ↔ 0 ∈ parents) ∧
    (∀ n, n ∈ sons → n = 0 ∨ n ∈ nodes graph_diamond).
Proof.
  apply (reachable_sons_parents_dual graph_diamond pop_min pop_max 0 3);
    [apply built_build|apply pop_min_pops|apply pop_max_pops].
Defined.

Lemma compute_postdominators_correct_witness :
  ∃ doms fuel0,
    (∀ fuel, fuel0 ≤ fuel →
       compute_postdominators pop_min pop_max fuel graph_diamond 3 = Ret doms) ∧
    (∀ n, n ∈ dom doms ↔ coreachable_from graph_diamond 3 n) ∧
    (∀ n s, doms !! n = Some s → ∀ d, d ∈ s ↔ postdominates graph_diamond 3 d n).
Proof.
  apply (compute_postdominators_correct graph_diamond pop_min pop_max 3);
    [apply built_build|apply pop_min_pops|apply pop_max_pops].
Defined.

Lemma dominators_pop_independent_witness :
  (∃ doms fuel0, ∀ fuel, fuel0 ≤ fuel →
     compute_dominators pop_min pop_min fuel graph_loop 0 = Ret doms ∧
     compute_dominators pop_max pop_max fuel graph_loop 0 = Ret doms) ∧
  (∃ doms fuel0, ∀ fuel, fuel0 ≤ fuel →
     compute_postdominators pop_min pop_min fuel graph_loop 0 = Ret doms ∧
     compute_postdominators pop_max pop_max fuel graph_loop 0 = Ret doms).
Proof.
  apply (dominators_pop_independent graph_loop pop_min pop_min pop_max pop_max 0);
    [apply built_build|apply pop_min_pops|apply pop_min_pops
    |apply pop_max_pops|apply pop_max_pops].
Defined.

Lemma dominators_nested_witness :
  ∃ doms fuel0,
    (∀ fuel, fuel0 ≤ fuel →
       compute_dominators pop_min pop_max fuel graph_chain 0 = Ret doms) ∧
    doms !! 0 = Some {[0]} ∧
    ∀ n s d, doms !! n = Some s → d ∈ s →
             ∃ sd, doms !! d = Some sd ∧ sd ⊆ s.
Proof.
  apply (dominators_nested graph_chain pop_min pop_max 0);
    [apply built_build|apply pop_min_pops|apply pop_max_pops].
Defined.

Lemma compute_dominators_no_successor_witness :
  ∃ fuel0, ∀ fuel, fuel0 ≤ fuel →
    compute_dominators pop_min pop_max fuel graph_diamond 9 = Ret {[9 := {[9]}]}.
Proof.
  apply (compute_dominators_no_successor graph_diamond pop_min pop_max 9);
    [apply built_build|apply pop_min_pops|apply pop_max_pops|reflexivity].
Defined.

Lemma generic_dominators_asserts_witness :
  ∃ fuel0, ∀ fuel, fuel0 ≤ fuel →
    _compute_generic_dominators pop_min fuel 0 (λ _, Ret [0; 1])
      (λ _, []) (λ _, [])
    = Raise AssertionError.
Proof.
  apply (generic_dominators_asserts pop_min 0 1 (λ _, Ret [0; 1])
           (λ _, []) (λ _, []) [0; 1]).
  - apply pop_min_pops.
  - reflexivity.
  - left.
  - by intros a b _ ?%elem_of_nil.
  - right; left.
  - lia.
  - by intros p ?%elem_of_nil.
Defined.

(** ** How the calls and the queries compose *)

Section compose.
Context {node : Type} `{Countable node}.
Implicit Types (g : DiGraph node) (a b n src dst h : node).
Implicit Types (R : node → node → Prop) (p q : list node).

Lemma chain_app_r {A} (S : A → A → Prop) (l1 l2 : list A) :
  chain S (l1 ++ l2) → chain S l2.
Proof.
  induction l1 as [|x l1 IH]; [done|]. rewrite <-app_comm_cons, chain_cons.
  intros [_ ?]. by apply IH.
Qed.

(** A path can be cut down to one that holds no node twice. *)
Lemma path_rel_simple R a b p :
  path_rel R a b p → ∃ q, path_rel R a b q ∧ NoDup q.
Proof.
  revert a. induction p as [|x p IH]; intros a (Hh & Hl & Hc); [done|].
  injection Hh as ->. apply chain_cons in Hc as [Hab Hc].
  destruct p as [|a' p].
  { exists [a]. split; [by split_and!|apply NoDup_singleton]. }
  rewrite last_cons_cons in Hl.
  destruct (IH a') as (q & (Hqh & Hql & Hqc) & Hnd); [by split_and!|].
  destruct (decide (a ∈ q)) as [Hin|Hnin].
  - apply list_elem_of_split in Hin as (q1 & q2 & ->).
    exists (a :: q2). split.
    + split_and!; [done| |by apply (chain_app_r R q1)].
      by rewrite last_app_cons in Hql.
    + by apply NoDup_app in Hnd as (_ & _ & ?).
  - exists (a :: q). split; [|by constructor].
    eapply path_rel_cons; [by apply Hab|by split_and!].
Qed.

(** X13.  On a graph built by calls and for every budget, [find_path(src, dst)]
    returns a path exactly when [dst] is reachable from [src]. *)
Theorem find_path_finds g src dst cycles_count :
  built g →
  ∃ paths fuel0,
    (∀ fuel, fuel0 ≤ fuel → find_path fuel g src dst cycles_count ∅ = Ret paths) ∧
    (paths ≠ [] ↔ reachable_from g src dst).
Proof.
  intros Hsync%built_wf%wf_sync.
  destruct (find_path_returns g src dst cycles_count ∅) as (paths & fuel0 & Hrun).
  pose proof (Hrun fuel0 (le_n _)) as Hrun0.
  exists paths, fuel0. split; [done|]. split.
  - intros Hne. destruct paths as [|p paths]; [done|]. exists p.
    destruct (find_path_sound _ _ _ _ _ _ _ p Hsync Hrun0) as [[_ Ho]|?];
      [left|done|done].
  - intros [p (q & Hq & Hnd)%path_rel_simple].
    assert (src ∉ tail q) as Htail.
    { destruct Hq as (Hh & _). destruct q as [|x q]; [done|].
      injection Hh as ->. by apply NoDup_cons in Hnd as [? _]. }
    assert (∀ n, occurrences n q ≤ 1) as Hocc.
    { intros n. unfold occurrences. clear Htail Hq.
      induction Hnd as [|x q Hx Hnd IH]; [simpl; lia|].
      rewrite filter_cons. destruct (decide (x = n)) as [->|?]; [|done].
      simpl. assert (occurrences n q = 0) as Hz by by apply occurrences_not_in.
      unfold occurrences in Hz. lia. }
    assert (∃ c, (0 ≤ c)%Z ∧ find_path fuel0 g src dst c ∅ = Ret paths)
      as (c & Hc & Hrc).
    { destruct (decide (cycles_count ≤ 0)%Z).
      - exists 0%Z. split; [lia|].
        by rewrite <-(find_path_budget_le_0_empty _ _ _ _ cycles_count).
      - exists cycles_count. split; [lia|done]. }
    assert (q ∈ paths) as Hin; [|by intros ->; apply elem_of_nil in Hin].
    apply (find_path_complete fuel0 g src dst c ∅ paths q); [done..|].
    intros n _. rewrite lookup_empty. simpl. specialize (Hocc n). lia.
Qed.

(** X20.  On a graph built by calls the keys of the mapping
    [compute_dominators(head)] returns are the nodes [reachable_sons(head)]
    yields, and every set in it is made of such nodes. *)
Theorem compute_dominators_keys g (pop_r pop_d pop : nat → gset node → node) h :
  built g → pops pop_r → pops pop_d → pops pop →
  ∃ doms sons fuel0,
    (∀ fuel, fuel0 ≤ fuel →
       compute_dominators pop_r pop_d fuel g h = Ret doms ∧
       reachable_sons pop fuel g h = Ret sons) ∧
    dom doms = list_to_set sons ∧
    ∀ n s, doms !! n = Some s → s ⊆ list_to_set sons.
Proof.
  intros Hsync%built_wf%wf_sync Hpop_r Hpop_d Hpop.
  destruct (compute_dominators_spec g pop_r pop_d h Hsync Hpop_r Hpop_d)
    as (doms & fuel1 & Hrun1 & Hdom & Hchar).
  destruct (reachable_sons_spec g pop h Hpop) as (sons & fuel2 & Hrun2 & _ & _ & Hcl).
  exists doms, sons, (fuel1 `max` fuel2). split_and!.
  - intros fuel Hfuel. split; [apply Hrun1|apply Hrun2]; lia.
  - apply set_eq. intros n. by rewrite Hdom, elem_of_list_to_set, Hcl.
  - intros n s Hs d Hd. apply elem_of_list_to_set, Hcl.
    assert (rtc (next_rel (successors_iter g)) h n) as [p Hp]%rtc_path_rel
      by (apply Hdom, elem_of_dom; eauto).
    eapply path_rel_elem_rtc; [exact Hp|]. by apply (Hchar n s d Hs).
Qed.

End compose.

Lemma find_path_finds_witness :
  ∃ paths fuel0,
    (∀ fuel, fuel0 ≤ fuel → find_path fuel graph_loop 0 2 0 ∅ = Ret paths) ∧
    (paths ≠ [] ↔ reachable_from graph_loop 0 2).
Proof. apply (find_path_finds graph_loop 0 2 0), built_build. Defined.

Lemma compute_dominators_keys_witness :
  ∃ doms sons fuel0,
    (∀ fuel, fuel0 ≤ fuel →
       compute_dominators pop_min pop_max fuel graph_diamond 0 = Ret doms ∧
       reachable_sons pop_max fuel graph_diamond 0 = Ret sons) ∧
    dom doms = list_to_set sons ∧
    ∀ n s, doms !! n = Some s → s ⊆ list_to_set sons.
Proof.
  apply (compute_dominators_keys graph_diamond pop_min pop_max pop_max 0);
    [apply built_build|apply pop_min_pops|apply pop_max_pops|apply pop_max_pops].
Defined.

(** ** How often [find_path] returns a path *)

Section find_path_copies.
Context {node : Type} `{Countable node}.
Implicit Types (g : DiGraph node) (src dst n a b x : node) (dn : gmap node Z).
Implicit Types (cycles_count : Z) (p q : list node) (paths : list (list node)).

Lemma copies_app p paths1 paths2 :
  copies p (paths1 ++ paths2) = copies p paths1 + copies p paths2.
Proof. unfold copies. by rewrite filter_app, length_app. Qed.

Lemma copies_not_in p paths : p ∉ paths → copies p paths = 0.
Proof.
  intros Hp. unfold copies.
  destruct (filter (λ q, q = p) paths) as [|q l] eqn:E; [done|].
  assert (q ∈ filter (λ q, q = p) paths) as [-> Hq]%list_elem_of_filter
    by (rewrite E; left).
  done.
Qed.

Lemma copies_fmap_snoc q dst paths :
  copies (q ++ [dst]) ((λ path, path ++ [dst]) <$> paths) = copies q paths.
Proof.
  unfold copies. induction paths as [|r paths IH]; [done|].
  rewrite fmap_cons, !filter_cons.
  destruct (decide (r = q)) as [->|Hne].
  - rewrite decide_True by done. simpl. by rewrite IH.
  - rewrite decide_False; [done|]. by intros [? _]%app_inj_tail.
Qed.

Lemma copies_filter (P : list node → Prop) `{∀ r, Decision (P r)} q paths :
  P q → copies q (filter P paths) = copies q paths.
Proof.
  intros HP. unfold copies. induction paths as [|r paths IH]; [done|].
  rewrite !filter_cons. destruct (decide (P r)) as [Hr|Hr].
  - rewrite filter_cons. destruct (decide (r = q)); simpl; by rewrite IH.
  - rewrite decide_False; [done|]. by intros ->.
Qed.

Lemma path_weight_snoc g q x dst :
  last q = Some x →
  path_weight g (q ++ [dst]) = path_weight g q * edge_count g x dst.
Proof.
  induction q as [|a q IH]; [done|]. destruct q as [|b q].
  - intros [= ->]. simpl. lia.
  - rewrite last_cons_cons. intros Hl. specialize (IH Hl).
    change (path_weight g ((a :: b :: q) ++ [dst]))
      with (edge_count g a b * path_weight g ((b :: q) ++ [dst])).
    change (path_weight g (a :: b :: q))
      with (edge_count g a b * path_weight g (b :: q)).
    rewrite IH. lia.
Qed.

Lemma occurrences_pred_of_edges (es : list (node * node)) x dst :
  occurrences x (pred_of_edges es dst) = length (filter (λ e, e = (x, dst)) es).
Proof.
  unfold occurrences. induction es as [|[a b] es IH]; [done|].
  rewrite pred_of_edges_cons, (filter_cons (λ e, e = (x, dst))).
  destruct (decide (b = dst)) as [->|Hb].
  - rewrite filter_cons. destruct (decide (a = x)) as [->|Ha].
    + rewrite decide_True by done. simpl. by rewrite IH.
    + rewrite decide_False by congruence. done.
  - rewrite decide_False by congruence. done.
Qed.

(** A path within the budget is returned once for each way of choosing,
    step by step, one of the parallel edges it can follow. *)
Lemma find_path_copies fuel g src dst cycles_count dn paths p :
  sync g → (0 ≤ cycles_count)%Z →
  find_path fuel g src dst cycles_count dn = Ret paths →
  path_from_to g src dst p → src ∉ tail p →
  (∀ n, n ∈ p →
        (default 0 (dn !! n) + Z.of_nat (occurrences n p) ≤ cycles_count + 1)%Z) →
  copies p paths = path_weight g p.
Proof.
  intros Hsync Hcc. revert dst dn paths p.
  induction fuel as [|fuel IH]; intros dst dn paths p; [done|]. simpl.
  intros Hrun (Hh & Hl & Hc) Htail Hbudget.
  destruct p as [|m q _] using rev_ind; [done|].
  rewrite last_snoc in Hl. injection Hl as ->.
  assert (over_budget dn dst cycles_count = false) as Hover.
  { unfold over_budget. destruct (dn !! dst) as [c|] eqn:E; [|done].
    apply bool_decide_eq_false. specialize (Hbudget dst).
    rewrite E, occurrences_snoc, decide_True in Hbudget by done. simpl in Hbudget.
    assert (dst ∈ q ++ [dst]) by (apply elem_of_app; right; left).
    specialize (Hbudget ltac:(done)). lia. }
  rewrite Hover in Hrun. destruct (decide (src = dst)) as [<-|Hne].
  { injection Hrun as <-. destruct q as [|a q].
    - unfold copies. simpl. by rewrite filter_cons, decide_True.
    - destruct Htail. simpl. apply elem_of_app. right. left. }
  destruct (last q) as [x|] eqn:Hx; last first.
  { apply last_None in Hx as ->. by injection Hh as ->. }
  apply chain_snoc in Hc as [Hc Hedge]. specialize (Hedge x Hx).
  assert (head q = Some src) as Hhq by (by destruct q).
  rewrite (path_weight_snoc g q x dst Hx).
  assert (edge_count g x dst = occurrences x (predecessors g dst)) as ->.
  { unfold edge_count. destruct Hsync as [_ ->].
    by rewrite occurrences_pred_of_edges. }
  assert (src ∉ tail q) as Htailq.
  { intros Hs. apply Htail. destruct q; [done|]. simpl in *.
    apply elem_of_app. by left. }
  assert (∀ n, n ∈ q →
            (default 0 (done_incr dn dst !! n) + Z.of_nat (occurrences n q)
             ≤ cycles_count + 1)%Z) as Hbudgetq.
  { intros n Hn. specialize (Hbudget n). rewrite occurrences_snoc in Hbudget.
    unfold done_incr. rewrite lookup_insert.
    assert (n ∈ q ++ [dst]) as Hn' by (apply elem_of_app; by left).
    specialize (Hbudget Hn').
    destruct (decide (dst = n)) as [<-|?]; simpl; lia. }
  rewrite Nat.mul_comm.
  eapply (ofor_invariant
           (λ l1 out, copies (q ++ [dst]) out = occurrences x l1 * path_weight g q));
    [| |exact Hrun]; [done|].
  intros l1 y l2 out out' Hly Hout (paths0 & Hrun0 & ->)%find_path_body_Ret.
  rewrite copies_app, Hout, occurrences_snoc, copies_fmap_snoc.
  rewrite copies_filter by (by apply bool_decide_pack).
  destruct (decide (y = x)) as [->|Hyx].
  - rewrite (IH x (done_incr dn dst) paths0 q); [lia|done|by split_and!|done..].
  - rewrite copies_not_in; [lia|]. intros Hin.
    destruct (find_path_sound _ _ _ _ _ _ _ _ Hsync Hrun0 Hin)
      as [[-> _]|(_ & Hlast & _)]; [done|]. congruence.
Qed.

(** C5 (amended).  On a graph built by calls, [find_path(src, dst,
    cycles_count)] returns a list of sequences of nodes, each of which starts
    at [src], ends at [dst] and follows edges.  The list is empty when [dst]
    is not reachable from [src], and is [[[src]]] when [src == dst].  The
    paths in it are exactly the paths from [src] to [dst] that do not come
    back to [src] and hold no node more than [max(cycles_count, 0) + 1]
    times.  Such a path is in the list once for each way of choosing, step
    by step, one of the parallel edges that join its nodes: once when the
    graph has no parallel edges, in which case the list has no repeated
    element. *)
Theorem find_path_enumerates g src dst cycles_count :
  built g →
  ∃ paths fuel0,
    (∀ fuel, fuel0 ≤ fuel → find_path fuel g src dst cycles_count ∅ = Ret paths) ∧
    (∀ p, p ∈ paths → path_from_to g src dst p) ∧
    (¬ reachable_from g src dst → paths = []) ∧
    (src = dst → paths = [[src]]) ∧
    (∀ p, p ∈ paths ↔
          path_from_to g src dst p ∧ (src ∉ tail p) ∧
          ∀ n, (Z.of_nat (occurrences n p) ≤ Z.max cycles_count 0 + 1)%Z) ∧
    (∀ p, p ∈ paths → copies p paths = path_weight g p) ∧
    (NoDup (edges g) → NoDup paths).
Proof.
  intros Hsync%built_wf%wf_sync.
  destruct (find_path_returns g src dst cycles_count ∅) as (paths & fuel0 & Hrun).
  pose proof (Hrun fuel0 (le_n _)) as Hrun0.
  assert (∀ p, p ∈ paths → path_from_to g src dst p) as Hsound.
  { intros p Hp.
    destruct (find_path_sound _ _ _ _ _ _ _ _ Hsync Hrun0 Hp) as [[_ Ho]|?]; done. }
  assert (find_path fuel0 g src dst (Z.max cycles_count 0) ∅ = Ret paths) as Hrc.
  { destruct (decide (cycles_count ≤ 0)%Z).
    - rewrite Z.max_r by lia.
      by rewrite <-(find_path_budget_le_0_empty _ _ _ _ cycles_count).
    - by rewrite Z.max_l by lia. }
  assert (0 ≤ Z.max cycles_count 0)%Z as Hc by lia.
  assert (∀ p, p ∈ paths →
            (src ∉ tail p) ∧
            ∀ n, (Z.of_nat (occurrences n p) ≤ Z.max cycles_count 0 + 1)%Z)
    as Hwithin.
  { intros p Hp.
    assert (p ≠ []) as Hne.
    { destruct (Hsound p Hp) as [Hh _]. by destruct p. }
    destruct (find_path_within_budget _ _ _ _ _ _ _ _ Hc Hrc Hp Hne)
      as [Htail Hbudget].
    split; [done|]. intros n. destruct (decide (n ∈ p)) as [Hn|Hn].
    - specialize (Hbudget n Hn). by rewrite lookup_empty in Hbudget.
    - rewrite occurrences_not_in by done. lia. }
  exists paths, fuel0. split_and!; [done..| | | | |].
  - intros Hno. destruct paths as [|p paths]; [done|].
    destruct Hno. exists p. apply Hsound. left.
  - intros <-. destruct fuel0 as [|fuel0]; [done|]. simpl in Hrun0.
    rewrite decide_True in Hrun0 by done. by injection Hrun0 as <-.
  - intros p. split.
    + intros Hp. destruct (Hwithin p Hp) as [? ?].
      split_and!; [by apply Hsound|done..].
    + intros (Hpath & Htail & Hocc).
      apply (find_path_complete fuel0 g src dst (Z.max cycles_count 0) ∅ paths p);
        [done..|].
      intros n _. rewrite lookup_empty. simpl. apply Hocc.
  - intros p Hp. destruct (Hwithin p Hp) as [Htail Hocc].
    apply (find_path_copies fuel0 g src dst (Z.max cycles_count 0) ∅ paths p);
      [done|done|done|by apply Hsound|done|].
    intros n _. rewrite lookup_empty. simpl. apply Hocc.
  - intros Hnd. by eapply find_path_NoDup.
Qed.

(** X7.  On a graph built by calls, a call of the mutation interface returns
    exactly when it is not a [del_edge] on an edge missing from the edge
    list; a call that does not return raises [ValueError] and leaves the
    graph as it was. *)
Theorem run_returns_or_absent g (c : call node) :
  built g →
  ((run c g).1 = Ret tt ↔ ∀ src dst, c = DelEdge src dst → (src, dst) ∈ edges g) ∧
  ((run c g).1 ≠ Ret tt → run c g = (Raise ValueError, g)).
Proof.
  intros Hwf%built_wf. destruct c as [n|n|src dst|src dst|src dst]; simpl.
  - destruct (add_node_spec g n Hwf) as (g' & -> & _). by split.
  - destruct (del_node_spec g n Hwf) as (g' & -> & _). by split.
  - destruct (add_edge_spec g src dst Hwf) as (g' & -> & _). by split.
  - destruct (add_uniq_edge_spec g src dst Hwf) as (g' & -> & _). by split.
  - destruct (list_remove (src, dst) (edges g)) as [es|] eqn:Hrem.
    + destruct (del_edge_present g src dst es (wf_sync _ Hwf) Hrem)
        as (ls & lp & _ & _ & _ & _ & ->). simpl. split; [|done].
      split; [|done]. intros _ ? ? [= <- <-].
      apply list_remove_is_Some. eauto.
    + apply list_remove_None in Hrem. rewrite del_edge_absent by done. simpl.
      split; [|done]. split; [done|]. intros Hall. destruct Hrem.
      by apply (Hall src dst).
Qed.

End find_path_copies.

Lemma find_path_enumerates_witness :
  ∃ paths fuel0,
    (∀ fuel, fuel0 ≤ fuel → find_path fuel graph_loop 0 2 1 ∅ = Ret paths) ∧
    (∀ p, p ∈ paths → path_from_to graph_loop 0 2 p) ∧
    (¬ reachable_from graph_loop 0 2 → paths = []) ∧
    (0 = 2 → paths = [[0]]) ∧
    (∀ p, p ∈ paths ↔
          path_from_to graph_loop 0 2 p ∧ (0 ∉ tail p) ∧
          ∀ n, (Z.of_nat (occurrences n p) ≤ Z.max 1 0 + 1)%Z) ∧
    (∀ p, p ∈ paths → copies p paths = path_weight graph_loop p) ∧
    (NoDup (edges graph_loop) → NoDup paths).
Proof. apply (find_path_enumerates graph_loop 0 2 1), built_build. Defined.

(** On the graph with parallel edges, a self-loop and a budget of [1]: the
    two paths are returned twice each, as their weights say. *)
Example find_path_loop_copies :
  find_path 6 graph_loop 0 2 1 ∅
  = Ret [[0; 1; 2]; [0; 1; 1; 2]; [0; 1; 1; 2]; [0; 1; 2]] ∧
  path_weight graph_loop [0; 1; 2] = 2 ∧ path_weight graph_loop [0; 1; 1; 2] = 2.
Proof. split_and!; by vm_compute. Qed.

Lemma run_returns_or_absent_witness :
  ((run (DelEdge 5 6) graph_fan).1 = Ret tt ↔
   ∀ src dst, DelEdge 5 6 = DelEdge src dst → (src, dst) ∈ edges graph_fan) ∧
  ((run (DelEdge 5 6) graph_fan).1 ≠ Ret tt →
   run (DelEdge 5 6) graph_fan = (Raise ValueError, graph_fan)).
Proof. apply (run_returns_or_absent graph_fan (DelEdge 5 6)), built_build. Defined.
